(** * Geezy Sudoku: the puzzle engine and the play session of [src/app/page.tsx]

    A shallow embedding of the solved-grid generator, the uniqueness
    counter, the puzzle carver and the play-session handlers of the
    [SudokuGame] component, with the properties of its specification
    stated and settled over the embedding. *)

From Stdlib Require Import ZArith List Bool Lia ZifyNat Permutation.
From Stdlib Require Uint63 DecimalString DecimalZ.
From stdpp Require Import base list gmap strings.

Open Scope Z_scope.

(** ** Boards

    [type SudokuBoard = number[][]]: an array of nine row arrays.  Row and
    column indices are naturals, cell values are integers, [0] meaning
    empty.  Every index the engine computes is in [0..8] and every board
    it builds is 9x9, so reads and writes below are always in range. *)

Abbreviation SudokuBoard := (list (list Z)).

(** [board[row][col]] *)
Definition cell (board : SudokuBoard) (row col : nat) : Z :=
  nth col (nth row board []) 0.

(** [board[row][col] = v] (in place in the source; the updated board is
    returned here). *)
Definition setCell (board : SudokuBoard) (row col : nat) (v : Z) : SudokuBoard :=
  <[row := <[col := v]> (nth row board [])]> board.

(** [Array(9).fill(0).map(() => Array(9).fill(0))] *)
Definition emptyBoard : SudokuBoard := replicate 9 (replicate 9 0).

Definition wfBoard (board : SudokuBoard) : Prop :=
  length board = 9%nat ∧ Forall (λ row, length row = 9%nat) board.

Definition wfBoardb (board : SudokuBoard) : bool :=
  (length board =? 9)%nat && forallb (λ row, (length row =? 9)%nat) board.

(** The digits tried by the search loops, in the order of
    [for (let num = 1; num <= 9; num++)]. *)
Definition digits : list Z := [1; 2; 3; 4; 5; 6; 7; 8; 9].

(** ** Constraint checker: [isValid] *)

Definition isValid (board : SudokuBoard) (row col : nat) (num : Z) : bool :=
  (* Check row *)
  forallb (λ x, negb (cell board row x =? num)) (seq 0 9) &&
  (* Check column *)
  forallb (λ x, negb (cell board x col =? num)) (seq 0 9) &&
  (* Check 3x3 box *)
  (let boxRow := (row - row mod 3)%nat in
   let boxCol := (col - col mod 3)%nat in
   forallb (λ i, forallb (λ j,
       negb (cell board (boxRow + i) (boxCol + j) =? num)) (seq 0 3)) (seq 0 3)).

(** ** Backtracking solver: [solveSudoku]

    The source mutates one shared board through the recursion; here the
    board is threaded: every call returns its verdict together with the
    board as it leaves it.  [fuel] bounds the recursion depth; [None] is
    running out of fuel. *)

(** The [for (let num = 1; num <= 9; num++)] loop of [solveSudoku] at the
    empty cell [(row, col)]; [rec] is the recursive call
    [solveSudoku(board, row + 1, col)]. *)
Fixpoint solveLoop (rec : SudokuBoard → option (bool * SudokuBoard))
    (row col : nat) (nums : list Z) (board : SudokuBoard)
    : option (bool * SudokuBoard) :=
  match nums with
  | [] => Some (false, setCell board row col 0)
  | num :: rest =>
      if isValid board row col num then
        match rec (setCell board row col num) with
        | Some (true, board') => Some (true, board')
        | Some (false, board') => solveLoop rec row col rest board'
        | None => None
        end
      else solveLoop rec row col rest board
  end.

Fixpoint solveSudoku (fuel : nat) (board : SudokuBoard) (row col : nat)
    : option (bool * SudokuBoard) :=
  match fuel with
  | O => None
  | S fuel' =>
      (* if (row === 9) { row = 0; if (++col === 9) return true; } *)
      let wrap := (row =? 9)%nat in
      let col' := if wrap then S col else col in
      let row' := if wrap then O else row in
      if wrap && (col' =? 9)%nat then Some (true, board)
      else if negb (cell board row' col' =? 0)
      then solveSudoku fuel' board (S row') col'
      else solveLoop (λ b, solveSudoku fuel' b (S row') col') row' col' digits board
  end.

(** Depth of the recursion started at [(0, 0)]: 81 cells and the final
    call that runs off the grid. *)
Definition solveFuel : nat := 82.

(** ** Randomness

    Every random number of the source is [Math.floor(Math.random() * n)],
    an integer in [0 .. n-1].  A run is modelled against an oracle: the
    list of the integers these expressions evaluate to, in call order.
    A draw outside its range cannot occur; [None] means that the oracle
    has no draw left or holds one outside the range. *)

Abbreviation Oracle := (list nat).

(** [Math.floor(Math.random() * n)] *)
Definition randomBelow (n : nat) (o : Oracle) : option (nat * Oracle) :=
  match o with
  | j :: o' => if (j <? n)%nat then Some (j, o') else None
  | [] => None
  end.

(** ** Solved-grid generator *)

(** [[array[i], array[j]] = [array[j], array[i]]] *)
Definition swap (array : list Z) (i j : nat) : list Z :=
  <[j := nth i array 0]> (<[i := nth j array 0]> array).

(** [for (let i = array.length - 1; i > 0; i--)] of [shuffleArray], entered
    with the loop variable equal to [i]. *)
Fixpoint shuffleLoop (i : nat) (array : list Z) (o : Oracle)
    : option (list Z * Oracle) :=
  match i with
  | O => Some (array, o)
  | S i' =>
      match randomBelow (i + 1) o with
      | Some (j, o') => shuffleLoop i' (swap array i j) o'
      | None => None
      end
  end.

Definition shuffleArray (array : list Z) (o : Oracle) : option (list Z * Oracle) :=
  shuffleLoop (length array - 1) array o.

(** The nine writes [board[row + i][col + j] = nums[index++]] of [fillBox]. *)
Definition writeBox (board : SudokuBoard) (row col : nat) (nums : list Z)
    : SudokuBoard :=
  fold_left (λ b index,
      setCell b (row + index / 3) (col + index mod 3) (nth index nums 0))
    (seq 0 9) board.

Definition fillBox (board : SudokuBoard) (row col : nat) (o : Oracle)
    : option (SudokuBoard * Oracle) :=
  match shuffleArray digits o with
  | Some (nums, o') => Some (writeBox board row col nums, o')
  | None => None
  end.

(** [for (let box = 0; box < 9; box += 3) fillBox(board, box, box)] *)
Definition fillDiagonalBoxes (board : SudokuBoard) (o : Oracle)
    : option (SudokuBoard * Oracle) :=
  match fillBox board 0 0 o with
  | Some (b1, o1) =>
      match fillBox b1 3 3 o1 with
      | Some (b2, o2) => fillBox b2 6 6 o2
      | None => None
      end
  | None => None
  end.

(** [generateSolvedBoard]: the verdict of [solveSudoku] is discarded and the
    board is returned as the search leaves it. *)
Definition generateSolvedBoard (o : Oracle) : option (SudokuBoard * Oracle) :=
  match fillDiagonalBoxes emptyBoard o with
  | Some (board, o') =>
      match solveSudoku solveFuel board 0 0 with
      | Some (_, board') => Some (board', o')
      | None => None
      end
  | None => None
  end.

(** ** Uniqueness counter *)

(** The [for (let num = 1; num <= 9 && count < 2; num++)] loop of
    [countSolutionsHelper]. *)
Fixpoint countLoop (rec : SudokuBoard → Z → option (Z * SudokuBoard))
    (row col : nat) (nums : list Z) (board : SudokuBoard) (count : Z)
    : option (Z * SudokuBoard) :=
  match nums with
  | [] => Some (count, setCell board row col 0)
  | num :: rest =>
      if count <? 2 then
        if isValid board row col num then
          match rec (setCell board row col num) count with
          | Some (count', board') => countLoop rec row col rest board' count'
          | None => None
          end
        else countLoop rec row col rest board count
      else Some (count, setCell board row col 0)
  end.

Fixpoint countSolutionsHelper (fuel : nat) (board : SudokuBoard)
    (row col : nat) (count : Z) : option (Z * SudokuBoard) :=
  match fuel with
  | O => None
  | S fuel' =>
      let wrap := (row =? 9)%nat in
      let col' := if wrap then S col else col in
      let row' := if wrap then O else row in
      if wrap && (col' =? 9)%nat then Some (count + 1, board)
      else if negb (cell board row' col' =? 0)
      then countSolutionsHelper fuel' board (S row') col' count
      else countLoop (λ b n, countSolutionsHelper fuel' b (S row') col' n)
             row' col' digits board count
  end.

(** [countSolutions]: the search runs on [tempBoard], a copy of the
    argument, and only the count is returned.  [None] never happens
    (see [countSolutions_total]). *)
Definition countSolutions (board : SudokuBoard) : option Z :=
  let tempBoard := map (λ row, row) board in
  match countSolutionsHelper solveFuel tempBoard 0 0 0 with
  | Some (count, _) => Some count
  | None => None
  end.

(** ** Puzzle carver *)

Definition cellsToRemoveOf (difficulty : string) : Z :=
  if String.eqb difficulty "easy" then 40
  else if String.eqb difficulty "medium" then 50
  else if String.eqb difficulty "hard" then 60
  else 50.

(** State of the [while (cellsToRemove > 0)] loop of [createPuzzle] at the
    head of an iteration. *)
Record CarveState := {
  cs_puzzle : SudokuBoard;
  cs_cellsToRemove : Z;
  cs_oracle : Oracle
}.

(** One iteration of the loop body. *)
Definition carveStep (s : CarveState) : option CarveState :=
  match randomBelow 9 (cs_oracle s) with
  | Some (row, o1) =>
      match randomBelow 9 o1 with
      | Some (col, o2) =>
          let puzzle := cs_puzzle s in
          if negb (cell puzzle row col =? 0) then
            let backup := cell puzzle row col in
            let puzzle1 := setCell puzzle row col 0 in
            let tempBoard := map (λ r, r) puzzle1 in
            match countSolutions tempBoard with
            | Some n =>
                if negb (n =? 1)
                then Some {| cs_puzzle := setCell puzzle1 row col backup;
                             cs_cellsToRemove := cs_cellsToRemove s;
                             cs_oracle := o2 |}
                else Some {| cs_puzzle := puzzle1;
                             cs_cellsToRemove := cs_cellsToRemove s - 1;
                             cs_oracle := o2 |}
            | None => None
            end
          else Some {| cs_puzzle := puzzle;
                       cs_cellsToRemove := cs_cellsToRemove s;
                       cs_oracle := o2 |}
      | None => None
      end
  | None => None
  end.

(** The loop, for at most [n] iterations: the state at the head of the
    first iteration that does not run, either because the loop condition
    fails, or because the oracle is used up, or after [n] iterations. *)
Fixpoint carveLoop (n : nat) (s : CarveState) : CarveState :=
  match n with
  | O => s
  | S n' =>
      if cs_cellsToRemove s >? 0 then
        match carveStep s with
        | Some s' => carveLoop n' s'
        | None => s
        end
      else s
  end.

(** [createPuzzle]: the loop has no bound in the source.  Each iteration
    consumes two draws, so on a finite oracle the number of iterations is
    at most its length; the call returns when the loop condition fails. *)
Definition createPuzzle (solvedBoard : SudokuBoard) (difficulty : string)
    (o : Oracle) : option (SudokuBoard * Oracle) :=
  let puzzle := map (λ row, row) solvedBoard in
  let s := carveLoop (length o)
             {| cs_puzzle := puzzle;
                cs_cellsToRemove := cellsToRemoveOf difficulty;
                cs_oracle := o |} in
  if cs_cellsToRemove s >? 0 then None else Some (cs_puzzle s, cs_oracle s).


(** ** The rules of Sudoku, as the specification states them *)

(** The nine cells of a row, of a column and of a 3x3 box (box index
    [(row / 3) * 3 + col / 3]). *)
Definition rowOf (board : SudokuBoard) (row : nat) : list Z :=
  map (λ col, cell board row col) (seq 0 9).

Definition colOf (board : SudokuBoard) (col : nat) : list Z :=
  map (λ row, cell board row col) (seq 0 9).

Definition boxOf (board : SudokuBoard) (box : nat) : list Z :=
  map (λ i, cell board (3 * (box / 3) + i / 3) (3 * (box mod 3) + i mod 3))
      (seq 0 9).

(** A solved grid: 9x9, and every row, column and box is a permutation of
    1..9. *)
Definition isSolved (board : SudokuBoard) : Prop :=
  wfBoard board ∧
  ∀ k, (k < 9)%nat →
    Permutation (rowOf board k) digits ∧
    Permutation (colOf board k) digits ∧
    Permutation (boxOf board k) digits.

(** [s] agrees with [board] on every filled cell of [board]. *)
Definition extends (board s : SudokuBoard) : Prop :=
  ∀ row col, (row < 9)%nat → (col < 9)%nat →
    cell board row col ≠ 0 → cell s row col = cell board row col.

(** A Sudoku completion of [board]. *)
Definition completion (board s : SudokuBoard) : Prop :=
  isSolved s ∧ extends board s.

(** Two cells that share a row, a column or a box. *)
Definition sameUnit (row col row' col' : nat) : Prop :=
  row = row' ∨ col = col' ∨ (row / 3 = row' / 3 ∧ col / 3 = col' / 3)%nat.

(** Every cell is empty or a digit 1..9. *)
Definition digitCells (board : SudokuBoard) : Prop :=
  ∀ row col, (row < 9)%nat → (col < 9)%nat → 0 ≤ cell board row col ≤ 9.

(** Every cell is a digit 1..9. *)
Definition fullBoard (board : SudokuBoard) : Prop :=
  ∀ row col, (row < 9)%nat → (col < 9)%nat → 1 ≤ cell board row col ≤ 9.

(** No filled cell repeats in its row, column or box. *)
Definition consistent (board : SudokuBoard) : Prop :=
  ∀ row col row' col',
    (row < 9)%nat → (col < 9)%nat → (row' < 9)%nat → (col' < 9)%nat →
    (row, col) ≠ (row', col') → sameUnit row col row' col' →
    cell board row col ≠ 0 → cell board row col ≠ cell board row' col'.

(** Decision procedures for concrete boards. *)
Definition isPermOfDigits (l : list Z) : bool :=
  forallb (λ d, existsb (Z.eqb d) l) digits && (length l =? 9)%nat.

Definition isSolvedb (board : SudokuBoard) : bool :=
  wfBoardb board &&
  forallb (λ k, isPermOfDigits (rowOf board k) && isPermOfDigits (colOf board k)
                && isPermOfDigits (boxOf board k)) (seq 0 9).

(** ** Cell orders *)

(** Column by column, each column from top to bottom. *)
Definition colMajor : list (nat * nat) :=
  flat_map (λ col, map (λ row, (row, col)) (seq 0 9)) (seq 0 9).

(** Row by row, each row from left to right. *)
Definition rowMajor : list (nat * nat) :=
  flat_map (λ row, map (λ col, (row, col)) (seq 0 9)) (seq 0 9).

(** Position of [(row, col)] in the column-major order; [row = 9] is the
    position of [(0, col + 1)]. *)
Definition posOf (row col : nat) : nat := (col * 9 + row)%nat.

(** Number of cells of a board that hold [d]. *)
Definition countDigit (board : SudokuBoard) (d : Z) : Z :=
  Z.of_nat (length (filter (λ v, v = d) (concat board))).

(** Number of empty cells of a board. *)
Definition countZeros (board : SudokuBoard) : Z := countDigit board 0.

(** ** Backtracking over an explicit cell order

    The search of the specification: visit the cells of [cells] in order,
    skip the filled ones, at an empty cell try the digits 1..9 in
    ascending order, and on exhausting them reset the cell to 0 and
    report failure to the parent. *)
Fixpoint solveCells (cells : list (nat * nat)) (board : SudokuBoard)
    : option (bool * SudokuBoard) :=
  match cells with
  | [] => Some (true, board)
  | (row, col) :: rest =>
      if negb (cell board row col =? 0) then solveCells rest board
      else solveLoop (solveCells rest) row col digits board
  end.

(** The same search counting completions up to the cap of 2. *)
Fixpoint countCells (cells : list (nat * nat)) (board : SudokuBoard) (count : Z)
    : option (Z * SudokuBoard) :=
  match cells with
  | [] => Some (count + 1, board)
  | (row, col) :: rest =>
      if negb (cell board row col =? 0) then countCells rest board count
      else countLoop (countCells rest) row col digits board count
  end.

(** All the boards the search can end on: the empty cells of [cells]
    filled in order, each with a digit that [isValid] accepts. *)
Fixpoint sols (cells : list (nat * nat)) (board : SudokuBoard)
    : list SudokuBoard :=
  match cells with
  | [] => [board]
  | (row, col) :: rest =>
      if negb (cell board row col =? 0) then sols rest board
      else flat_map (λ num,
             if isValid board row col num
             then sols rest (setCell board row col num) else []) digits
  end.

(** The search of the specification, written without reference to the
    code: total, over an explicit cell order.  [tryDigits] is the visit of
    one empty cell: the digits are tried in the order given; a digit that
    conflicts is passed over; a digit that fits is written and the search
    continues with the rest of the order ([continue]); when that fails the
    next digit is tried; when no digit is left the cell is reset to 0 and
    the failure is reported to the parent. *)
Fixpoint tryDigits (continue : SudokuBoard → bool * SudokuBoard)
    (row col : nat) (nums : list Z) (board : SudokuBoard)
    : bool * SudokuBoard :=
  match nums with
  | [] => (false, setCell board row col 0)
  | num :: rest =>
      if isValid board row col num then
        let '(found, board') := continue (setCell board row col num) in
        if found then (true, board')
        else tryDigits continue row col rest board'
      else tryDigits continue row col rest board
  end.

Fixpoint backtrack (order : list (nat * nat)) (board : SudokuBoard)
    : bool * SudokuBoard :=
  match order with
  | [] => (true, board)
  | (row, col) :: rest =>
      if cell board row col =? 0
      then tryDigits (backtrack rest) row col [1; 2; 3; 4; 5; 6; 7; 8; 9] board
      else backtrack rest board
  end.

Definition sameUnitb (p q : nat * nat) : bool :=
  (p.1 =? q.1)%nat || (p.2 =? q.2)%nat
  || ((p.1 / 3 =? q.1 / 3)%nat && (p.2 / 3 =? q.2 / 3)%nat).

Definition digitCellsb (board : SudokuBoard) : bool :=
  forallb (λ p : nat * nat,
    (0 <=? cell board p.1 p.2) && (cell board p.1 p.2 <=? 9)) colMajor.

Definition consistentb (board : SudokuBoard) : bool :=
  forallb (λ p : nat * nat, forallb (λ q : nat * nat,
    implb (negb (bool_decide (p = q)) && sameUnitb p q
           && negb (cell board p.1 p.2 =? 0))
          (negb (cell board p.1 p.2 =? cell board q.1 q.2))) colMajor) colMajor.

(** [puzzle] is [solved] with some cells emptied. *)
Definition carvedFrom (solved puzzle : SudokuBoard) : Prop :=
  wfBoard puzzle ∧
  ∀ row col, (row < 9)%nat → (col < 9)%nat →
    cell puzzle row col = 0 ∨ cell puzzle row col = cell solved row col.

(** * The play session

    [SudokuGame] is a React function component.  Its state variables are
    modelled by the record [Vars]; the row arrays of the working board live
    in a heap, because [handleNumberInput] writes through [[...board]], a
    copy of the outer array that shares the rows; and the two callbacks
    that React keeps from an earlier render (the memoized
    [handleNumberInput] and the registered [keydown] listener) are
    modelled by the values they captured. *)

(** ** The heap of row arrays *)

Record Heap := {
  h_rows : gmap nat (list Z);
  h_next : nat            (* next location to allocate *)
}.

(** A board object: the references to its nine row arrays. *)
Abbreviation BoardRef := (list nat).

Definition heapRow (h : Heap) (l : nat) : list Z := default [] (h_rows h !! l).

Definition readBoard (h : Heap) (board : BoardRef) : SudokuBoard :=
  map (heapRow h) board.

(** Fresh row arrays holding [rows]. *)
Fixpoint allocRows (h : Heap) (rows : SudokuBoard) : BoardRef * Heap :=
  match rows with
  | [] => ([], h)
  | row :: rest =>
      let l := h_next h in
      let '(ls, h') :=
        allocRows {| h_rows := <[l := row]> (h_rows h); h_next := S l |} rest in
      (l :: ls, h')
  end.

(** [board.map(row => [...row])] *)
Definition copyBoard (h : Heap) (board : BoardRef) : BoardRef * Heap :=
  allocRows h (readBoard h board).

(** [board[row][col] = v] through the row reference. *)
Definition writeCell (h : Heap) (board : BoardRef) (row col : nat) (v : Z) : Heap :=
  match board !! row with
  | Some l => {| h_rows := <[l := <[col := v]> (heapRow h l)]> (h_rows h);
                 h_next := h_next h |}
  | None => h
  end.

(** The rows of [board] overwritten with [rows]. *)
Fixpoint storeRows (h : Heap) (board : BoardRef) (rows : SudokuBoard) : Heap :=
  match board, rows with
  | l :: ls, row :: rest =>
      storeRows {| h_rows := <[l := row]> (h_rows h); h_next := h_next h |} ls rest
  | _, _ => h
  end.

(** [countSolutions] called on a board object of the heap: the search runs
    on the rows of [tempBoard], allocated by the copy. *)
Definition countSolutionsOn (h : Heap) (board : BoardRef) : option (Z * Heap) :=
  let '(tempBoard, h1) := copyBoard h board in
  match countSolutionsHelper solveFuel (readBoard h1 tempBoard) 0 0 0 with
  | Some (count, after) => Some (count, storeRows h1 tempBoard after)
  | None => None
  end.

(** Every allocated location is below [h_next]. *)
Definition wfHeap (h : Heap) : Prop :=
  map_Forall (λ l _, (l < h_next h)%nat) (h_rows h).

(** ** State variables *)

Inductive Toast :=
| ToastGameOver                     (* 'Game Over! You made 3 wrong attempts' *)
| ToastWrong (attemptsLeft : Z)     (* 'Wrong number! Attempts left: ...' *)
| ToastNoMore (num : Z)             (* 'No more ...'s left to place!' *)
| ToastSmartMove (moveType : string) (* 'Smart move! You completed a ...!' *)
| ToastSolved                       (* 'Congratulations! Puzzle solved!' *)
| ToastHasNumber                    (* 'This cell already has a number!' *)
| ToastHint (correctNumber : Z)     (* the explanation of a hint *)
| ToastPause (wasPaused : bool).    (* 'Game resumed!' / 'Game paused' *)

Record Vars := {
  board : BoardRef;
  solution : SudokuBoard;
  initialBoard : SudokuBoard;
  selectedCell : option (nat * nat);
  difficulty : string;
  playerName : string;
  gameStarted : bool;
  timer : Z;
  gameCompleted : bool;
  bestTimes : gmap string Z;
  isPaused : bool;
  numberUsage : gmap Z Z;
  wrongAttempts : Z;
  hintsRemaining : Z;
  lastSmartMove : string
}.

Definition setBoard (v : BoardRef) (s : Vars) : Vars :=
  {| board := v; solution := solution s; initialBoard := initialBoard s;
     selectedCell := selectedCell s; difficulty := difficulty s;
     playerName := playerName s; gameStarted := gameStarted s;
     timer := timer s; gameCompleted := gameCompleted s;
     bestTimes := bestTimes s; isPaused := isPaused s;
     numberUsage := numberUsage s; wrongAttempts := wrongAttempts s;
     hintsRemaining := hintsRemaining s; lastSmartMove := lastSmartMove s |}.

Definition setSolution (v : SudokuBoard) (s : Vars) : Vars :=
  {| board := board s; solution := v; initialBoard := initialBoard s;
     selectedCell := selectedCell s; difficulty := difficulty s;
     playerName := playerName s; gameStarted := gameStarted s;
     timer := timer s; gameCompleted := gameCompleted s;
     bestTimes := bestTimes s; isPaused := isPaused s;
     numberUsage := numberUsage s; wrongAttempts := wrongAttempts s;
     hintsRemaining := hintsRemaining s; lastSmartMove := lastSmartMove s |}.

Definition setInitialBoard (v : SudokuBoard) (s : Vars) : Vars :=
  {| board := board s; solution := solution s; initialBoard := v;
     selectedCell := selectedCell s; difficulty := difficulty s;
     playerName := playerName s; gameStarted := gameStarted s;
     timer := timer s; gameCompleted := gameCompleted s;
     bestTimes := bestTimes s; isPaused := isPaused s;
     numberUsage := numberUsage s; wrongAttempts := wrongAttempts s;
     hintsRemaining := hintsRemaining s; lastSmartMove := lastSmartMove s |}.

Definition setSelectedCell (v : option (nat * nat)) (s : Vars) : Vars :=
  {| board := board s; solution := solution s; initialBoard := initialBoard s;
     selectedCell := v; difficulty := difficulty s;
     playerName := playerName s; gameStarted := gameStarted s;
     timer := timer s; gameCompleted := gameCompleted s;
     bestTimes := bestTimes s; isPaused := isPaused s;
     numberUsage := numberUsage s; wrongAttempts := wrongAttempts s;
     hintsRemaining := hintsRemaining s; lastSmartMove := lastSmartMove s |}.

Definition setDifficulty (v : string) (s : Vars) : Vars :=
  {| board := board s; solution := solution s; initialBoard := initialBoard s;
     selectedCell := selectedCell s; difficulty := v;
     playerName := playerName s; gameStarted := gameStarted s;
     timer := timer s; gameCompleted := gameCompleted s;
     bestTimes := bestTimes s; isPaused := isPaused s;
     numberUsage := numberUsage s; wrongAttempts := wrongAttempts s;
     hintsRemaining := hintsRemaining s; lastSmartMove := lastSmartMove s |}.

Definition setGameStarted (v : bool) (s : Vars) : Vars :=
  {| board := board s; solution := solution s; initialBoard := initialBoard s;
     selectedCell := selectedCell s; difficulty := difficulty s;
     playerName := playerName s; gameStarted := v;
     timer := timer s; gameCompleted := gameCompleted s;
     bestTimes := bestTimes s; isPaused := isPaused s;
     numberUsage := numberUsage s; wrongAttempts := wrongAttempts s;
     hintsRemaining := hintsRemaining s; lastSmartMove := lastSmartMove s |}.

Definition setTimer (v : Z) (s : Vars) : Vars :=
  {| board := board s; solution := solution s; initialBoard := initialBoard s;
     selectedCell := selectedCell s; difficulty := difficulty s;
     playerName := playerName s; gameStarted := gameStarted s;
     timer := v; gameCompleted := gameCompleted s;
     bestTimes := bestTimes s; isPaused := isPaused s;
     numberUsage := numberUsage s; wrongAttempts := wrongAttempts s;
     hintsRemaining := hintsRemaining s; lastSmartMove := lastSmartMove s |}.

Definition setGameCompleted (v : bool) (s : Vars) : Vars :=
  {| board := board s; solution := solution s; initialBoard := initialBoard s;
     selectedCell := selectedCell s; difficulty := difficulty s;
     playerName := playerName s; gameStarted := gameStarted s;
     timer := timer s; gameCompleted := v;
     bestTimes := bestTimes s; isPaused := isPaused s;
     numberUsage := numberUsage s; wrongAttempts := wrongAttempts s;
     hintsRemaining := hintsRemaining s; lastSmartMove := lastSmartMove s |}.

Definition setBestTimes (v : gmap string Z) (s : Vars) : Vars :=
  {| board := board s; solution := solution s; initialBoard := initialBoard s;
     selectedCell := selectedCell s; difficulty := difficulty s;
     playerName := playerName s; gameStarted := gameStarted s;
     timer := timer s; gameCompleted := gameCompleted s;
     bestTimes := v; isPaused := isPaused s;
     numberUsage := numberUsage s; wrongAttempts := wrongAttempts s;
     hintsRemaining := hintsRemaining s; lastSmartMove := lastSmartMove s |}.

Definition setIsPaused (v : bool) (s : Vars) : Vars :=
  {| board := board s; solution := solution s; initialBoard := initialBoard s;
     selectedCell := selectedCell s; difficulty := difficulty s;
     playerName := playerName s; gameStarted := gameStarted s;
     timer := timer s; gameCompleted := gameCompleted s;
     bestTimes := bestTimes s; isPaused := v;
     numberUsage := numberUsage s; wrongAttempts := wrongAttempts s;
     hintsRemaining := hintsRemaining s; lastSmartMove := lastSmartMove s |}.

Definition setNumberUsage (v : gmap Z Z) (s : Vars) : Vars :=
  {| board := board s; solution := solution s; initialBoard := initialBoard s;
     selectedCell := selectedCell s; difficulty := difficulty s;
     playerName := playerName s; gameStarted := gameStarted s;
     timer := timer s; gameCompleted := gameCompleted s;
     bestTimes := bestTimes s; isPaused := isPaused s;
     numberUsage := v; wrongAttempts := wrongAttempts s;
     hintsRemaining := hintsRemaining s; lastSmartMove := lastSmartMove s |}.

Definition setWrongAttempts (v : Z) (s : Vars) : Vars :=
  {| board := board s; solution := solution s; initialBoard := initialBoard s;
     selectedCell := selectedCell s; difficulty := difficulty s;
     playerName := playerName s; gameStarted := gameStarted s;
     timer := timer s; gameCompleted := gameCompleted s;
     bestTimes := bestTimes s; isPaused := isPaused s;
     numberUsage := numberUsage s; wrongAttempts := v;
     hintsRemaining := hintsRemaining s; lastSmartMove := lastSmartMove s |}.

Definition setHintsRemaining (v : Z) (s : Vars) : Vars :=
  {| board := board s; solution := solution s; initialBoard := initialBoard s;
     selectedCell := selectedCell s; difficulty := difficulty s;
     playerName := playerName s; gameStarted := gameStarted s;
     timer := timer s; gameCompleted := gameCompleted s;
     bestTimes := bestTimes s; isPaused := isPaused s;
     numberUsage := numberUsage s; wrongAttempts := wrongAttempts s;
     hintsRemaining := v; lastSmartMove := lastSmartMove s |}.

Definition setLastSmartMove (v : string) (s : Vars) : Vars :=
  {| board := board s; solution := solution s; initialBoard := initialBoard s;
     selectedCell := selectedCell s; difficulty := difficulty s;
     playerName := playerName s; gameStarted := gameStarted s;
     timer := timer s; gameCompleted := gameCompleted s;
     bestTimes := bestTimes s; isPaused := isPaused s;
     numberUsage := numberUsage s; wrongAttempts := wrongAttempts s;
     hintsRemaining := hintsRemaining s; lastSmartMove := v |}.

(** ** Callbacks kept from an earlier render

    [handleNumberInput] is [useCallback(..., [board, gameCompleted, isPaused,
    numberUsage, selectedCell, solution, wrongAttempts])]: React hands out
    the function of the last render in which one of these changed.  That
    function reads the state variables of its own render, and calls the
    [checkForSmartMove], [isBoardComplete] and [saveBestTime] of its own
    render, which read [lastSmartMove], [solution], and [difficulty],
    [playerName] and [timer]. *)
Record Closure := {
  c_board : BoardRef;
  c_gameCompleted : bool;
  c_isPaused : bool;
  c_numberUsage : gmap Z Z;
  c_selectedCell : option (nat * nat);
  c_solution : SudokuBoard;
  c_wrongAttempts : Z;
  c_lastSmartMove : string;
  c_difficulty : string;
  c_playerName : string;
  c_timer : Z
}.

(** The [handleNumberInput] created by a render with state [v]. *)
Definition capture (v : Vars) : Closure :=
  {| c_board := board v; c_gameCompleted := gameCompleted v;
     c_isPaused := isPaused v; c_numberUsage := numberUsage v;
     c_selectedCell := selectedCell v; c_solution := solution v;
     c_wrongAttempts := wrongAttempts v; c_lastSmartMove := lastSmartMove v;
     c_difficulty := difficulty v; c_playerName := playerName v;
     c_timer := timer v |}.

(** The [keydown] listener is installed by an effect with dependencies
    [[selectedCell, gameStarted, gameCompleted, isPaused]]: the listener on
    [window] is [handleKeyDown] of the last render in which one of these
    changed, with the [handleNumberInput] that render was handed. *)
Record KeyListener := {
  k_gameStarted : bool;
  k_gameCompleted : bool;
  k_isPaused : bool;
  k_selectedCell : option (nat * nat);
  k_input : Closure
}.

(** ** The state of the page *)

Record State := {
  vars : Vars;
  heap : Heap;
  inputClosure : Closure;        (* the memoized [handleNumberInput] *)
  keyListener : KeyListener;     (* the registered [keydown] listener *)
  db : gmap (string * string) Z; (* object store 'bestTimes' of IndexedDB *)
  toasts : list Toast            (* the notifications shown, latest first *)
}.

Definition withVars (f : Vars → Vars) (s : State) : State :=
  {| vars := f (vars s); heap := heap s; inputClosure := inputClosure s;
     keyListener := keyListener s; db := db s; toasts := toasts s |}.

Definition withHeap (h : Heap) (s : State) : State :=
  {| vars := vars s; heap := h; inputClosure := inputClosure s;
     keyListener := keyListener s; db := db s; toasts := toasts s |}.

Definition withDb (d : gmap (string * string) Z) (s : State) : State :=
  {| vars := vars s; heap := heap s; inputClosure := inputClosure s;
     keyListener := keyListener s; db := d; toasts := toasts s |}.

Definition withClosures (c : Closure) (k : KeyListener) (s : State) : State :=
  {| vars := vars s; heap := heap s; inputClosure := c;
     keyListener := k; db := db s; toasts := toasts s |}.

Definition toast (t : Toast) (s : State) : State :=
  {| vars := vars s; heap := heap s; inputClosure := inputClosure s;
     keyListener := keyListener s; db := db s; toasts := t :: toasts s |}.

(** The working board as the page shows it. *)
Definition workingBoard (s : State) : SudokuBoard :=
  readBoard (heap s) (board (vars s)).

(** Which object-valued state variables a handler has replaced.  A setter
    of these is always called with a new object, so the variable changes
    identity exactly when its setter is called. *)
Record Dirty := {
  d_board : bool;
  d_numberUsage : bool;
  d_selectedCell : bool;
  d_solution : bool
}.

Definition noDirty : Dirty :=
  {| d_board := false; d_numberUsage := false;
     d_selectedCell := false; d_solution := false |}.

(** ** The effect that recomputes [numberUsage] (lines 76-94) *)

Definition usageEffect (usage : gmap Z Z) (content : SudokuBoard) : gmap Z Z :=
  let newUsage := fold_left (λ m i, <[i := 9]> m) digits usage in
  fold_left (λ m v, if v >? 0 then <[v := m !!! v - 1]> m else m)
    (concat content) newUsage.

(** [numberUsage[num] <= 0]; a missing key reads [undefined], for which the
    comparison is false. *)
Definition usageExhausted (usage : gmap Z Z) (num : Z) : bool :=
  match usage !! num with
  | Some n => n <=? 0
  | None => false
  end.

(** ** Move evaluation *)

(** The label computed by [checkForSmartMove]. *)
Definition smartMoveType (content : SudokuBoard) (row col : nat) : string :=
  let isRowComplete := forallb (λ v, negb (v =? 0)) (nth row content []) in
  let isColComplete := forallb (λ r, negb (nth col r 0 =? 0)) content in
  let boxRow := (row / 3 * 3)%nat in
  let boxCol := (col / 3 * 3)%nat in
  let isBoxComplete :=
    forallb (λ i, forallb (λ j,
      negb (cell content (boxRow + i) (boxCol + j) =? 0)) (seq 0 3)) (seq 0 3) in
  if isRowComplete && isColComplete && isBoxComplete then "row, column and box"
  else if isRowComplete && isColComplete then "row and column"
  else if isRowComplete && isBoxComplete then "row and box"
  else if isColComplete && isBoxComplete then "column and box"
  else if isRowComplete then "row"
  else if isColComplete then "column"
  else if isBoxComplete then "box"
  else "".

(** [checkForSmartMove], of the render that captured [lastSmartMove]. *)
Definition checkForSmartMove (lastSmartMove : string) (content : SudokuBoard)
    (row col : nat) (num : Z) (s : State) : State :=
  if num =? 0 then s
  else
    let moveType := smartMoveType content row col in
    if negb (String.eqb moveType "") && negb (String.eqb moveType lastSmartMove)
    then toast (ToastSmartMove moveType) (withVars (setLastSmartMove moveType) s)
    else s.

(** [isBoardComplete], of the render that captured [solution]. *)
Definition isBoardComplete (solution : SudokuBoard) (currentBoard : SudokuBoard)
    : bool :=
  forallb (λ p : nat * nat,
    negb ((cell currentBoard p.1 p.2 =? 0)
          || negb (cell currentBoard p.1 p.2 =? cell solution p.1 p.2)))
    rowMajor.

(** [saveBestTime], of the render that captured [difficulty], [playerName]
    and [timer].  The page runs in a browser, where [window.indexedDB]
    exists; the request, the read and the write are taken as one step. *)
Definition saveBestTime (c : Closure) (s : State) : State :=
  if negb (String.eqb (c_playerName c) "") then
    let key := (c_playerName c, c_difficulty c) in
    let better :=
      match db s !! key with
      | Some existing => c_timer c <? existing
      | None => true
      end in
    if better then
      withVars (λ v, setBestTimes (<[c_difficulty c := c_timer c]> (bestTimes v)) v)
        (withDb (<[key := c_timer c]> (db s)) s)
    else s
  else s.

(** [handleNumberInput(num)], the function of the render that captured [c],
    called in state [s].  It reads what it captured, writes through the
    row arrays it captured, and queues its state updates on [s]. *)
Definition handleNumberInput (c : Closure) (num : Z) (s : State) : State * Dirty :=
  match c_selectedCell c with
  | Some (row, col) =>
      if negb (c_gameCompleted c) && negb (c_isPaused c) then
        if negb (num =? 0) && negb (num =? cell (c_solution c) row col) then
          let newWrongAttempts := c_wrongAttempts c + 1 in
          let s1 := withVars (setWrongAttempts newWrongAttempts) s in
          if newWrongAttempts >=? 3
          then (withVars (setGameCompleted true) (toast ToastGameOver s1), noDirty)
          else (toast (ToastWrong (3 - newWrongAttempts)) s1, noDirty)
        else if negb (num =? 0) && usageExhausted (c_numberUsage c) num
        then (toast (ToastNoMore num) s, noDirty)
        else
          let newBoard := c_board c in
          let previousValue := cell (readBoard (heap s) newBoard) row col in
          let h' := writeCell (heap s) newBoard row col num in
          let s1 := withHeap h' (withVars (setBoard newBoard) s) in
          let s2 :=
            if previousValue >? 0
            then withVars (λ prev, setNumberUsage
                   (<[previousValue := numberUsage prev !!! previousValue + 1]>
                      (numberUsage prev)) prev) s1
            else s1 in
          let s3 :=
            if num >? 0
            then withVars (λ prev, setNumberUsage
                   (<[num := numberUsage prev !!! num - 1]> (numberUsage prev)) prev) s2
            else s2 in
          let s4 := checkForSmartMove (c_lastSmartMove c) (readBoard h' newBoard)
                      row col num s3 in
          let s5 :=
            if isBoardComplete (c_solution c) (readBoard h' newBoard)
            then toast ToastSolved
                   (saveBestTime c (withVars (setGameCompleted true) s4))
            else s4 in
          (s5, {| d_board := true;
                  d_numberUsage := (previousValue >? 0) || (num >? 0);
                  d_selectedCell := false; d_solution := false |})
      else (s, noDirty)
  | None => (s, noDirty)
  end.

(** [handleCellClick(row, col)]: all it reads is among its dependencies, so
    it is always the function of the current render. *)
Definition handleCellClick (row col : nat) (s : State) : State * Dirty :=
  let v := vars s in
  if (cell (initialBoard v) row col =? 0)
     && negb (gameCompleted v) && negb (isPaused v)
  then (withVars (setSelectedCell (Some (row, col))) s,
        {| d_board := false; d_numberUsage := false;
           d_selectedCell := true; d_solution := false |})
  else (s, noDirty).

(** The keys [handleKeyDown] tells apart. *)
Inductive Key :=
| KeyDigit (n : Z)      (* '1' .. '9' *)
| KeyBackspace | KeyDelete
| ArrowUp | ArrowDown | ArrowLeft | ArrowRight
| KeyOther.

Definition moveSelection (cell : option (nat * nat)) (s : State) : State * Dirty :=
  (withVars (setSelectedCell cell) s,
   {| d_board := false; d_numberUsage := false;
      d_selectedCell := true; d_solution := false |}).

(** The registered listener [k], called in state [s]. *)
Definition handleKeyDown (k : KeyListener) (key : Key) (s : State) : State * Dirty :=
  if negb (k_gameStarted k) || k_gameCompleted k || k_isPaused k then (s, noDirty)
  else
    match k_selectedCell k with
    | Some (row, col) =>
        match key with
        | KeyDigit n => handleNumberInput (k_input k) n s
        | KeyBackspace | KeyDelete => handleNumberInput (k_input k) 0 s
        | ArrowUp =>
            if (0 <? row)%nat then moveSelection (Some (row - 1, col)%nat) s
            else (s, noDirty)
        | ArrowDown =>
            if (row <? 8)%nat then moveSelection (Some (row + 1, col)%nat) s
            else (s, noDirty)
        | ArrowLeft =>
            if (0 <? col)%nat then moveSelection (Some (row, col - 1)%nat) s
            else (s, noDirty)
        | ArrowRight =>
            if (col <? 8)%nat then moveSelection (Some (row, col + 1)%nat) s
            else (s, noDirty)
        | KeyOther => (s, noDirty)
        end
    | None => (s, noDirty)
    end.

(** [provideHint]: always the function of the current render. *)
Definition provideHint (s : State) : State * Dirty :=
  let v := vars s in
  match selectedCell v with
  | Some (row, col) =>
      if (hintsRemaining v <=? 0) || gameCompleted v || isPaused v then (s, noDirty)
      else if negb (cell (workingBoard s) row col =? 0)
      then (toast ToastHasNumber s, noDirty)
      else (withVars (λ prev, setHintsRemaining (hintsRemaining prev - 1) prev)
              (toast (ToastHint (cell (solution v) row col)) s), noDirty)
  | None => (s, noDirty)
  end.

(** [togglePause]: always the function of the current render. *)
Definition togglePause (s : State) : State * Dirty :=
  let v := vars s in
  if negb (gameStarted v) || gameCompleted v then (s, noDirty)
  else (toast (ToastPause (isPaused v))
          (withVars (λ prev, setIsPaused (negb (isPaused prev)) prev) s), noDirty).

(** [generateSudoku]: always the function of the current render.  [None]
    when the oracle does not carry the generation to its end. *)
Definition generateSudoku (o : Oracle) (s : State) : option (State * Dirty) :=
  match generateSolvedBoard o with
  | Some (solvedBoard, o1) =>
      match createPuzzle solvedBoard (difficulty (vars s)) o1 with
      | Some (puzzleBoard, _) =>
          let '(newBoard, h') := allocRows (heap s) puzzleBoard in
          let reset v :=
            setInitialBoard (map (λ row, row) puzzleBoard)
              (setBoard newBoard
                (setSolution (map (λ row, row) solvedBoard)
                  (setLastSmartMove ""
                    (setIsPaused false
                      (setHintsRemaining 3
                        (setWrongAttempts 0
                          (setTimer 0
                            (setGameCompleted false
                              (setGameStarted true v))))))))) in
          Some (withHeap h' (withVars reset s),
                {| d_board := true; d_numberUsage := false;
                   d_selectedCell := false; d_solution := true |})
      | None => None
      end
  | None => None
  end.

(** ** Rendering after a handler

    [old] is the state before the handler, [s] the state with the updates
    of the handler applied, [d] the object-valued variables it replaced.
    The render hands out a new [handleNumberInput] if one of its
    dependencies changed; then the effects run: the [numberUsage] effect
    if [board] changed, and the [keydown] effect if one of its dependencies
    changed.  The [numberUsage] effect sets [numberUsage], which causes a
    second render, where [handleNumberInput] is new again and no effect
    runs. *)
Definition settle (old : State) (s : State) (d : Dirty) : State :=
  let vo := vars old in
  let v := vars s in
  let inputChanged :=
    d_board d || negb (eqb (gameCompleted vo) (gameCompleted v))
    || negb (eqb (isPaused vo) (isPaused v)) || d_numberUsage d
    || d_selectedCell d || d_solution d
    || negb (wrongAttempts vo =? wrongAttempts v) in
  let input1 := if inputChanged then capture v else inputClosure old in
  let keyChanged :=
    d_selectedCell d || negb (eqb (gameStarted vo) (gameStarted v))
    || negb (eqb (gameCompleted vo) (gameCompleted v))
    || negb (eqb (isPaused vo) (isPaused v)) in
  let key1 :=
    if keyChanged
    then {| k_gameStarted := gameStarted v; k_gameCompleted := gameCompleted v;
            k_isPaused := isPaused v; k_selectedCell := selectedCell v;
            k_input := input1 |}
    else keyListener old in
  if d_board d && gameStarted v then
    let s2 := withVars (setNumberUsage
                (usageEffect (numberUsage v) (workingBoard s))) s in
    withClosures (capture (vars s2)) key1 s2
  else withClosures input1 key1 s.

(** ** Events *)

Inductive Event :=
| NewGame (o : Oracle)          (* the New Game button, or a multiplayer opponent *)
| CellClick (row col : nat)     (* a click on a cell of the grid *)
| PadInput (num : Z)            (* a button of the number pad; 0 is the erase button *)
| KeyDown (key : Key)           (* a key press *)
| HintClick                     (* the Get Hint button *)
| PauseClick                    (* the Pause / Resume button *)
| Tick                          (* one second of the timer interval *)
| DifficultyClick (level : string).

(** One event, with the renders and effects it causes.  [None] when the
    page cannot receive the event in state [s]. *)
Definition step (e : Event) (s : State) : option State :=
  let v := vars s in
  match e with
  | NewGame o =>
      match generateSudoku o s with
      | Some (s', d) => Some (settle s s' d)
      | None => None
      end
  | CellClick row col =>
      if (row <? 9)%nat && (col <? 9)%nat
      then let '(s', d) := handleCellClick row col s in Some (settle s s' d)
      else None
  | PadInput num =>
      (* a digit button is disabled when [numberUsage[num] <= 0] *)
      if (num =? 0) || ((1 <=? num) && (num <=? 9)
                        && negb (usageExhausted (numberUsage v) num))
      then let '(s', d) := handleNumberInput (inputClosure s) num s in
           Some (settle s s' d)
      else None
  | KeyDown key =>
      let ok := match key with KeyDigit n => (1 <=? n) && (n <=? 9) | _ => true end in
      if ok
      then let '(s', d) := handleKeyDown (keyListener s) key s in Some (settle s s' d)
      else None
  | HintClick =>
      (* rendered once a game has started; disabled without hints left *)
      if gameStarted v && negb (hintsRemaining v <=? 0)
      then let '(s', d) := provideHint s in Some (settle s s' d)
      else None
  | PauseClick =>
      if gameStarted v
      then let '(s', d) := togglePause s in Some (settle s s' d)
      else None
  | Tick =>
      (* the interval exists while a game is running *)
      if gameStarted v && negb (gameCompleted v) && negb (isPaused v)
      then Some (settle s (withVars (λ prev, setTimer (timer prev + 1) prev) s) noDirty)
      else None
  | DifficultyClick level =>
      if bool_decide (level ∈ ["easy"; "medium"; "hard"])
      then Some (settle s (withVars (setDifficulty level) s) noDirty)
      else None
  end.

(** A sequence of events. *)
Fixpoint run (events : list Event) (s : State) : option State :=
  match events with
  | [] => Some s
  | e :: rest =>
      match step e s with
      | Some s' => run rest s'
      | None => None
      end
  end.

(** ** The page once the profile [name] is created

    The state variables have their initial values, [numberUsage] is 9 for
    every digit (set by the effect of the first render), and no game has
    been started.  The [keydown] listener is the one of the first render
    and [handleNumberInput] the one of the second. *)
Definition allNine : gmap Z Z := fold_left (λ m i, <[i := 9]> m) digits ∅.

Definition initialVars (name : string) (usage : gmap Z Z) (b : BoardRef) : Vars :=
  {| board := b; solution := emptyBoard; initialBoard := emptyBoard;
     selectedCell := None; difficulty := "medium"; playerName := name;
     gameStarted := false; timer := 0; gameCompleted := false;
     bestTimes := ∅; isPaused := false; numberUsage := usage;
     wrongAttempts := 0; hintsRemaining := 3; lastSmartMove := "" |}.

Definition initialState (name : string) (stored : gmap (string * string) Z)
    : State :=
  let '(b, h) := allocRows {| h_rows := ∅; h_next := 0 |} emptyBoard in
  let first := capture (initialVars "" ∅ b) in
  {| vars := initialVars name allNine b;
     heap := h;
     inputClosure := capture (initialVars "" allNine b);
     keyListener := {| k_gameStarted := false; k_gameCompleted := false;
                       k_isPaused := false; k_selectedCell := None;
                       k_input := first |};
     db := stored;
     toasts := [] |}.

(** The states the page can be in. *)
Inductive reachable (name : string) (stored : gmap (string * string) Z)
    : State → Prop :=
| reachable_init : reachable name stored (initialState name stored)
| reachable_step s e s' :
    reachable name stored s → step e s = Some s' → reachable name stored s'.

(** The state after a sequence of events from the initial page; the
    initial state itself when the page cannot receive the sequence. *)
Definition stateAfter (events : list Event) (name : string)
    (stored : gmap (string * string) Z) : State :=
  match run events (initialState name stored) with
  | Some s => s
  | None => initialState name stored
  end.

(** * Concrete runs *)

(** The 24 draws of one run of [fillDiagonalBoxes] (eight per box), and the
    seeded board they give. *)
Definition seedOracle : Oracle :=
  [3; 1; 4; 1; 2; 2; 0; 0;  2; 6; 5; 3; 1; 2; 1; 0;  7; 0; 2; 2; 4; 1; 0; 1]%nat.

Definition seedBoard : SudokuBoard :=
  [[6; 9; 1; 0; 0; 0; 0; 0; 0]; [7; 3; 8; 0; 0; 0; 0; 0; 0];
   [5; 2; 4; 0; 0; 0; 0; 0; 0]; [0; 0; 0; 8; 1; 5; 0; 0; 0];
   [0; 0; 0; 9; 2; 4; 0; 0; 0]; [0; 0; 0; 6; 7; 3; 0; 0; 0];
   [0; 0; 0; 0; 0; 0; 6; 4; 9]; [0; 0; 0; 0; 0; 0; 2; 5; 7];
   [0; 0; 0; 0; 0; 0; 3; 1; 8]].

(** The grid [generateSolvedBoard] returns for [seedOracle]. *)
Definition solvedExample : SudokuBoard :=
  [[6; 9; 1; 2; 4; 8; 7; 3; 5]; [7; 3; 8; 1; 5; 6; 4; 9; 2];
   [5; 2; 4; 7; 3; 9; 1; 8; 6]; [2; 6; 3; 8; 1; 5; 9; 7; 4];
   [1; 5; 7; 9; 2; 4; 8; 6; 3]; [4; 8; 9; 6; 7; 3; 5; 2; 1];
   [3; 1; 2; 5; 8; 7; 6; 4; 9]; [8; 4; 6; 3; 9; 1; 2; 5; 7];
   [9; 7; 5; 4; 6; 2; 3; 1; 8]].

(** A 9x9 grid of digits in which every row, column and box repeats a
    digit. *)
Definition allOnes : SudokuBoard := replicate 9 (replicate 9 1).

Definition emptyHeap : Heap := {| h_rows := ∅; h_next := 0 |}.

(** The draws of one run of [createPuzzle] on [solvedExample] at difficulty
    "easy" (a row and a column per iteration, 44 iterations), and the
    puzzle it returns. *)
Definition carveOracle : Oracle :=
  [4; 2; 2; 4; 0; 7; 5; 2; 0; 0; 2; 8; 4; 6; 4; 5; 2; 7; 2; 1; 8; 3;
   5; 0; 7; 5; 1; 3; 2; 3; 3; 3; 2; 4; 1; 6; 7; 1; 3; 5; 6; 3; 8; 0;
   1; 7; 3; 0; 1; 8; 0; 3; 6; 6; 3; 2; 7; 8; 8; 4; 1; 4; 2; 5; 1; 5;
   8; 8; 5; 3; 1; 7; 6; 3; 8; 1; 0; 8; 2; 1; 0; 1; 8; 5; 4; 8; 0; 2]%nat.

Definition puzzleExample : SudokuBoard :=
  [[0; 0; 0; 0; 4; 8; 7; 0; 0]; [7; 3; 8; 0; 0; 0; 0; 0; 0];
   [5; 0; 4; 0; 0; 0; 1; 0; 0]; [0; 6; 0; 0; 1; 0; 9; 7; 4];
   [1; 5; 0; 9; 2; 0; 0; 6; 0]; [0; 8; 0; 0; 7; 3; 5; 2; 1];
   [3; 1; 2; 0; 8; 7; 0; 4; 9]; [8; 0; 6; 3; 9; 0; 2; 5; 0];
   [0; 0; 5; 0; 0; 0; 3; 1; 0]].

(** The draws of one run of [generateSudoku]. *)
Definition gameOracle : Oracle := seedOracle ++ carveOracle.

(** ** Sessions *)

(** The player picks "easy" and starts a game whose generation draws
    [gameOracle]: the solution is [solvedExample] and the puzzle is
    [puzzleExample]. *)
Definition startEasy : list Event :=
  [DifficultyClick "easy"; NewGame gameOracle].

(** Click on the empty cell (0, 3), move the selection right to (0, 4),
    which the puzzle gives as 4, and press Backspace. *)
Definition eraseGiven : list Event :=
  startEasy ++ [CellClick 0 3; KeyDown ArrowRight; KeyDown KeyBackspace].

(** Before any game: click on the cell (0, 0) and press 5 on the number
    pad. *)
Definition playBeforeStart : list Event := [CellClick 0 0; PadInput 5].

(** Select the empty cell (0, 0), whose solution is 6, and type the wrong
    digit 1 four times. *)
Definition fourWrongKeys : list Event :=
  startEasy ++ [CellClick 0 0; KeyDown (KeyDigit 1); KeyDown (KeyDigit 1);
                KeyDown (KeyDigit 1); KeyDown (KeyDigit 1)].

(** The same four wrong digits entered on the number pad. *)
Definition fourWrongPad : list Event :=
  startEasy ++ [CellClick 0 0; PadInput 1; PadInput 1; PadInput 1; PadInput 1].

(** Fill (6, 3) with its digit 5, which completes nothing; select (6, 6),
    the last empty cell of row 6, and type its digit 6 twice. *)
Definition sameRowTwice : list Event :=
  startEasy ++ [CellClick 6 3; PadInput 5; CellClick 6 6;
                KeyDown (KeyDigit 6); KeyDown (KeyDigit 6)].

(** The empty cells of a board, row by row. *)
Definition emptyCells (b : SudokuBoard) : list (nat * nat) :=
  filter (λ p : nat * nat, cell b p.1 p.2 = 0) rowMajor.

(** Click on each cell and press its digit of [sol] on the number pad. *)
Definition fillCells (sol : SudokuBoard) (cells : list (nat * nat)) : list Event :=
  flat_map (λ p : nat * nat, [CellClick p.1 p.2; PadInput (cell sol p.1 p.2)]) cells.

(** Three seconds pass; the player fills 39 of the 40 empty cells and
    selects the last one, (8, 8); four more seconds pass; the player
    presses its digit 8, which completes the board at 7 seconds. *)
Definition slowFinish : list Event :=
  startEasy ++ replicate 3 Tick
  ++ fillCells solvedExample (take 39 (emptyCells puzzleExample))
  ++ [CellClick 8 8] ++ replicate 4 Tick ++ [PadInput 8].

(** The store with a best time of 5 seconds for "ann" at "easy". *)
Definition storedFive : gmap (string * string) Z := {[ ("ann", "easy") := 5 ]}.

(** [puzzleExample] as a board object of the heap. *)
Definition puzzleRef : BoardRef := (allocRows emptyHeap puzzleExample).1.
Definition puzzleHeap : Heap := (allocRows emptyHeap puzzleExample).2.

(** ** A carving that cannot go on

    Fifty-six pairs of draws that carve [solvedExample], each emptying a
    cell, down to the puzzle [stuckPuzzle] with 25 digits. *)
Definition stuckOracle : Oracle :=
  [0; 0; 0; 1; 0; 2; 0; 3; 0; 4; 0; 5; 0; 6; 0; 7; 0; 8; 1; 3; 1; 5;
   1; 6; 1; 7; 1; 8; 2; 6; 2; 7; 2; 8; 3; 0; 3; 1; 3; 2; 3; 4; 3; 5;
   3; 7; 3; 8; 4; 3; 4; 4; 4; 8; 5; 1; 5; 2; 5; 5; 5; 8; 6; 2; 6; 3;
   6; 5; 6; 8; 7; 0; 7; 1; 7; 2; 7; 4; 7; 5; 7; 8; 8; 4; 8; 5; 8; 7;
   8; 8; 4; 1; 6; 7; 8; 1; 6; 6; 4; 5; 4; 6; 7; 7; 7; 3; 2; 1; 5; 7;
   8; 0]%nat.

Definition stuckPuzzle : SudokuBoard :=
  [[0; 0; 0; 0; 0; 0; 0; 0; 0]; [7; 3; 8; 0; 5; 0; 0; 0; 0];
   [5; 0; 4; 7; 3; 9; 0; 0; 0]; [0; 0; 0; 8; 0; 0; 9; 0; 0];
   [1; 0; 7; 0; 0; 0; 0; 6; 0]; [4; 0; 0; 6; 7; 0; 5; 0; 0];
   [3; 1; 0; 0; 8; 0; 0; 0; 0]; [0; 0; 0; 0; 0; 0; 2; 0; 0];
   [0; 0; 5; 4; 0; 0; 3; 0; 0]].

(** * Notions used in the proofs *)

Definition inGrid (p : nat * nat) : Prop := (p.1 < 9)%nat ∧ (p.2 < 9)%nat.

(** The boards reached from the empty cell [(row, col)] with the digits of
    [nums], in order. *)
Definition cands (rest : list (nat * nat)) (board : SudokuBoard)
    (row col : nat) (nums : list Z) : list SudokuBoard :=
  flat_map (λ num,
    if isValid board row col num
    then sols rest (setCell board row col num) else []) nums.

Definition verdict (board : SudokuBoard) (l : list SudokuBoard)
    : bool * SudokuBoard :=
  match l with
  | [] => (false, board)
  | s :: _ => (true, s)
  end.

(** [s] is [board] with the cells of [E] filled with digits, none of which
    repeats in its row, column or box. *)
Definition Fills (E : nat → nat → Prop) (board s : SudokuBoard) : Prop :=
  wfBoard s ∧
  (∀ r c, (r < 9)%nat → (c < 9)%nat → ¬ E r c → cell s r c = cell board r c) ∧
  (∀ r c, (r < 9)%nat → (c < 9)%nat → E r c →
     1 ≤ cell s r c ≤ 9 ∧
     ∀ r' c', (r' < 9)%nat → (c' < 9)%nat → (r, c) ≠ (r', c') →
       sameUnit r c r' c' → cell s r' c' ≠ cell s r c).

Definition emptyIn (cells : list (nat * nat)) (board : SudokuBoard)
    (r c : nat) : Prop :=
  (r, c) ∈ cells ∧ cell board r c = 0.

#[local] Instance emptyIn_dec cells board r c : Decision (emptyIn cells board r c).
Proof. unfold emptyIn. apply _. Defined.

(** What holds of the puzzle at the head of every iteration. *)
Definition carveInv (solved : SudokuBoard) (toRemove : Z) (st : CarveState) : Prop :=
  carvedFrom solved (cs_puzzle st) ∧
  (∀ s, completion (cs_puzzle st) s ↔ s = solved) ∧
  countZeros (cs_puzzle st) = toRemove - cs_cellsToRemove st ∧
  0 ≤ cs_cellsToRemove st.

(** The digit budget. *)
Definition usageInv (s : State) : Prop :=
  ∀ d, 1 ≤ d ≤ 9 →
    numberUsage (vars s) !!! d + countDigit (workingBoard s) d = 9.

(** What the callbacks captured of the dependencies they do have. *)
Definition closureInv (s : State) : Prop :=
  c_board (inputClosure s) = board (vars s) ∧
  c_solution (inputClosure s) = solution (vars s) ∧
  k_gameStarted (keyListener s) = gameStarted (vars s).

(** Before the first game the boards are empty. *)
Definition idleInv (s : State) : Prop :=
  gameStarted (vars s) = false →
  NoDup (board (vars s)) ∧ workingBoard s = emptyBoard ∧
  solution (vars s) = emptyBoard.

Definition sessionInv (s : State) : Prop :=
  usageInv s ∧ closureInv s ∧ idleInv s.

(** A handler that leaves the board, the heap and the budget alone. *)
Definition quiet (s s' : State) (d : Dirty) : Prop :=
  d_board d = false ∧ d_solution d = false ∧
  heap s' = heap s ∧ board (vars s') = board (vars s) ∧
  numberUsage (vars s') = numberUsage (vars s) ∧
  solution (vars s') = solution (vars s) ∧
  gameStarted (vars s') = gameStarted (vars s).

(** The part of the state that only [handleNumberInput] and
    [generateSudoku] write. *)
Definition core (s : State)
    : Heap * BoardRef * gmap Z Z * SudokuBoard * bool * SudokuBoard :=
  (heap s, board (vars s), numberUsage (vars s), solution (vars s),
   gameStarted (vars s), initialBoard (vars s)).

(** The budget after the two functional updates of a committed input. *)
Definition usageAfter (usage : gmap Z Z) (previousValue num : Z) : gmap Z Z :=
  let u1 := if previousValue >? 0
            then <[previousValue := usage !!! previousValue + 1]> usage
            else usage in
  if num >? 0 then <[num := u1 !!! num - 1]> u1 else u1.

(** The loop of [createPuzzle] entered with the board [solved], the count
    of [difficulty] and the draws [o]. *)
Definition carveStart (solved : SudokuBoard) (difficulty : string) (o : Oracle)
    : CarveState :=
  {| cs_puzzle := map (λ row, row) solved;
     cs_cellsToRemove := cellsToRemoveOf difficulty;
     cs_oracle := o |}.

(** * Completing a diagonal seeding: the notions of the proof

    [generateSolvedBoard] fills the boxes on the diagonal and leaves the
    rest to the search.  That the search succeeds for every seeding is a
    statement about the six boxes off the diagonal: where each of the nine
    digits goes in each of them.

    The digits are numbered [0..8] by the cell they occupy in the first
    diagonal box.  A list of nine residues modulo 3 gives, for every digit,
    its row (or its column) inside a box. *)

Open Scope nat_scope.

(** Rows and columns of the digits in the first diagonal box. *)
Definition rows3 : list nat := [0; 0; 0; 1; 1; 1; 2; 2; 2].
Definition cols3 : list nat := [0; 1; 2; 0; 1; 2; 0; 1; 2].

(** Each of the three rows (columns) holds three digits. *)
Definition balanced (u : list nat) : Prop := u ≡ₚ rows3.

(** In a band, a digit that sits in row [a] of the diagonal box sits in
    rows [a + 1] and [a - 1] of the two other boxes, in one order or the
    other: a sign per digit, [1] for +1 and [2] for -1. *)
Definition isSign (s : list nat) : Prop :=
  length s = 9 ∧ Forall (λ e, e = 1 ∨ e = 2) s.

(** Nine residues. *)
Definition isMap (u : list nat) : Prop :=
  length u = 9 ∧ Forall (λ v, v < 3) u.

Definition add3 (a b : nat) : nat := (a + b) mod 3.
Definition sub3 (a b : nat) : nat := (a + 3 - b) mod 3.
Definition plus3 (u s : list nat) : list nat := zip_with add3 u s.
Definition minus3 (u s : list nat) : list nat := zip_with sub3 u s.

(** Rows [P] and columns [K] put the nine digits on nine different cells
    of a box. *)
Definition ok (P K : list nat) : Prop := NoDup (zip P K).

(** The six boxes off the diagonal, in the order (1,2), (3,2), (3,1),
    (2,1), (2,3), (1,3): [u1], [u4] are the columns and rows of the digits
    in the second diagonal box, [u2], [u5] their rows and columns in the
    third. *)
Definition closedWalk (u1 u2 u4 u5 s0 s1 s2 s3 s4 s5 : list nat) : Prop :=
  ok (plus3 rows3 s0) (minus3 u1 s1) ∧
  ok (plus3 u1 s1) (minus3 u2 s2) ∧
  ok (plus3 u2 s2) (minus3 cols3 s3) ∧
  ok (plus3 cols3 s3) (minus3 u4 s4) ∧
  ok (plus3 u4 s4) (minus3 u5 s5) ∧
  ok (plus3 u5 s5) (minus3 rows3 s0).

(** Half of the walk: from the rows [v] of the first box, through [x] and
    [y], to its columns [w]. *)
Definition fwd (v w x y a b : list nat) : Prop :=
  ∃ s1 s2, isSign s1 ∧ isSign s2 ∧
    ok (plus3 v a) (minus3 x s1) ∧
    ok (plus3 x s1) (minus3 y s2) ∧
    ok (plus3 y s2) (minus3 w b).

(** The other half, from the columns back to the rows. *)
Definition bwd (x y a b : list nat) : Prop :=
  ∃ s4 s5, isSign s4 ∧ isSign s5 ∧
    ok (plus3 cols3 b) (minus3 x s4) ∧
    ok (plus3 x s4) (minus3 y s5) ∧
    ok (plus3 y s5) (minus3 rows3 a).

(** The opposite signs. *)
Definition neg3 (s : list nat) : list nat := map (λ e, 3 - e) s.

(** ** Enumerations *)

Fixpoint signs (n : nat) : list (list nat) :=
  match n with
  | 0 => [[]]
  | S k => flat_map (λ s, [1 :: s; 2 :: s]) (signs k)
  end.

Fixpoint maps3 (n : nat) : list (list nat) :=
  match n with
  | 0 => [[]]
  | S k => flat_map (λ u, [0 :: u; 1 :: u; 2 :: u]) (maps3 k)
  end.

Definition count3 (v : nat) (u : list nat) : nat :=
  length (List.filter (Nat.eqb v) u).

Definition balancedb (u : list nat) : bool :=
  (count3 0 u =? 3) && (count3 1 u =? 3) && (count3 2 u =? 3).

Definition balancedMaps : list (list nat) := List.filter balancedb (maps3 9).

(** The sign vectors that keep [u] balanced. *)
Definition Der (u : list nat) : list (list nat) :=
  List.filter (λ s, balancedb (plus3 u s)) (signs 9).

(** More than half of the pairs of [Der rows3] and [Der cols3]. *)
Definition half : nat := 1569.

(** [dense x y]: more than half of the pairs of signs at the two ends are
    joined through [x] and [y]. *)
Definition dense (x y : list nat) : Prop :=
  ∃ L : list (list nat * list nat),
    NoDup L ∧ half ≤ length L ∧
    ∀ a b, (a, b) ∈ L → a ∈ Der rows3 ∧ b ∈ Der cols3 ∧ fwd rows3 cols3 x y a b.

(** ** Symmetries

    A permutation [h] of the digits and a renaming [f] of the three rows
    act on a list of rows and on a sign vector. *)
Definition comp (u h : list nat) : list nat := map (λ i, nth i u 0) h.
Definition relab (f u : list nat) : list nat := map (λ v, nth v f 0) u.
Definition isRot (f : list nat) : bool := nth 1 f 0 =? add3 (nth 0 f 0) 1.
Definition sgn (f : list nat) (e : nat) : nat := if isRot f then e else 3 - e.
Definition tr (f h u : list nat) : list nat := relab f (comp u h).
Definition ts (f h s : list nat) : list nat := map (sgn f) (comp s h).

Definition perms3 : list (list nat) :=
  [[0; 1; 2]; [1; 2; 0]; [2; 0; 1]; [0; 2; 1]; [2; 1; 0]; [1; 0; 2]].

(** The inverse of a list that is a permutation of [0 .. n-1]. *)
Fixpoint indexOf (v : nat) (f : list nat) : nat :=
  match f with
  | [] => 0
  | x :: f' => if x =? v then 0 else S (indexOf v f')
  end.
Definition inverse (f : list nat) : list nat :=
  map (λ v, indexOf v f) (seq 0 (length f)).

(** Digit [p] sits in cell [(p / 3, p mod 3)] of the first box: permuting
    the rows by [σ] and the columns by [τ] permutes the digits. *)
Definition gridPerm (σ τ : list nat) : list nat :=
  map (λ p, 3 * nth (p / 3) σ 0 + nth (p mod 3) τ 0) (seq 0 9).

Record Symmetry := {
  sym_h : list nat;       (* the permutation of the digits *)
  sym_hinv : list nat;
  sym_fv : list nat;      (* the renaming that restores [rows3] *)
  sym_fw : list nat       (* the renaming that restores [cols3] *)
}.

Definition symmetries : list Symmetry :=
  flat_map (λ σ, map (λ τ,
      let h := gridPerm σ τ in
      {| sym_h := h; sym_hinv := inverse h;
         sym_fv := inverse σ; sym_fw := inverse τ |}) perms3) perms3.

(** Rows renamed in order of first occurrence. *)
Definition isCanon (u : list nat) : bool :=
  match u with
  | 0 :: _ =>
      match List.filter (λ v, negb (v =? 0)) u with
      | 1 :: _ => true
      | _ => false
      end
  | _ => false
  end.

Definition canonMaps : list (list nat) := List.filter isCanon balancedMaps.

(** One list of rows for each orbit of the symmetries. *)
Definition reps : list (list nat) :=
  [ [0; 0; 0; 1; 1; 1; 2; 2; 2]; [0; 0; 0; 1; 1; 2; 1; 2; 2];
    [0; 0; 0; 1; 1; 2; 2; 2; 1]; [0; 0; 1; 0; 1; 2; 1; 2; 2];
    [0; 0; 1; 0; 1; 2; 2; 1; 2]; [0; 0; 1; 0; 1; 2; 2; 2; 1];
    [0; 0; 1; 0; 2; 1; 2; 1; 2]; [0; 0; 1; 0; 2; 1; 2; 2; 1];
    [0; 0; 1; 0; 2; 2; 1; 1; 2]; [0; 0; 1; 0; 2; 2; 1; 2; 1];
    [0; 0; 1; 1; 1; 2; 2; 2; 0]; [0; 0; 1; 1; 2; 0; 2; 1; 2];
    [0; 1; 2; 0; 1; 2; 0; 1; 2]; [0; 1; 2; 0; 1; 2; 0; 2; 1];
    [0; 1; 2; 0; 1; 2; 1; 2; 0]; [0; 1; 2; 0; 2; 1; 1; 0; 2];
    [0; 1; 2; 1; 2; 0; 2; 0; 1] ].

(** ** Counting the joined pairs

    The pairs of [fwd] are found by a three-step reachability over sets of
    sign vectors. *)

Fixpoint eqList (l m : list nat) : bool :=
  match l, m with
  | [], [] => true
  | a :: l', b :: m' => (a =? b) && eqList l' m'
  | _, _ => false
  end.

Definition memList (l : list nat) (ls : list (list nat)) : bool :=
  existsb (eqList l) ls.

Fixpoint nodupb (l : list nat) : bool :=
  match l with
  | [] => true
  | a :: l' => negb (existsb (Nat.eqb a) l') && nodupb l'
  end.

Fixpoint nodupLists (ls : list (list nat)) : bool :=
  match ls with
  | [] => true
  | l :: ls' => negb (memList l ls') && nodupLists ls'
  end.

(** The digits that [P] puts in row [v], and the three rows of [P]. *)
Definition classOf (P : list nat) (v : nat) : list nat :=
  List.filter (λ p, nth p P 0 =? v) (seq 0 9).
Definition classes (P : list nat) : list (list nat) := map (classOf P) [0; 1; 2].

(** [K] separates the digits of every row of [cls]. *)
Definition okc (cls : list (list nat)) (K : list nat) : bool :=
  forallb (λ c, nodupb (map (λ p, nth p K 0) c)) cls.

(** Sets of sign vectors are machine integers: bit [i] stands for the
    [i]-th sign vector of [Der u], which has 56 of them when [u] is
    balanced. *)
Abbreviation mask := PrimInt63.int.

Definition noBits : mask := Eval vm_compute in Uint63.of_Z 0.
Definition firstBit : mask := Eval vm_compute in Uint63.of_Z 1.
Definition bitIndices : list mask :=
  Eval vm_compute in map (λ i, Uint63.of_Z (Z.of_nat i)) (seq 0 56).

(** A list with the bit of each element. *)
Definition indexed {A} (l : list A) : list (mask * A) := zip bitIndices l.

(** The set of the elements that pass [test]. *)
Definition maskOf {A} (test : A → bool) (l : list (mask * A)) : mask :=
  fold_left (λ acc e,
      if test e.2 then PrimInt63.lor acc (PrimInt63.lsl firstBit e.1) else acc)
    l noBits.

(** The union of the sets [val a] over the elements [a] of the set [m]. *)
Definition unionOf {A} (m : mask) (val : A → mask) (l : list (mask * A)) : mask :=
  fold_left (λ acc e,
      if Uint63.bit m e.1 then PrimInt63.lor acc (val e.2) else acc)
    l noBits.

(** The elements of the set [m]. *)
Definition members {A} (m : mask) (l : list (mask * A)) : list A :=
  map snd (List.filter (λ e, Uint63.bit m e.1) l).

Definition distinct3 (a b c : nat) : bool :=
  negb (a =? b) && negb (a =? c) && negb (b =? c).

(** For three digits [p < q < r]: the set of the sign vectors [s] of [ds]
    for which [u - s] puts the three digits in different columns. *)
Definition tableOf (u : list nat) (ds : list (mask * list nat))
    : list (list (list mask)) :=
  let ks := map (λ e, (e.1, minus3 u e.2)) ds in
  map (λ p, map (λ q, map (λ r,
      if (p <? q) && (q <? r)
      then maskOf (λ K, distinct3 (nth p K 0) (nth q K 0) (nth r K 0)) ks
      else noBits) (seq 0 9)) (seq 0 9)) (seq 0 9).

Definition lookup3 (T : list (list (list mask))) (c : list nat) : mask :=
  match c with
  | [p; q; r] => nth r (nth q (nth p T []) []) noBits
  | _ => noBits
  end.

(** The set of the sign vectors [s] with [okc cls (u - s)], from the table
    of [u], for three rows [cls] of three digits. *)
Definition rowMask (T : list (list (list mask))) (cls : list (list nat)) : mask :=
  match cls with
  | [c0; c1; c2] =>
      PrimInt63.land (lookup3 T c0) (PrimInt63.land (lookup3 T c1) (lookup3 T c2))
  | _ => noBits
  end.

(** The end [w] of the walk: its sign vectors and its table. *)
Record EndW := {
  ew_signs : list (mask * list nat);
  ew_table : list (list (list mask))
}.

Definition endW (w : list nat) : EndW :=
  let ds := indexed (Der w) in
  {| ew_signs := ds; ew_table := tableOf w ds |}.

(** For [y]: its table, and for each sign vector [s2] of [y] the set of the
    [b] of [Der w] with [ok (y + s2) (w - b)]. *)
Record PreY := {
  py_table : list (list (list mask));
  py_signs : list (mask * mask)
}.

Definition preY (ew : EndW) (y : list nat) : PreY :=
  let ds := indexed (Der y) in
  {| py_table := tableOf y ds;
     py_signs :=
       map (λ e, (e.1, rowMask (ew_table ew) (classes (plus3 y e.2)))) ds |}.

(** For [x]: for each sign vector [s1] of [x] the rows of [x + s1], and for
    each [a] of [Der v] the set of the [s1] with [ok (v + a) (x - s1)]. *)
Record PreX := {
  px_rows : list (mask * list (list nat));
  px_starts : list (list nat * mask)
}.

Definition preX (v x : list nat) : PreX :=
  let ds := indexed (Der x) in
  let T := tableOf x ds in
  {| px_rows := map (λ e, (e.1, classes (plus3 x e.2))) ds;
     px_starts := map (λ a, (a, rowMask T (classes (plus3 v a)))) (Der v) |}.

(** The pairs [(a, b)] joined in three steps: from [a] to the [s1], from
    each [s1] to the [s2], from each [s2] to the [b]. *)
Definition fwdList (ew : EndW) (ex : PreX) (ey : PreY)
    : list (list nat * list nat) :=
  let mids :=
    map (λ e, (e.1, unionOf (rowMask (py_table ey) e.2) (λ m, m) (py_signs ey)))
      (px_rows ex) in
  flat_map (λ e,
      map (pair e.1) (members (unionOf e.2 (λ m, m) mids) (ew_signs ew)))
    (px_starts ex).

(** ** Checks on the symmetries *)

(** Every balanced list of rows is a representative moved by a symmetry. *)
Definition toRep (x : list nat) : bool :=
  existsb (λ g, existsb (λ f,
      let r := tr (inverse f) (sym_hinv g) x in
      memList r reps && eqList x (tr f (sym_h g) r)) perms3) symmetries.

(** Every balanced list of rows is, for every symmetry, a canonical one
    moved by it. *)
Definition isMap9 (u : list nat) : bool :=
  (length u =? 9) && forallb (λ v, v <? 3) u.

Definition toCanon (g : Symmetry) (y : list nat) : bool :=
  existsb (λ f,
      let c := tr (inverse f) (sym_hinv g) y in
      isCanon c && balancedb c && isMap9 c && eqList y (tr f (sym_h g) c))
    perms3.

Definition isPerm9 (h : list nat) : bool :=
  (length h =? 9) && forallb (λ i, existsb (Nat.eqb i) h) (seq 0 9).

(** [T] sends the sign vectors of [u] to sign vectors of [u'], one to one. *)
Definition movesDer (T : list nat → list nat) (u u' : list nat) : bool :=
  let d := Der u in
  let d' := Der u' in
  forallb (λ a, memList (T a) d') d && nodupLists (map T d).

(** A symmetry keeps [rows3], [cols3] and their sign vectors. *)
Definition symCheck (g : Symmetry) : bool :=
  isPerm9 (sym_h g) &&
  memList (sym_fv g) perms3 && memList (sym_fw g) perms3 &&
  eqList (tr (sym_fv g) (sym_h g) rows3) rows3 &&
  eqList (tr (sym_fw g) (sym_h g) cols3) cols3 &&
  movesDer (ts (sym_fv g) (sym_h g)) rows3 rows3 &&
  movesDer (ts (sym_fw g) (sym_h g)) cols3 cols3.

Open Scope Z_scope.

(** * Notions for the properties beyond the specification *)

(** The ranges of the draws of [shuffleArray] entered with the loop
    variable [i]: [i + 1], then [i], down to [2]. *)
Fixpoint boundsFrom (i : nat) : list nat :=
  match i with
  | O => []
  | S i' => (i + 1)%nat :: boundsFrom i'
  end.

(** The oracle starts with one draw below each bound. *)
Fixpoint drawsOk (bounds : list nat) (o : Oracle) : bool :=
  match bounds, o with
  | [], _ => true
  | b :: bs, j :: o' => (j <? b)%nat && drawsOk bs o'
  | _ :: _, [] => false
  end.

(** The ranges of the 24 draws of [fillDiagonalBoxes]. *)
Definition seedBounds : list nat :=
  boundsFrom 8 ++ boundsFrom 8 ++ boundsFrom 8.

(** The cells of the 3x3 box whose top left cell is [(row, col)], row by
    row. *)
Definition boxAt (board : SudokuBoard) (row col : nat) : list Z :=
  map (λ index, cell board (row + index / 3) (col + index mod 3)) (seq 0 9).

(** [(r, c)] lies in the 3x3 box whose top left cell is [(row, col)]. *)
Definition inBox (row col r c : nat) : Prop :=
  (row ≤ r < row + 3)%nat ∧ (col ≤ c < col + 3)%nat.

(** The board after [fillDiagonalBoxes] has written [n1], [n2] and [n3]. *)
Abbreviation seeded n1 n2 n3 :=
  (writeBox (writeBox (writeBox emptyBoard 0 0 n1) 3 3 n2) 6 6 n3).

(** The digits written to the [k]-th diagonal box. *)
Definition boxNums (n1 n2 n3 : list Z) (k : nat) : list Z :=
  if bool_decide (k = 0)%nat then n1
  else if bool_decide (k = 1)%nat then n2 else n3.

(** ** Freshness of the memoized callbacks *)

(** The memoized [handleNumberInput] reads, for each of its seven
    dependencies, the value of the current render. *)
Definition freshInput (s : State) : Prop :=
  c_board (inputClosure s) = board (vars s) ∧
  c_gameCompleted (inputClosure s) = gameCompleted (vars s) ∧
  c_isPaused (inputClosure s) = isPaused (vars s) ∧
  c_numberUsage (inputClosure s) = numberUsage (vars s) ∧
  c_selectedCell (inputClosure s) = selectedCell (vars s) ∧
  c_solution (inputClosure s) = solution (vars s) ∧
  c_wrongAttempts (inputClosure s) = wrongAttempts (vars s).

(** The registered [keydown] listener reads, for each of its four
    dependencies, the value of the current render. *)
Definition freshKeys (s : State) : Prop :=
  k_gameStarted (keyListener s) = gameStarted (vars s) ∧
  k_gameCompleted (keyListener s) = gameCompleted (vars s) ∧
  k_isPaused (keyListener s) = isPaused (vars s) ∧
  k_selectedCell (keyListener s) = selectedCell (vars s).

(** The flags of a handler cover the object-valued variables it set. *)
Definition honest (s s' : State) (d : Dirty) : Prop :=
  (d_board d = false → board (vars s') = board (vars s)) ∧
  (d_numberUsage d = false → numberUsage (vars s') = numberUsage (vars s)) ∧
  (d_selectedCell d = false → selectedCell (vars s') = selectedCell (vars s)) ∧
  (d_solution d = false → solution (vars s') = solution (vars s)).

(** A count of wrong attempts that a running game can hold. *)
Definition attemptsOk (wrong : Z) (completed : bool) : Prop :=
  0 ≤ wrong ≤ 3 ∧ (completed = false → wrong < 3).

Definition selectionOk (sel : option (nat * nat)) : Prop :=
  match sel with
  | Some (row, col) => (row < 9)%nat ∧ (col < 9)%nat
  | None => True
  end.

(** What every render keeps of the counters and of the selection, for the
    state and for the two callbacks kept from earlier renders. *)
Definition playInv (s : State) : Prop :=
  freshInput s ∧ freshKeys s ∧
  attemptsOk (wrongAttempts (vars s)) (gameCompleted (vars s)) ∧
  attemptsOk (c_wrongAttempts (k_input (keyListener s)))
             (c_gameCompleted (k_input (keyListener s))) ∧
  0 ≤ hintsRemaining (vars s) ≤ 3 ∧
  0 ≤ timer (vars s) ∧
  selectionOk (selectedCell (vars s)).

(** The board object of the state and those the two callbacks captured
    have nine different row arrays. *)
Definition boardsInv (s : State) : Prop :=
  NoDup (board (vars s)) ∧ NoDup (c_board (inputClosure s)) ∧
  NoDup (c_board (k_input (keyListener s))).

(** ** More concrete runs *)

(** The eight draws of the first [fillBox] of the run [seedOracle]. *)
Definition boxOracle : Oracle := take 8 seedOracle.

(** A game at "easy" with the empty cell (0, 0) selected; its digit in the
    solution is 6. *)
Definition firstCellSelected : list Event := startEasy ++ [CellClick 0 0].

(** Three wrong digits on the number pad: the game is lost. *)
Definition threeWrongPad : list Event :=
  firstCellSelected ++ [PadInput 1; PadInput 1; PadInput 1].

(** ** The clock

    The times of the page are integers from 0 on, held in JS numbers.  Up
    to [Number.MAX_SAFE_INTEGER] a number holds every integer, and the
    quotient rounded down, the remainder and the decimal text computed on
    numbers are those of the integers; the clock is modelled on that
    range. *)
Definition maxSafeInteger : Z := 2 ^ 53 - 1.

(** [`${n}`] for an integer [n] up to [maxSafeInteger] in size: its decimal
    digits, after a sign when it is negative. *)
Definition showZ (n : Z) : string :=
  DecimalString.NilEmpty.string_of_int (Z.to_int n).

(** [formatTime(seconds)], for an integer [seconds] up to [maxSafeInteger]
    in size: [Math.floor(seconds / 60)] is the quotient rounded down, [%]
    the remainder with the sign of [seconds]. *)
Definition formatTime (seconds : Z) : string :=
  let mins := seconds / 60 in
  let secs := Z.rem seconds 60 in
  showZ mins +:+ ":" +:+ (if secs <? 10 then "0" else "") +:+ showZ secs.

(** The character of a decimal digit. *)
Definition digitChar (d : Z) : Ascii.ascii :=
  Ascii.ascii_of_nat (48 + Z.to_nat d).

Definition isDigit (c : Ascii.ascii) : bool :=
  let n := Ascii.nat_of_ascii c in ((48 <=? n) && (n <=? 57))%nat.

Fixpoint allDigits (s : string) : bool :=
  match s with
  | EmptyString => true
  | String c s' => isDigit c && allDigits s'
  end.

(** The seconds as [formatTime] writes them. *)
Definition secsText (secs : Z) : string :=
  (if secs <? 10 then "0" else "") +:+ showZ secs.

(** ** A grid from the rows and columns of the digits

    The nine boxes are numbered row by row, so that box [k] is in band
    [k / 3] and stack [k mod 3]. *)

Open Scope nat_scope.

(** The index of the first occurrence of [d] in [nums]. *)
Fixpoint indexZ (d : Z) (nums : list Z) : nat :=
  match nums with
  | [] => 0
  | x :: rest => if (x =? d)%Z then 0 else S (indexZ d rest)
  end.

(** For each digit, numbered by its cell in [n1], its row and its column
    in the box filled with [nums]. *)
Definition rowsIn (n1 nums : list Z) : list nat :=
  map (λ d, indexZ d nums / 3) n1.

Definition colsIn (n1 nums : list Z) : list nat :=
  map (λ d, indexZ d nums mod 3) n1.

(** The rows and the columns of the digits in the nine boxes, for the signs
    of a closed walk. *)
Definition walkRows (u2 u4 s0 s2 s4 : list nat) (k : nat) : list nat :=
  match k with
  | 0 => rows3 | 1 => plus3 rows3 s0 | 2 => minus3 rows3 s0
  | 3 => minus3 u4 s4 | 4 => u4 | 5 => plus3 u4 s4
  | 6 => plus3 u2 s2 | 7 => minus3 u2 s2 | _ => u2
  end.

Definition walkCols (u1 u5 s1 s3 s5 : list nat) (k : nat) : list nat :=
  match k with
  | 0 => cols3 | 1 => minus3 u1 s1 | 2 => plus3 u5 s5
  | 3 => plus3 cols3 s3 | 4 => u1 | 5 => minus3 u5 s5
  | 6 => minus3 cols3 s3 | 7 => plus3 u1 s1 | _ => u5
  end.

(** The digit that rows [P] and columns [K] put on the cell [(i, j)] of a
    box: the first one, if any. *)
Fixpoint digitAt (P K : list nat) (i j : nat) : nat :=
  match P, K with
  | a :: P', b :: K' =>
      if (a =? i) && (b =? j) then 0 else S (digitAt P' K' i j)
  | _, _ => 0
  end.

(** The grid in which box [k] holds the digits of [n1] on the cells given
    by the rows [R k] and the columns [C k]. *)
Definition layoutBoard (R C : nat → list nat) (n1 : list Z) : SudokuBoard :=
  map (λ r, map (λ c,
      nth (digitAt (R (3 * (r / 3) + c / 3)) (C (3 * (r / 3) + c / 3))
             (r mod 3) (c mod 3)) n1 0%Z) (seq 0 9)) (seq 0 9).

(** Rows and columns that make a Sudoku grid: in every box the nine digits
    sit on different cells; the three boxes of a band hold a digit in
    three different rows, and the three boxes of a stack in three
    different columns. *)
Definition isLayout (R C : nat → list nat) : Prop :=
  (∀ k, k < 9 → isMap (R k) ∧ isMap (C k) ∧ ok (R k) (C k)) ∧
  (∀ k k' p, k < 9 → k' < 9 → p < 9 → k ≠ k' → k / 3 = k' / 3 →
     nth p (R k) 0 ≠ nth p (R k') 0) ∧
  (∀ k k' p, k < 9 → k' < 9 → p < 9 → k ≠ k' → k mod 3 = k' mod 3 →
     nth p (C k) 0 ≠ nth p (C k') 0).

Open Scope Z_scope.
(** * Properties of the engine *)

(** ** Reading and writing cells *)

Lemma nth_insert_eq {A} (l : list A) (i : nat) (x d : A) :
  (i < length l)%nat → nth i (<[i := x]> l) d = x.
Proof.
  intros Hi. rewrite nth_lookup, list_lookup_insert_eq by done. done.
Qed.

Lemma nth_insert_ne {A} (l : list A) (i j : nat) (x d : A) :
  i ≠ j → nth j (<[i := x]> l) d = nth j l d.
Proof.
  intros Hij. by rewrite !nth_lookup, list_lookup_insert_ne.
Qed.

Lemma wfBoard_row (board : SudokuBoard) (row : nat) :
  wfBoard board → (row < 9)%nat → length (nth row board []) = 9%nat.
Proof.
  intros [Hlen Hrows] Hrow.
  apply (proj1 (Forall_nth (λ r, length r = 9%nat) [] board) Hrows row). lia.
Qed.

Lemma wfBoardb_spec (board : SudokuBoard) :
  wfBoardb board = true ↔ wfBoard board.
Proof.
  unfold wfBoardb, wfBoard.
  rewrite andb_true_iff, Nat.eqb_eq, forallb_forall, List.Forall_forall.
  split; intros [H1 H2]; split; try done; intros x Hx.
  - apply Nat.eqb_eq; auto.
  - apply Nat.eqb_eq; auto.
Qed.

Lemma cell_setCell_eq (board : SudokuBoard) (row col : nat) (v : Z) :
  wfBoard board → (row < 9)%nat → (col < 9)%nat →
  cell (setCell board row col v) row col = v.
Proof.
  intros Hwf Hrow Hcol. unfold cell, setCell.
  rewrite nth_insert_eq by (destruct Hwf; lia).
  apply nth_insert_eq. rewrite wfBoard_row; done.
Qed.

Lemma cell_setCell_ne (board : SudokuBoard) (row col row' col' : nat) (v : Z) :
  (row, col) ≠ (row', col') →
  cell (setCell board row col v) row' col' = cell board row' col'.
Proof.
  intros Hne. unfold cell, setCell.
  destruct (decide (row = row')) as [<-|Hr].
  - destruct (decide (row < length board)%nat) as [Hlt|Hge].
    + rewrite nth_insert_eq by done. apply nth_insert_ne. congruence.
    + rewrite list_insert_ge by lia. done.
  - by rewrite nth_insert_ne.
Qed.

Lemma wfBoard_setCell (board : SudokuBoard) (row col : nat) (v : Z) :
  wfBoard board → wfBoard (setCell board row col v).
Proof.
  intros [Hlen Hrows]. unfold setCell.
  destruct (decide (row < length board)%nat) as [Hlt|Hge].
  - split; [by rewrite length_insert|].
    apply Forall_insert; [done|].
    rewrite length_insert.
    by apply (proj1 (Forall_nth (λ r, length r = 9%nat) [] board) Hrows row).
  - rewrite list_insert_ge by lia. done.
Qed.

Ltac Zify.zify_post_hook ::= Z.to_euclidean_division_equations.

Lemma setCell_same (board : SudokuBoard) (row col : nat) (v w : Z) :
  setCell (setCell board row col v) row col w = setCell board row col w.
Proof.
  unfold setCell.
  destruct (decide (row < length board)%nat) as [Hlt|Hge].
  - rewrite nth_insert_eq by done.
    rewrite list_insert_insert_eq.
    f_equal.
    destruct (decide (col < length (nth row board []))%nat) as [Hc|Hc].
    + by rewrite list_insert_insert_eq.
    + by rewrite !list_insert_ge by (rewrite ?length_insert; lia).
  - by rewrite !(list_insert_ge board) by lia.
Qed.

Lemma list_insert_nth {A} (l : list A) (i : nat) (d : A) :
  <[i := nth i l d]> l = l.
Proof.
  destruct (decide (i < length l)%nat) as [Hlt|Hge].
  - apply list_insert_id. rewrite nth_lookup.
    destruct (lookup_lt_is_Some_2 l i Hlt) as [x ->]. done.
  - by rewrite list_insert_ge by lia.
Qed.

Lemma setCell_cell (board : SudokuBoard) (row col : nat) :
  setCell board row col (cell board row col) = board.
Proof.
  unfold setCell, cell. rewrite list_insert_nth. apply list_insert_nth.
Qed.

Lemma negb_Zeqb (x y : Z) : negb (x =? y) = true ↔ x ≠ y.
Proof. rewrite negb_true_iff. apply Z.eqb_neq. Qed.

(** [isValid] accepts [num] at [(row, col)] exactly when no cell of the
    row, the column and the box of [(row, col)] holds [num]. *)
Lemma isValid_spec (board : SudokuBoard) (row col : nat) (num : Z) :
  (row < 9)%nat → (col < 9)%nat →
  isValid board row col num = true ↔
  ∀ row' col', (row' < 9)%nat → (col' < 9)%nat →
    sameUnit row col row' col' → cell board row' col' ≠ num.
Proof.
  intros Hrow Hcol. unfold isValid.
  rewrite !andb_true_iff, !List.forallb_forall.
  split.
  - intros [[Hr Hc] Hb] row' col' Hrow' Hcol' [<-|[<-|[Hbr Hbc]]].
    + specialize (Hr col'). rewrite List.in_seq in Hr.
      apply negb_Zeqb, Hr. lia.
    + specialize (Hc row'). rewrite List.in_seq in Hc.
      apply negb_Zeqb, Hc. lia.
    + specialize (Hb (row' mod 3)%nat).
      rewrite List.in_seq, List.forallb_forall in Hb.
      assert (Hi : (0 ≤ row' mod 3 < 0 + 3)%nat) by lia.
      specialize (Hb Hi (col' mod 3)%nat).
      rewrite List.in_seq in Hb.
      assert (Hj : (0 ≤ col' mod 3 < 0 + 3)%nat) by lia.
      specialize (Hb Hj).
      apply negb_Zeqb in Hb.
      replace (row - row mod 3 + row' mod 3)%nat with row' in Hb by lia.
      replace (col - col mod 3 + col' mod 3)%nat with col' in Hb by lia.
      done.
  - intros H. repeat split.
    + intros x Hx. apply List.in_seq in Hx.
      apply negb_Zeqb, H; [done|lia|by left].
    + intros x Hx. apply List.in_seq in Hx.
      apply negb_Zeqb, H; [lia|done|by right; left].
    + intros i Hi. apply List.in_seq in Hi.
      apply List.forallb_forall. intros j Hj. apply List.in_seq in Hj.
      apply negb_Zeqb, H; [lia|lia|].
      right; right. lia.
Qed.

(** A write to [(row, col)] of a value other than [num] does not change
    the verdict of [isValid] for [num] at [(row, col)], provided the cell
    did not hold [num] before. *)
Lemma isValid_setCell_self (board : SudokuBoard) (row col : nat) (v num : Z) :
  wfBoard board → (row < 9)%nat → (col < 9)%nat →
  v ≠ num → cell board row col ≠ num →
  isValid (setCell board row col v) row col num = isValid board row col num.
Proof.
  intros Hwf Hrow Hcol Hv Hc.
  apply eq_true_iff_eq. rewrite !isValid_spec by done.
  split; intros H row' col' Hrow' Hcol' Hu.
  - destruct (decide ((row, col) = (row', col'))) as [[= <- <-]|Hne]; [done|].
    rewrite <- (cell_setCell_ne board row col row' col' v) by done. by apply H.
  - destruct (decide ((row, col) = (row', col'))) as [[= <- <-]|Hne].
    + by rewrite cell_setCell_eq.
    + rewrite cell_setCell_ne by done. by apply H.
Qed.

(** Two 9x9 boards with the same cells are equal. *)
Lemma board_ext (b1 b2 : SudokuBoard) :
  wfBoard b1 → wfBoard b2 →
  (∀ row col, (row < 9)%nat → (col < 9)%nat → cell b1 row col = cell b2 row col) →
  b1 = b2.
Proof.
  intros Hwf1 Hwf2 H.
  apply (nth_ext _ _ [] []); [destruct Hwf1, Hwf2; congruence|].
  intros row Hrow. assert (row < 9)%nat by (destruct Hwf1; lia).
  apply (nth_ext _ _ 0 0); [by rewrite !wfBoard_row|].
  intros col Hcol. rewrite wfBoard_row in Hcol by done.
  by apply H.
Qed.

(** ** The recursion of [solveSudoku] follows the column-major cell order *)

Lemma solveLoop_ext (rec rec' : SudokuBoard → option (bool * SudokuBoard))
    (row col : nat) (nums : list Z) (board : SudokuBoard) :
  (∀ b, rec b = rec' b) →
  solveLoop rec row col nums board = solveLoop rec' row col nums board.
Proof.
  intros Hext. revert board.
  induction nums as [|num rest IH]; intros board; simpl; [done|].
  rewrite Hext.
  destruct (isValid board row col num); [|apply IH].
  destruct (rec' _) as [[[] b']|]; [done|apply IH|done].
Qed.

Lemma countLoop_ext (rec rec' : SudokuBoard → Z → option (Z * SudokuBoard))
    (row col : nat) (nums : list Z) (board : SudokuBoard) (count : Z) :
  (∀ b n, rec b n = rec' b n) →
  countLoop rec row col nums board count = countLoop rec' row col nums board count.
Proof.
  intros Hext. revert board count.
  induction nums as [|num rest IH]; intros board count; simpl; [done|].
  rewrite Hext.
  destruct (count <? 2); [|done].
  destruct (isValid board row col num); [|apply IH].
  destruct (rec' _ _) as [[n b']|]; [apply IH|done].
Qed.

Lemma colMajor_drop (p : nat) :
  (p < 81)%nat →
  drop p colMajor = (p mod 9, p / 9)%nat :: drop (S p) colMajor.
Proof.
  intros Hp.
  do 81 (destruct p as [|p]; [reflexivity|]). lia.
Qed.

Lemma colMajor_drop_end : drop 81 colMajor = [].
Proof. reflexivity. Qed.

Lemma solveSudoku_cells (fuel : nat) :
  ∀ (board : SudokuBoard) (row col : nat),
    (row ≤ 9)%nat → (col < 9)%nat → (81 - posOf row col < fuel)%nat →
    solveSudoku fuel board row col
    = solveCells (drop (posOf row col) colMajor) board.
Proof.
  unfold posOf.
  induction fuel as [|fuel IH]; intros board row col Hrow Hcol Hfuel; [lia|].
  cbn [solveSudoku].
  destruct (row =? 9)%nat eqn:Hwrap.
  - apply Nat.eqb_eq in Hwrap. subst row. cbn [andb].
    destruct (S col =? 9)%nat eqn:Hend.
    + apply Nat.eqb_eq in Hend.
      replace (col * 9 + 9)%nat with 81%nat by lia. done.
    + apply Nat.eqb_neq in Hend.
      rewrite colMajor_drop by lia.
      replace ((col * 9 + 9) mod 9)%nat with 0%nat by lia.
      replace ((col * 9 + 9) / 9)%nat with (S col) by lia.
      cbn [solveCells].
      replace (S (col * 9 + 9)) with (S col * 9 + 1)%nat by lia.
      destruct (negb (cell board 0 (S col) =? 0)).
      * apply IH; lia.
      * apply solveLoop_ext. intros b. apply IH; lia.
  - apply Nat.eqb_neq in Hwrap. cbn [andb].
    rewrite colMajor_drop by lia.
    replace ((col * 9 + row) mod 9)%nat with row by lia.
    replace ((col * 9 + row) / 9)%nat with col by lia.
    cbn [solveCells].
    replace (S (col * 9 + row)) with (col * 9 + S row)%nat by lia.
    destruct (negb (cell board row col =? 0)).
    + apply IH; lia.
    + apply solveLoop_ext. intros b. apply IH; lia.
Qed.

Lemma countSolutionsHelper_cells (fuel : nat) :
  ∀ (board : SudokuBoard) (row col : nat) (count : Z),
    (row ≤ 9)%nat → (col < 9)%nat → (81 - posOf row col < fuel)%nat →
    countSolutionsHelper fuel board row col count
    = countCells (drop (posOf row col) colMajor) board count.
Proof.
  unfold posOf.
  induction fuel as [|fuel IH]; intros board row col count Hrow Hcol Hfuel; [lia|].
  cbn [countSolutionsHelper].
  destruct (row =? 9)%nat eqn:Hwrap.
  - apply Nat.eqb_eq in Hwrap. subst row. cbn [andb].
    destruct (S col =? 9)%nat eqn:Hend.
    + apply Nat.eqb_eq in Hend.
      replace (col * 9 + 9)%nat with 81%nat by lia. done.
    + apply Nat.eqb_neq in Hend.
      rewrite colMajor_drop by lia.
      replace ((col * 9 + 9) mod 9)%nat with 0%nat by lia.
      replace ((col * 9 + 9) / 9)%nat with (S col) by lia.
      cbn [countCells].
      replace (S (col * 9 + 9)) with (S col * 9 + 1)%nat by lia.
      destruct (negb (cell board 0 (S col) =? 0)).
      * apply IH; lia.
      * apply countLoop_ext. intros b n. apply IH; lia.
  - apply Nat.eqb_neq in Hwrap. cbn [andb].
    rewrite colMajor_drop by lia.
    replace ((col * 9 + row) mod 9)%nat with row by lia.
    replace ((col * 9 + row) / 9)%nat with col by lia.
    cbn [countCells].
    replace (S (col * 9 + row)) with (col * 9 + S row)%nat by lia.
    destruct (negb (cell board row col =? 0)).
    + apply IH; lia.
    + apply countLoop_ext. intros b n. apply IH; lia.
Qed.

Lemma solveSudoku_colMajor (board : SudokuBoard) :
  solveSudoku solveFuel board 0 0 = solveCells colMajor board.
Proof.
  rewrite solveSudoku_cells by (unfold posOf, solveFuel; lia). done.
Qed.

Lemma countSolutionsHelper_colMajor (board : SudokuBoard) (count : Z) :
  countSolutionsHelper solveFuel board 0 0 count = countCells colMajor board count.
Proof.
  rewrite countSolutionsHelper_cells by (unfold posOf, solveFuel; lia). done.
Qed.

Lemma solveLoop_tryDigits (continue : SudokuBoard → bool * SudokuBoard)
    (row col : nat) (nums : list Z) (board : SudokuBoard) :
  solveLoop (λ b, Some (continue b)) row col nums board
  = Some (tryDigits continue row col nums board).
Proof.
  revert board. induction nums as [|num rest IH]; intros board; simpl; [done|].
  destruct (isValid board row col num); [|apply IH].
  destruct (continue _) as [[] b']; [done|apply IH].
Qed.

Lemma solveCells_backtrack (cells : list (nat * nat)) (board : SudokuBoard) :
  solveCells cells board = Some (backtrack cells board).
Proof.
  revert board. induction cells as [|[row col] rest IH]; intros board; [done|].
  cbn [solveCells backtrack].
  destruct (cell board row col =? 0); cbn [negb]; [|apply IH].
  rewrite <- solveLoop_tryDigits. apply solveLoop_ext. intros b. apply IH.
Qed.

(** ** The searches compute the head and the length of [sols] *)



Lemma cands_cons (rest : list (nat * nat)) (board : SudokuBoard)
    (row col : nat) (num : Z) (nums : list Z) :
  cands rest board row col (num :: nums)
  = (if isValid board row col num
     then sols rest (setCell board row col num) else [])
    ++ cands rest board row col nums.
Proof. reflexivity. Qed.


Lemma verdict_app (board : SudokuBoard) (l1 l2 : list SudokuBoard) :
  verdict board (l1 ++ l2)
  = match l1 with [] => verdict board l2 | s :: _ => (true, s) end.
Proof. by destruct l1. Qed.

Section SearchLoops.
Variable rest : list (nat * nat).
Variable board : SudokuBoard.
Variables row col : nat.
Hypothesis Hwf : wfBoard board.
Hypothesis Hrow : (row < 9)%nat.
Hypothesis Hcol : (col < 9)%nat.
Hypothesis Hempty : cell board row col = 0.

Hypothesis solve_rest : ∀ b, wfBoard b →
  solveCells rest b = Some (verdict b (sols rest b)).

Lemma solveLoop_cands (nums : list Z) :
  ∀ v, NoDup nums → v ∉ nums → 0 ∉ nums →
    solveLoop (solveCells rest) row col nums (setCell board row col v)
    = Some (verdict (setCell board row col 0) (cands rest board row col nums)).
Proof.
  induction nums as [|num nums IH]; intros v Hnd Hv H0.
  - simpl. by rewrite setCell_same.
  - apply NoDup_cons in Hnd as [Hnum Hnd].
    apply not_elem_of_cons in Hv as [Hv1 Hv2].
    apply not_elem_of_cons in H0 as [H01 H02].
    cbn [solveLoop]. rewrite cands_cons.
    rewrite isValid_setCell_self by (done || congruence).
    destruct (isValid board row col num).
    + rewrite setCell_same.
      rewrite solve_rest by by apply wfBoard_setCell.
      rewrite verdict_app.
      destruct (sols rest (setCell board row col num)) as [|s ?]; [|done].
      cbn [verdict]. by apply IH.
    + by apply IH.
Qed.

Hypothesis count_rest : ∀ b n, wfBoard b → 0 ≤ n < 2 →
  countCells rest b n
  = Some (Z.min (n + Z.of_nat (length (sols rest b))) 2, b).

Lemma countLoop_cands (nums : list Z) :
  ∀ v n, NoDup nums → v ∉ nums → 0 ∉ nums → 0 ≤ n ≤ 2 →
    countLoop (countCells rest) row col nums (setCell board row col v) n
    = Some (Z.min (n + Z.of_nat (length (cands rest board row col nums))) 2,
            setCell board row col 0).
Proof.
  induction nums as [|num nums IH]; intros v n Hnd Hv H0 Hn.
  - simpl. rewrite setCell_same.
    f_equal. apply pair_equal_spec. split; [lia|done].
  - apply NoDup_cons in Hnd as [Hnum Hnd].
    apply not_elem_of_cons in Hv as [Hv1 Hv2].
    apply not_elem_of_cons in H0 as [H01 H02].
    cbn [countLoop]. rewrite cands_cons.
    destruct (n <? 2) eqn:Hlt.
    + apply Z.ltb_lt in Hlt.
      rewrite isValid_setCell_self by (done || congruence).
      destruct (isValid board row col num).
      * rewrite setCell_same.
        rewrite count_rest by (by apply wfBoard_setCell || lia).
        rewrite IH by (done || lia).
        rewrite length_app. f_equal. apply pair_equal_spec. split; [|done].
        lia.
      * by apply IH.
    + apply Z.ltb_ge in Hlt. rewrite setCell_same.
      f_equal. apply pair_equal_spec. split; [lia|done].
Qed.
End SearchLoops.

Lemma NoDup_digits : NoDup digits.
Proof. apply (bool_decide_unpack (NoDup digits)). by vm_compute. Qed.

Lemma zero_not_digit : 0 ∉ digits.
Proof. apply (bool_decide_unpack (0 ∉ digits)). by vm_compute. Qed.

Lemma elem_of_digits (d : Z) : d ∈ digits ↔ 1 ≤ d ≤ 9.
Proof.
  unfold digits. rewrite !elem_of_cons, elem_of_nil. lia.
Qed.

Lemma solveCells_sols (cells : list (nat * nat)) :
  ∀ board, wfBoard board → Forall inGrid cells →
    solveCells cells board = Some (verdict board (sols cells board)).
Proof.
  induction cells as [|[row col] rest IH]; intros board Hwf Hin; [done|].
  apply Forall_cons in Hin as [[Hrow Hcol] Hin]. simpl in Hrow, Hcol.
  cbn [solveCells sols].
  destruct (negb (cell board row col =? 0)) eqn:Hc.
  - by apply IH.
  - apply negb_false_iff, Z.eqb_eq in Hc.
    rewrite <- (setCell_cell board row col) at 1. rewrite Hc.
    rewrite (solveLoop_cands rest board row col); try done.
    + rewrite <- Hc at 1. by rewrite setCell_cell.
    + intros b Hb. by apply IH.
    + apply NoDup_digits.
    + apply zero_not_digit.
    + apply zero_not_digit.
Qed.

Lemma countCells_sols (cells : list (nat * nat)) :
  ∀ board n, wfBoard board → Forall inGrid cells → 0 ≤ n < 2 →
    countCells cells board n
    = Some (Z.min (n + Z.of_nat (length (sols cells board))) 2, board).
Proof.
  induction cells as [|[row col] rest IH]; intros board n Hwf Hin Hn.
  - simpl. f_equal. apply pair_equal_spec. split; [lia|done].
  - apply Forall_cons in Hin as [[Hrow Hcol] Hin]. simpl in Hrow, Hcol.
    cbn [countCells sols].
    destruct (negb (cell board row col =? 0)) eqn:Hc.
    + by apply IH.
    + apply negb_false_iff, Z.eqb_eq in Hc.
      rewrite <- (setCell_cell board row col) at 1. rewrite Hc.
      rewrite (countLoop_cands rest board row col); try done.
      * rewrite <- Hc at 1. by rewrite setCell_cell.
      * intros b m Hb Hm. by apply IH.
      * apply NoDup_digits.
      * apply zero_not_digit.
      * apply zero_not_digit.
      * lia.
Qed.

Lemma inGrid_colMajor : Forall inGrid colMajor.
Proof.
  apply Forall_forall. intros [r c] Hin.
  unfold colMajor in Hin.
  apply list_elem_of_In, List.in_flat_map in Hin as (c' & Hc' & Hin).
  apply List.in_map_iff in Hin as (r' & [= <- <-] & Hr').
  apply List.in_seq in Hc'. apply List.in_seq in Hr'. split; simpl; lia.
Qed.

(** The counting search returns on every board. *)
Lemma countLoop_total (rec : SudokuBoard → Z → option (Z * SudokuBoard))
    (row col : nat) (nums : list Z) :
  (∀ b n, is_Some (rec b n)) →
  ∀ board count, is_Some (countLoop rec row col nums board count).
Proof.
  intros Hrec. induction nums as [|num rest IH]; intros board count;
    cbn [countLoop]; [done|].
  destruct (count <? 2); [|done].
  destruct (isValid board row col num); [|apply IH].
  destruct (Hrec (setCell board row col num) count) as [[count' board'] ->].
  apply IH.
Qed.

Lemma countCells_total (cells : list (nat * nat)) :
  ∀ board count, is_Some (countCells cells board count).
Proof.
  induction cells as [|[row col] rest IH]; intros board count;
    cbn [countCells]; [done|].
  destruct (negb (cell board row col =? 0)); [apply IH|].
  by apply countLoop_total.
Qed.

(** ** What the boards of [sols] are *)

Lemma sameUnit_sym (r c r' c' : nat) : sameUnit r c r' c' → sameUnit r' c' r c.
Proof. unfold sameUnit. intuition. Qed.




Lemma Fills_ext (E E' : nat → nat → Prop) (board s : SudokuBoard) :
  (∀ r c, (r < 9)%nat → (c < 9)%nat → E r c ↔ E' r c) →
  Fills E board s → Fills E' board s.
Proof.
  intros HE (Hwf & Hout & Hin). split; [done|]. split.
  - intros r c Hr Hc HnE. apply Hout; [done..|]. by rewrite HE.
  - intros r c Hr Hc HE'. apply Hin; [done..|]. by rewrite HE.
Qed.

Lemma sols_spec (cells : list (nat * nat)) :
  ∀ board s, wfBoard board → NoDup cells → Forall inGrid cells →
    s ∈ sols cells board ↔ Fills (emptyIn cells board) board s.
Proof.
  induction cells as [|[row col] rest IH]; intros board s Hwf Hnd Hgrid.
  - simpl. rewrite list_elem_of_singleton. split.
    + intros ->. split; [done|]. split; [done|].
      intros r c _ _ [Hin _]. by apply elem_of_nil in Hin.
    + intros (Hwfs & Hout & _). apply board_ext; [done..|].
      intros r c Hr Hc. apply Hout; [done..|].
      intros [Hin _]. by apply elem_of_nil in Hin.
  - apply NoDup_cons in Hnd as [Hfresh Hnd].
    apply Forall_cons in Hgrid as [[Hrow Hcol] Hgrid]. simpl in Hrow, Hcol.
    cbn [sols].
    destruct (negb (cell board row col =? 0)) eqn:Hc.
    + apply negb_Zeqb in Hc.
      rewrite IH by done. split; apply Fills_ext; intros r c _ _;
        unfold emptyIn; rewrite elem_of_cons; intuition congruence.
    + apply negb_false_iff, Z.eqb_eq in Hc.
      rewrite list_elem_of_In, List.in_flat_map. split.
      * intros (num & Hnum & Hs).
        apply list_elem_of_In, elem_of_digits in Hnum.
        destruct (isValid board row col num) eqn:Hvalid;
          [|by apply List.in_nil in Hs].
        rewrite isValid_spec in Hvalid by done.
        apply list_elem_of_In in Hs.
        rewrite IH in Hs by (done || by apply wfBoard_setCell).
        destruct Hs as (Hwfs & Hout & Hin).
        assert (Hhere : cell s row col = num).
        { rewrite Hout; [by apply cell_setCell_eq|done..|].
          intros [? _]. done. }
        split; [done|]. split.
        -- intros r c Hr Hcc HnE.
           assert (Hne : (row, col) ≠ (r, c)).
           { intros [= <- <-]. apply HnE. split; [left|done]. }
           rewrite Hout; [by apply cell_setCell_ne|done..|].
           intros [Hin' Hz]. rewrite cell_setCell_ne in Hz by done.
           apply HnE. split; [by right|done].
        -- intros r c Hr Hcc [Hin' Hz].
           destruct (decide ((r, c) = (row, col))) as [[= -> ->]|Hne].
           ++ rewrite Hhere. split; [done|].
              intros r' c' Hr' Hc' Hne' Hu.
              destruct (decide (emptyIn rest (setCell board row col num) r' c'))
                as [HE'|HnE'].
              ** destruct (Hin r' c' Hr' Hc' HE') as [_ Hdiff].
                 rewrite <- Hhere.
                 intros Heq.
                 apply (Hdiff row col Hrow Hcol); [congruence| |congruence].
                 by apply sameUnit_sym.
              ** rewrite Hout by done.
                 rewrite cell_setCell_ne by done. by apply Hvalid.
           ++ apply Hin; [done..|]. split.
              ** apply elem_of_cons in Hin' as [?|?]; done.
              ** rewrite cell_setCell_ne by congruence. done.
      * intros (Hwfs & Hout & Hin).
        assert (HE : emptyIn ((row, col) :: rest) board row col)
          by (split; [left|done]).
        destruct (Hin row col Hrow Hcol HE) as [Hrange Hdiff].
        exists (cell s row col). split.
        { apply list_elem_of_In, elem_of_digits. done. }
        assert (Hvalid : isValid board row col (cell s row col) = true).
        { apply isValid_spec; [done..|].
          intros r' c' Hr' Hc' Hu.
          destruct (decide ((row, col) = (r', c'))) as [[= <- <-]|Hne]; [lia|].
          destruct (decide (emptyIn ((row, col) :: rest) board r' c'))
            as [[_ Hz]|HnE]; [lia|].
          rewrite <- (Hout r' c') by done. by apply Hdiff. }
        rewrite Hvalid.
        apply list_elem_of_In, IH; [by apply wfBoard_setCell|done..|].
        split; [done|]. split.
        -- intros r c Hr Hcc HnE'.
           destruct (decide ((row, col) = (r, c))) as [[= <- <-]|Hne].
           ++ by rewrite cell_setCell_eq.
           ++ rewrite cell_setCell_ne by done.
              apply Hout; [done..|].
              intros [Hin' Hz]. apply HnE'. split.
              ** apply elem_of_cons in Hin' as [?|?]; [congruence|done].
              ** by rewrite cell_setCell_ne.
        -- intros r c Hr Hcc [Hin' Hz].
           assert (Hne : (row, col) ≠ (r, c)) by congruence.
           rewrite cell_setCell_ne in Hz by done.
           apply Hin; [done..|]. split; [by right|done].
Qed.

Lemma NoDup_flat_map {A B} (f : A → list B) (l : list A) :
  (∀ x, x ∈ l → NoDup (f x)) →
  (∀ x y s, x ∈ l → y ∈ l → s ∈ f x → s ∈ f y → x = y) →
  NoDup l → NoDup (flat_map f l).
Proof.
  intros Hf Hdisj Hnd.
  induction Hnd as [|x l Hx Hnd IH]; simpl; [apply NoDup_nil_2|].
  apply NoDup_app. split; [apply Hf; left|]. split.
  - intros s Hs Hs'.
    apply list_elem_of_In, List.in_flat_map in Hs' as (y & Hy & Hs').
    apply list_elem_of_In in Hy. apply list_elem_of_In in Hs'.
    assert (x = y) by (eapply Hdisj; [left|by right|done..]).
    congruence.
  - apply IH.
    + intros y Hy. apply Hf. by right.
    + intros y z s Hy Hz. apply Hdisj; by right.
Qed.

Lemma NoDup_sols (cells : list (nat * nat)) :
  ∀ board, wfBoard board → NoDup cells → Forall inGrid cells →
    NoDup (sols cells board).
Proof.
  induction cells as [|[row col] rest IH]; intros board Hwf Hnd Hgrid.
  - apply NoDup_singleton.
  - pose proof Hnd as Hnd0.
    apply NoDup_cons in Hnd as [Hfresh Hnd].
    pose proof Hgrid as Hgrid0.
    apply Forall_cons in Hgrid as [[Hrow Hcol] Hgrid]. simpl in Hrow, Hcol.
    cbn [sols].
    destruct (negb (cell board row col =? 0)); [by apply IH|].
    apply NoDup_flat_map; [| |apply NoDup_digits].
    + intros num _. destruct (isValid board row col num); [|apply NoDup_nil_2].
      apply IH; [by apply wfBoard_setCell|done..].
    + intros x y s _ _ Hx Hy.
      destruct (isValid board row col x); [|by apply elem_of_nil in Hx].
      destruct (isValid board row col y); [|by apply elem_of_nil in Hy].
      apply sols_spec in Hx as (_ & Hx & _); [|by apply wfBoard_setCell|done..].
      apply sols_spec in Hy as (_ & Hy & _); [|by apply wfBoard_setCell|done..].
      specialize (Hx row col Hrow Hcol). specialize (Hy row col Hrow Hcol).
      rewrite cell_setCell_eq in Hx, Hy by done.
      rewrite <- Hx, <- Hy; [done|intros [? _]; done|intros [? _]; done].
Qed.

(** ** Solved grids and completions *)

Lemma NoDup_colMajor : NoDup colMajor.
Proof. apply (bool_decide_unpack (NoDup colMajor)). by vm_compute. Qed.

Lemma elem_of_colMajor (r c : nat) : (r < 9)%nat → (c < 9)%nat → (r, c) ∈ colMajor.
Proof.
  intros Hr Hc. apply list_elem_of_In, List.in_flat_map.
  exists c. split; [apply List.in_seq; lia|].
  apply List.in_map_iff. exists r. split; [done|apply List.in_seq; lia].
Qed.

Lemma NoDup_map_on {A B} (f : A → B) (l : list A) :
  NoDup l → (∀ x y, x ∈ l → y ∈ l → f x = f y → x = y) → NoDup (map f l).
Proof.
  intros Hnd. induction Hnd as [|x l Hx Hnd IH]; intros Hinj; simpl.
  - apply NoDup_nil_2.
  - apply NoDup_cons. split.
    + intros Hin. apply list_elem_of_In, List.in_map_iff in Hin as (y & Hy & Hin).
      apply list_elem_of_In in Hin.
      assert (y = x) by (apply Hinj; [by right|left|done]).
      congruence.
    + apply IH. intros y z Hy Hz. apply Hinj; by right.
Qed.

Lemma NoDup_map_inj_on {A B} (f : A → B) (l : list A) (x y : A) :
  NoDup (map f l) → x ∈ l → y ∈ l → f x = f y → x = y.
Proof.
  induction l as [|a l IH]; simpl; intros Hnd Hx Hy Hf.
  - by apply elem_of_nil in Hx.
  - apply NoDup_cons in Hnd as [Ha Hnd].
    apply elem_of_cons in Hx as [->|Hx]; apply elem_of_cons in Hy as [->|Hy].
    + done.
    + exfalso. apply Ha. rewrite Hf.
      apply list_elem_of_In, List.in_map, list_elem_of_In, Hy.
    + exfalso. apply Ha. rewrite <- Hf.
      apply list_elem_of_In, List.in_map, list_elem_of_In, Hx.
    + by apply IH.
Qed.

(** A list of nine distinct digits is a permutation of 1..9. *)
Lemma nine_digits_Permutation (l : list Z) :
  length l = 9%nat → NoDup l → (∀ x, x ∈ l → 1 ≤ x ≤ 9) →
  Permutation l digits.
Proof.
  intros Hlen Hnd Hrange.
  apply NoDup_Permutation_bis.
  - by apply NoDup_ListNoDup.
  - rewrite Hlen. done.
  - intros x Hx. apply list_elem_of_In, elem_of_digits, Hrange, list_elem_of_In, Hx.
Qed.

Lemma elem_of_seq_lt (n i : nat) : i ∈ seq 0 n ↔ (i < n)%nat.
Proof. rewrite list_elem_of_In, List.in_seq. lia. Qed.

Lemma isSolved_iff (s : SudokuBoard) :
  isSolved s ↔ wfBoard s ∧ fullBoard s ∧ consistent s.
Proof.
  split.
  - intros [Hwf Hperm]. split; [done|]. split.
    + intros r c Hr Hc.
      destruct (Hperm r Hr) as (Hrow & _ & _).
      apply elem_of_digits. rewrite <- Hrow.
      apply list_elem_of_In, List.in_map_iff. exists c.
      split; [done|apply List.in_seq; lia].
    + intros r c r' c' Hr Hc Hr' Hc' Hne Hu _ Heq.
      destruct Hu as [<-|[<-|[Hbr Hbc]]].
      * destruct (Hperm r Hr) as (Hrow & _ & _).
        assert (Hnd : NoDup (rowOf s r)) by (rewrite Hrow; apply NoDup_digits).
        assert (c = c'); [|congruence].
        eapply (NoDup_map_inj_on _ _ c c' Hnd); [by apply elem_of_seq_lt..|done].
      * destruct (Hperm c Hc) as (_ & Hcol & _).
        assert (Hnd : NoDup (colOf s c)) by (rewrite Hcol; apply NoDup_digits).
        assert (r = r'); [|congruence].
        eapply (NoDup_map_inj_on _ _ r r' Hnd); [by apply elem_of_seq_lt..|done].
      * set (k := (3 * (r / 3) + c / 3)%nat).
        assert (Hk : (k < 9)%nat) by (unfold k; lia).
        destruct (Hperm k Hk) as (_ & _ & Hbox).
        assert (Hnd : NoDup (boxOf s k)) by (rewrite Hbox; apply NoDup_digits).
        set (i := (3 * (r mod 3) + c mod 3)%nat).
        set (i' := (3 * (r' mod 3) + c' mod 3)%nat).
        assert (i = i').
        { eapply (NoDup_map_inj_on _ _ i i' Hnd).
          - apply elem_of_seq_lt. unfold i. lia.
          - apply elem_of_seq_lt. unfold i'. lia.
          - cbv beta.
            replace (3 * (k / 3) + i / 3)%nat with r by (unfold k, i; lia).
            replace (3 * (k mod 3) + i mod 3)%nat with c by (unfold k, i; lia).
            replace (3 * (k / 3) + i' / 3)%nat with r' by (unfold k, i'; lia).
            replace (3 * (k mod 3) + i' mod 3)%nat with c' by (unfold k, i'; lia).
            done. }
        apply Hne. unfold i, i' in *. f_equal; lia.
  - intros (Hwf & Hfull & Hcons). split; [done|].
    assert (Hnz : ∀ r c, (r < 9)%nat → (c < 9)%nat → cell s r c ≠ 0).
    { intros r c Hr Hc. specialize (Hfull r c Hr Hc). lia. }
    intros k Hk. repeat split.
    + apply nine_digits_Permutation.
      * unfold rowOf. by rewrite length_map, length_seq.
      * apply NoDup_map_on; [apply NoDup_seq|].
        intros c c' Hc Hc' Heq.
        apply elem_of_seq_lt in Hc. apply elem_of_seq_lt in Hc'.
        destruct (decide (c = c')) as [|Hne]; [done|].
        exfalso. apply (Hcons k c k c'); auto; [congruence|by left].
      * intros x Hx.
        apply list_elem_of_In, List.in_map_iff in Hx as (c & <- & Hc).
        apply List.in_seq in Hc. apply Hfull; lia.
    + apply nine_digits_Permutation.
      * unfold colOf. by rewrite length_map, length_seq.
      * apply NoDup_map_on; [apply NoDup_seq|].
        intros r r' Hr Hr' Heq.
        apply elem_of_seq_lt in Hr. apply elem_of_seq_lt in Hr'.
        destruct (decide (r = r')) as [|Hne]; [done|].
        exfalso. apply (Hcons r k r' k); auto; [congruence|by right; left].
      * intros x Hx.
        apply list_elem_of_In, List.in_map_iff in Hx as (r & <- & Hr).
        apply List.in_seq in Hr. apply Hfull; lia.
    + apply nine_digits_Permutation.
      * unfold boxOf. by rewrite length_map, length_seq.
      * apply NoDup_map_on; [apply NoDup_seq|].
        intros i i' Hi Hi' Heq.
        apply elem_of_seq_lt in Hi. apply elem_of_seq_lt in Hi'.
        destruct (decide (i = i')) as [|Hne]; [done|].
        exfalso.
        apply (Hcons (3 * (k / 3) + i / 3) (3 * (k mod 3) + i mod 3)
                     (3 * (k / 3) + i' / 3) (3 * (k mod 3) + i' mod 3))%nat;
          try lia; try done.
        -- intros Hp. apply pair_equal_spec in Hp as [H1 H2]. lia.
        -- right; right. lia.
        -- apply Hnz; lia.
      * intros x Hx.
        apply list_elem_of_In, List.in_map_iff in Hx as (i & <- & Hi).
        apply List.in_seq in Hi. apply Hfull; lia.
Qed.

Lemma completion_iff (board s : SudokuBoard) :
  wfBoard board → digitCells board → consistent board →
  completion board s ↔ Fills (emptyIn colMajor board) board s.
Proof.
  intros Hwf Hdig Hcons. unfold completion. rewrite isSolved_iff. split.
  - intros [(Hwfs & Hfull & Hconss) Hext]. split; [done|]. split.
    + intros r c Hr Hc HnE. apply Hext; [done..|].
      intros Hz. apply HnE. split; [by apply elem_of_colMajor|done].
    + intros r c Hr Hc _. split; [by apply Hfull|].
      intros r' c' Hr' Hc' Hne Hu Heq.
      apply (Hconss r c r' c'); try done.
      specialize (Hfull r c Hr Hc). lia.
  - intros (Hwfs & Hout & Hin).
    assert (Hfull : fullBoard s).
    { intros r c Hr Hc.
      destruct (decide (emptyIn colMajor board r c)) as [HE|HnE].
      - by apply Hin.
      - rewrite Hout by done.
        assert (cell board r c ≠ 0).
        { intros Hz. apply HnE. split; [by apply elem_of_colMajor|done]. }
        specialize (Hdig r c Hr Hc). lia. }
    split; [split; [done|split; [done|]]|].
    + intros r c r' c' Hr Hc Hr' Hc' Hne Hu Hnz Heq.
      destruct (decide (emptyIn colMajor board r c)) as [HE|HnE].
      { destruct (Hin r c Hr Hc HE) as [_ Hdiff].
        by apply (Hdiff r' c'). }
      destruct (decide (emptyIn colMajor board r' c')) as [HE'|HnE'].
      { destruct (Hin r' c' Hr' Hc' HE') as [_ Hdiff].
        apply (Hdiff r c); [done..|congruence|by apply sameUnit_sym|done]. }
      rewrite !Hout in Heq by done.
      apply (Hcons r c r' c'); try done.
      intros Hz. apply HnE. split; [by apply elem_of_colMajor|done].
    + intros r c Hr Hc Hnz. apply Hout; [done..|]. intros [_ Hz]. done.
Qed.

(** The boards of [sols] over the whole grid are the completions. *)
Lemma sols_completions (board s : SudokuBoard) :
  wfBoard board → digitCells board → consistent board →
  s ∈ sols colMajor board ↔ completion board s.
Proof.
  intros Hwf Hdig Hcons.
  rewrite completion_iff by done.
  apply sols_spec; [done|apply NoDup_colMajor|apply inGrid_colMajor].
Qed.

Lemma map_id_board (board : SudokuBoard) : map (λ row, row) board = board.
Proof. apply List.map_id. Qed.

Lemma countSolutions_sols (board : SudokuBoard) :
  wfBoard board →
  countSolutions board
  = Some (Z.min (Z.of_nat (length (sols colMajor board))) 2).
Proof.
  intros Hwf. unfold countSolutions.
  rewrite map_id_board, countSolutionsHelper_colMajor.
  rewrite countCells_sols by (done || apply inGrid_colMajor || lia).
  done.
Qed.

(** ** The heap *)

Lemma wfHeap_lookup (h : Heap) (l : nat) :
  wfHeap h → is_Some (h_rows h !! l) → (l < h_next h)%nat.
Proof. intros Hwf [x Hx]. by apply (Hwf l x). Qed.

Lemma allocRows_spec (rows : SudokuBoard) :
  ∀ (h : Heap) (ls : BoardRef) (h' : Heap),
    allocRows h rows = (ls, h') → wfHeap h →
    wfHeap h' ∧ h_next h' = (h_next h + length rows)%nat ∧
    ls = seq (h_next h) (length rows) ∧
    (∀ l, (l < h_next h)%nat → h_rows h' !! l = h_rows h !! l) ∧
    readBoard h' ls = rows.
Proof.
  induction rows as [|row rest IH]; intros h ls h' Halloc Hwf; simpl in Halloc.
  - injection Halloc as <- <-. repeat split; try done; lia.
  - destruct (allocRows _ rest) as [ls' h1] eqn:Hrest.
    injection Halloc as <- <-.
    apply IH in Hrest as (Hwf' & Hnext & Hls & Hframe & Hread).
    + simpl in *. repeat split; try done.
      * lia.
      * by rewrite Hls.
      * intros l Hl. rewrite Hframe by lia. apply lookup_insert_ne. lia.
      * unfold readBoard. simpl. f_equal; [|done].
        unfold heapRow. rewrite Hframe by lia. by rewrite lookup_insert_eq.
    + intros l x Hl. simpl in *.
      destruct (decide (h_next h = l)) as [<-|Hne]; [lia|].
      rewrite lookup_insert_ne in Hl by done.
      assert (l < h_next h)%nat by (by apply (Hwf l x)). lia.
Qed.

Lemma storeRows_frame (ls : BoardRef) :
  ∀ (rows : SudokuBoard) (h : Heap) (l : nat),
    l ∉ ls → h_rows (storeRows h ls rows) !! l = h_rows h !! l.
Proof.
  induction ls as [|l0 ls IH]; intros rows h l Hl; [done|].
  apply not_elem_of_cons in Hl as [Hne Hl].
  destruct rows as [|row rest]; [done|]. simpl.
  rewrite IH by done. simpl. by apply lookup_insert_ne.
Qed.

Lemma readBoard_frame (h h' : Heap) (board : BoardRef) :
  (∀ l, l ∈ board → h_rows h' !! l = h_rows h !! l) →
  readBoard h' board = readBoard h board.
Proof.
  intros Hframe. unfold readBoard. apply map_ext_in.
  intros l Hl. unfold heapRow. rewrite Hframe; [done|by apply list_elem_of_In].
Qed.

(** The rows of a 9x9 board read from the heap are allocated. *)
Lemma wfBoard_allocated (h : Heap) (board : BoardRef) (l : nat) :
  wfBoard (readBoard h board) → l ∈ board → is_Some (h_rows h !! l).
Proof.
  intros [_ Hrows] Hl. unfold readBoard in Hrows.
  rewrite Forall_forall in Hrows.
  assert (Hlen : length (heapRow h l) = 9%nat).
  { apply Hrows. apply list_elem_of_In, List.in_map_iff.
    exists l. split; [done|by apply list_elem_of_In]. }
  unfold heapRow in Hlen. destruct (h_rows h !! l); [eauto|done].
Qed.

(** ** Counting cells *)

Lemma length9 {A} (l : list A) :
  length l = 9%nat →
  ∃ x0 x1 x2 x3 x4 x5 x6 x7 x8, l = [x0; x1; x2; x3; x4; x5; x6; x7; x8].
Proof.
  intros H.
  do 9 (destruct l as [|? l]; [discriminate H|]).
  destruct l; [|discriminate H]. by do 9 eexists.
Qed.

Lemma concat_cells (board : SudokuBoard) :
  wfBoard board →
  concat board = map (λ p : nat * nat, cell board p.1 p.2) rowMajor.
Proof.
  intros [Hlen Hrows].
  apply length9 in Hlen as (r0 & r1 & r2 & r3 & r4 & r5 & r6 & r7 & r8 & ->).
  repeat match goal with
  | H : Forall _ (_ :: _) |- _ => apply Forall_cons in H as [?%length9 H]
  end.
  repeat match goal with
  | H : ∃ _, _ |- _ => destruct H as [? H]
  end.
  subst. reflexivity.
Qed.

Lemma length_filter_map {A B} (f : A → B) (P : B → Prop)
    `{∀ y, Decision (P y)} (l : list A) :
  length (filter P (map f l)) = length (filter (λ x, P (f x)) l).
Proof.
  induction l as [|x l IH]; [done|]. simpl.
  rewrite !filter_cons. destruct (decide (P (f x))); simpl; by rewrite IH.
Qed.

Lemma countDigit_cells (board : SudokuBoard) (d : Z) :
  wfBoard board →
  countDigit board d
  = Z.of_nat (length (filter (λ p : nat * nat, cell board p.1 p.2 = d) rowMajor)).
Proof.
  intros Hwf. unfold countDigit. rewrite concat_cells by done.
  by rewrite length_filter_map.
Qed.

Lemma NoDup_rowMajor : NoDup rowMajor.
Proof. apply (bool_decide_unpack (NoDup rowMajor)). by vm_compute. Qed.

Lemma elem_of_rowMajor (r c : nat) : (r < 9)%nat → (c < 9)%nat → (r, c) ∈ rowMajor.
Proof.
  intros Hr Hc. apply list_elem_of_In, List.in_flat_map.
  exists r. split; [apply List.in_seq; lia|].
  apply List.in_map_iff. exists c. split; [done|apply List.in_seq; lia].
Qed.

Lemma inGrid_rowMajor (p : nat * nat) : p ∈ rowMajor → inGrid p.
Proof.
  intros Hin.
  apply list_elem_of_In, List.in_flat_map in Hin as (r & Hr & Hin).
  apply List.in_map_iff in Hin as (c & <- & Hc).
  apply List.in_seq in Hr. apply List.in_seq in Hc. split; simpl; lia.
Qed.

Lemma filter_ext_in {A} (P Q : A → Prop)
    `{∀ x, Decision (P x)} `{∀ x, Decision (Q x)} (l : list A) :
  (∀ q, q ∈ l → (P q ↔ Q q)) → filter P l = filter Q l.
Proof.
  induction l as [|x l IH]; intros Hsame; [done|].
  rewrite !filter_cons.
  assert (P x ↔ Q x) by (apply Hsame; left).
  rewrite IH by (intros q Hq; apply Hsame; by right).
  destruct (decide (P x)), (decide (Q x)); tauto || done.
Qed.

Lemma filter_none {A} (P : A → Prop) `{∀ x, Decision (P x)} (l : list A) :
  (∀ q, q ∈ l → ¬ P q) → filter P l = [].
Proof.
  induction l as [|x l IH]; intros Hnone; [done|].
  rewrite filter_cons_False by (apply Hnone; left).
  apply IH. intros q Hq. apply Hnone. by right.
Qed.

(** Two predicates that differ at one element of a duplicate-free list. *)
Lemma length_filter_change {A} (P Q : A → Prop)
    `{∀ x, Decision (P x)} `{∀ x, Decision (Q x)} (l : list A) (p : A) :
  NoDup l → p ∈ l → (∀ q, q ∈ l → q ≠ p → (P q ↔ Q q)) → ¬ P p → Q p →
  length (filter Q l) = S (length (filter P l)).
Proof.
  intros Hnd. induction Hnd as [|x l Hx Hnd IH]; intros Hp Hsame HnP HQ.
  - by apply elem_of_nil in Hp.
  - rewrite !filter_cons.
    apply elem_of_cons in Hp as [->|Hp].
    + destruct (decide (P x)); [done|]. destruct (decide (Q x)); [|done].
      simpl. f_equal.
      assert (Heq : filter Q l = filter P l); [|by rewrite Heq].
      apply filter_ext_in. intros y Hy.
      symmetry. apply Hsame; [by right|]. intros ->. done.
    + assert (x ≠ p) by (intros ->; done).
      assert (P x ↔ Q x) by (apply Hsame; [left|done]).
      assert (IH' : length (filter Q l) = S (length (filter P l))).
      { apply IH; try done. intros q Hq. apply Hsame. by right. }
      destruct (decide (P x)), (decide (Q x)); try tauto; simpl; by rewrite IH'.
Qed.

(** Emptying a filled cell adds one empty cell. *)
Lemma countZeros_setCell (board : SudokuBoard) (row col : nat) :
  wfBoard board → (row < 9)%nat → (col < 9)%nat → cell board row col ≠ 0 →
  countZeros (setCell board row col 0) = countZeros board + 1.
Proof.
  intros Hwf Hrow Hcol Hnz. unfold countZeros.
  rewrite !countDigit_cells by (done || by apply wfBoard_setCell).
  rewrite (length_filter_change
             (λ p : nat * nat, cell board p.1 p.2 = 0)
             (λ p : nat * nat, cell (setCell board row col 0) p.1 p.2 = 0)
             rowMajor (row, col)).
  - lia.
  - apply NoDup_rowMajor.
  - by apply elem_of_rowMajor.
  - intros [r c] _ Hne. simpl. rewrite cell_setCell_ne; [done|congruence].
  - done.
  - simpl. by apply cell_setCell_eq.
Qed.

Lemma countDigit_full_zero (board : SudokuBoard) :
  wfBoard board → fullBoard board → countZeros board = 0.
Proof.
  intros Hwf Hfull. unfold countZeros. rewrite countDigit_cells by done.
  rewrite filter_none; [done|].
  intros [r c] Hin. apply inGrid_rowMajor in Hin as [Hr Hc]. simpl in *.
  specialize (Hfull r c Hr Hc). lia.
Qed.

(** ** Checking concrete boards *)

Lemma isPermOfDigits_spec (l : list Z) :
  isPermOfDigits l = true → Permutation l digits.
Proof.
  unfold isPermOfDigits. rewrite andb_true_iff, Nat.eqb_eq, List.forallb_forall.
  intros [Hall Hlen]. symmetry.
  apply NoDup_Permutation_bis.
  - apply NoDup_ListNoDup, NoDup_digits.
  - rewrite Hlen. done.
  - intros d Hd. apply Hall in Hd.
    apply List.existsb_exists in Hd as (x & Hx & Heq).
    apply Z.eqb_eq in Heq. by subst.
Qed.

Lemma isSolvedb_spec (board : SudokuBoard) :
  isSolvedb board = true → isSolved board.
Proof.
  unfold isSolvedb. rewrite andb_true_iff, List.forallb_forall.
  intros [Hwf Hall]. split; [by apply wfBoardb_spec|].
  intros k Hk. specialize (Hall k).
  rewrite !andb_true_iff in Hall.
  destruct Hall as [[Hr Hc] Hb]; [apply List.in_seq; lia|].
  auto using isPermOfDigits_spec.
Qed.

Lemma digitCellsb_spec (board : SudokuBoard) :
  digitCellsb board = true → digitCells board.
Proof.
  unfold digitCellsb. rewrite List.forallb_forall.
  intros Hall r c Hr Hc.
  assert (Hin : In (r, c) colMajor) by (by apply list_elem_of_In, elem_of_colMajor).
  apply Hall in Hin. cbn [fst snd] in Hin.
  rewrite andb_true_iff, !Z.leb_le in Hin. done.
Qed.

Lemma sameUnitb_spec (r c r' c' : nat) :
  sameUnit r c r' c' → sameUnitb (r, c) (r', c') = true.
Proof.
  unfold sameUnit, sameUnitb. simpl.
  rewrite !orb_true_iff, andb_true_iff, !Nat.eqb_eq. tauto.
Qed.

Lemma consistentb_spec (board : SudokuBoard) :
  consistentb board = true → consistent board.
Proof.
  unfold consistentb. rewrite List.forallb_forall.
  intros Hall r c r' c' Hr Hc Hr' Hc' Hne Hu Hnz.
  assert (Hin : In (r, c) colMajor) by (by apply list_elem_of_In, elem_of_colMajor).
  assert (Hin' : In (r', c') colMajor) by (by apply list_elem_of_In, elem_of_colMajor).
  apply Hall in Hin. rewrite List.forallb_forall in Hin.
  apply Hin in Hin'. clear Hin Hall. rename Hin' into Hall.
  cbn [fst snd] in Hall.
  rewrite sameUnitb_spec in Hall by done.
  rewrite bool_decide_eq_false_2 in Hall by done.
  apply Z.eqb_neq in Hnz. rewrite Hnz in Hall. simpl in Hall.
  by apply negb_Zeqb in Hall.
Qed.

(** ** The carving loop *)

Lemma carvedFrom_self (solved : SudokuBoard) :
  wfBoard solved → carvedFrom solved solved.
Proof. intros Hwf. split; [done|]. by right. Qed.

Lemma carvedFrom_setCell (solved puzzle : SudokuBoard) (row col : nat) :
  (row < 9)%nat → (col < 9)%nat →
  carvedFrom solved puzzle → carvedFrom solved (setCell puzzle row col 0).
Proof.
  intros Hrow Hcol [Hwf Hsub]. split; [by apply wfBoard_setCell|].
  intros r c Hr Hc.
  destruct (decide ((row, col) = (r, c))) as [[= <- <-]|Hne].
  - left. by apply cell_setCell_eq.
  - rewrite cell_setCell_ne by done. by apply Hsub.
Qed.

Lemma carvedFrom_extends (solved puzzle : SudokuBoard) :
  carvedFrom solved puzzle → extends puzzle solved.
Proof.
  intros [_ Hsub] r c Hr Hc Hnz. destruct (Hsub r c Hr Hc); [done|congruence].
Qed.

Lemma carvedFrom_digitCells (solved puzzle : SudokuBoard) :
  isSolved solved → carvedFrom solved puzzle → digitCells puzzle.
Proof.
  intros (_ & Hfull & _)%isSolved_iff [_ Hsub] r c Hr Hc.
  specialize (Hfull r c Hr Hc). destruct (Hsub r c Hr Hc); lia.
Qed.

Lemma carvedFrom_consistent (solved puzzle : SudokuBoard) :
  isSolved solved → carvedFrom solved puzzle → consistent puzzle.
Proof.
  intros (_ & Hfull & Hcons)%isSolved_iff [_ Hsub].
  intros r c r' c' Hr Hc Hr' Hc' Hne Hu Hnz Heq.
  destruct (Hsub r c Hr Hc) as [|Hrc]; [done|].
  destruct (Hsub r' c' Hr' Hc') as [|Hrc']; [congruence|].
  apply (Hcons r c r' c'); try done; [|congruence].
  specialize (Hfull r c Hr Hc). lia.
Qed.

Lemma completion_of_carved (solved puzzle : SudokuBoard) :
  isSolved solved → carvedFrom solved puzzle → completion puzzle solved.
Proof. intros Hs Hc. split; [done|by apply carvedFrom_extends]. Qed.

(** A solved grid is its own and only completion. *)
Lemma completion_solved (solved s : SudokuBoard) :
  isSolved solved → completion solved s ↔ s = solved.
Proof.
  intros Hsolved. split.
  - intros [Hs Hext]. apply board_ext; [by destruct Hs|by destruct Hsolved|].
    intros r c Hr Hc. apply Hext; [done..|].
    apply isSolved_iff in Hsolved as (_ & Hfull & _).
    specialize (Hfull r c Hr Hc). lia.
  - intros ->. split; [done|]. by intros r c _ _ _.
Qed.

(** A carved puzzle that [countSolutions] counts once has the solved grid
    as its only completion. *)
Lemma countSolutions_one_unique (solved puzzle : SudokuBoard) :
  isSolved solved → carvedFrom solved puzzle →
  countSolutions puzzle = Some 1 →
  ∀ s, completion puzzle s ↔ s = solved.
Proof.
  intros Hsolved Hcarved Hcount s.
  pose proof Hcarved as [Hwf _].
  rewrite countSolutions_sols in Hcount by done.
  rewrite <- sols_completions
    by (done || by eapply carvedFrom_digitCells || by eapply carvedFrom_consistent).
  assert (Hin : solved ∈ sols colMajor puzzle).
  { apply sols_completions;
      [done|by eapply carvedFrom_digitCells|by eapply carvedFrom_consistent|].
    by apply completion_of_carved. }
  destruct (sols colMajor puzzle) as [|t [|t' l]]; simpl in Hcount.
  - by apply elem_of_nil in Hin.
  - apply list_elem_of_singleton in Hin as ->. apply list_elem_of_singleton.
  - injection Hcount as Hcount. lia.
Qed.


Lemma randomBelow_lt (n : nat) (o o' : Oracle) (j : nat) :
  randomBelow n o = Some (j, o') → (j < n)%nat.
Proof.
  destruct o as [|x o0]; simpl; [done|].
  destruct (x <? n)%nat eqn:Hlt; [|done].
  intros [= <- <-]. by apply Nat.ltb_lt.
Qed.

Lemma carveStep_inv (solved : SudokuBoard) (toRemove : Z) (st st' : CarveState) :
  isSolved solved → carveInv solved toRemove st → cs_cellsToRemove st > 0 →
  carveStep st = Some st' → carveInv solved toRemove st'.
Proof.
  intros Hsolved (Hcarved & Huniq & Hzeros & Hpos) Hgt.
  unfold carveStep.
  destruct (randomBelow 9 (cs_oracle st)) as [[row o1]|] eqn:Hrow; [|done].
  destruct (randomBelow 9 o1) as [[col o2]|] eqn:Hcol; [|done].
  apply randomBelow_lt in Hrow. apply randomBelow_lt in Hcol.
  destruct (negb (cell (cs_puzzle st) row col =? 0)) eqn:Hfilled.
  - apply negb_Zeqb in Hfilled.
    rewrite map_id_board.
    pose proof (carvedFrom_setCell solved _ row col Hrow Hcol Hcarved) as Hcarved1.
    pose proof Hcarved as [Hwf _]. pose proof Hcarved1 as [Hwf1 _].
    rewrite countSolutions_sols by done.
    destruct (negb (_ =? 1)) eqn:Hone; intros [= <-];
      unfold carveInv; cbn [cs_puzzle cs_cellsToRemove cs_oracle].
    + rewrite setCell_same, setCell_cell. done.
    + apply negb_false_iff, Z.eqb_eq in Hone.
      split; [done|]. split; [|split].
      * apply countSolutions_one_unique; [done..|].
        rewrite countSolutions_sols by done. by f_equal.
      * rewrite countZeros_setCell by done. lia.
      * lia.
  - intros [= <-]. done.
Qed.

Lemma carveLoop_inv (solved : SudokuBoard) (toRemove : Z) (n : nat) :
  ∀ st, isSolved solved → carveInv solved toRemove st →
    carveInv solved toRemove (carveLoop n st).
Proof.
  induction n as [|n IH]; intros st Hsolved Hinv; [done|].
  simpl. destruct (cs_cellsToRemove st >? 0) eqn:Hgt; [|done].
  apply Z.gtb_lt in Hgt.
  destruct (carveStep st) as [st'|] eqn:Hstep; [|done].
  apply IH; [done|]. eapply carveStep_inv; [done..|lia|done].
Qed.

Lemma cellsToRemoveOf_nonneg (difficulty : string) : 0 ≤ cellsToRemoveOf difficulty.
Proof.
  unfold cellsToRemoveOf.
  repeat match goal with |- context [String.eqb ?a ?b] => destruct (String.eqb a b) end;
    lia.
Qed.

Lemma carveInv_init (solved : SudokuBoard) (difficulty : string) (o : Oracle) :
  isSolved solved →
  carveInv solved (cellsToRemoveOf difficulty)
    {| cs_puzzle := map (λ row, row) solved;
       cs_cellsToRemove := cellsToRemoveOf difficulty;
       cs_oracle := o |}.
Proof.
  intros Hsolved. rewrite map_id_board.
  pose proof Hsolved as (Hwf & Hfull & _)%isSolved_iff.
  split; [by apply carvedFrom_self|]. simpl.
  split; [intros s; by apply completion_solved|].
  split; [rewrite countDigit_full_zero by done; lia|].
  apply cellsToRemoveOf_nonneg.
Qed.

(** * A carving run that never ends *)

Lemma carveLoop_halt (n : nat) (s : CarveState) :
  cs_cellsToRemove s ≤ 0 ∨ carveStep s = None → carveLoop n s = s.
Proof.
  intros H. destruct n as [|n]; [done|]. cbn [carveLoop].
  destruct (cs_cellsToRemove s >? 0) eqn:Hgt; [|done].
  destruct H as [H| ->]; [|done]. apply Z.gtb_lt in Hgt. lia.
Qed.

(** Iterations compose. *)
Lemma carveLoop_add (n m : nat) :
  ∀ s, carveLoop (n + m) s = carveLoop m (carveLoop n s).
Proof.
  induction n as [|n IH]; intros s; [done|]. cbn [Nat.add carveLoop].
  destruct (cs_cellsToRemove s >? 0) eqn:Hgt.
  - destruct (carveStep s) as [s'|] eqn:Hstep; [apply IH|].
    symmetry. apply carveLoop_halt. by right.
  - symmetry. apply carveLoop_halt. left.
    rewrite Z.gtb_ltb in Hgt. by apply Z.ltb_ge in Hgt.
Qed.

Lemma carveStep_le (s s' : CarveState) :
  carveStep s = Some s' → cs_cellsToRemove s' ≤ cs_cellsToRemove s.
Proof.
  unfold carveStep.
  destruct (randomBelow 9 (cs_oracle s)) as [[row o1]|]; [|done].
  destruct (randomBelow 9 o1) as [[col o2]|]; [|done].
  destruct (negb (cell (cs_puzzle s) row col =? 0)).
  - destruct (countSolutions _) as [k|]; [|done].
    destruct (negb (k =? 1)); intros [= <-]; simpl; lia.
  - intros [= <-]. simpl. lia.
Qed.

(** The count of cells to remove never grows. *)
Lemma carveLoop_le (n : nat) :
  ∀ s, cs_cellsToRemove (carveLoop n s) ≤ cs_cellsToRemove s.
Proof.
  induction n as [|n IH]; intros s; [done|]. cbn [carveLoop].
  destruct (cs_cellsToRemove s >? 0); [|done].
  destruct (carveStep s) as [s'|] eqn:Hstep; [|done].
  apply carveStep_le in Hstep. specialize (IH s'). lia.
Qed.

(** An iteration reads two draws and leaves the others. *)
Lemma carveStep_draws (puzzle : SudokuBoard) (k : Z) (row col : nat) (o : Oracle) :
  carveStep {| cs_puzzle := puzzle; cs_cellsToRemove := k;
               cs_oracle := row :: col :: o |}
  = option_map (λ s, {| cs_puzzle := cs_puzzle s;
                        cs_cellsToRemove := cs_cellsToRemove s;
                        cs_oracle := o |})
      (carveStep {| cs_puzzle := puzzle; cs_cellsToRemove := k;
                    cs_oracle := [row; col] |}).
Proof.
  unfold carveStep, randomBelow. cbn [cs_oracle cs_puzzle cs_cellsToRemove].
  destruct (row <? 9)%nat; [|done]. destruct (col <? 9)%nat; [|done].
  destruct (negb (cell puzzle row col =? 0)); [|done].
  destruct (countSolutions _) as [c|]; [|done].
  by destruct (negb (c =? 1)).
Qed.

(** The draws [stuckOracle] carve [solvedExample] down to [stuckPuzzle]:
    fifty-six cells are empty and four more are to be removed. *)
Lemma carveLoop_stuckOracle (o : Oracle) :
  carveLoop 56 (carveStart solvedExample "hard" (stuckOracle ++ o))
  = {| cs_puzzle := stuckPuzzle; cs_cellsToRemove := 4; cs_oracle := o |}.
Proof. vm_compute. reflexivity. Qed.

(** From [stuckPuzzle] every iteration restores the cell it empties:
    without any one of its digits the puzzle has two solutions. *)
Lemma carveStep_stuckPuzzle (o : Oracle) (s' : CarveState) :
  carveStep {| cs_puzzle := stuckPuzzle; cs_cellsToRemove := 4; cs_oracle := o |}
  = Some s' →
  cs_puzzle s' = stuckPuzzle ∧ cs_cellsToRemove s' = 4.
Proof.
  assert (forallb (λ row, forallb (λ col,
      match carveStep {| cs_puzzle := stuckPuzzle; cs_cellsToRemove := 4;
                         cs_oracle := [row; col] |} with
      | Some s => bool_decide (cs_puzzle s = stuckPuzzle)
                  && (cs_cellsToRemove s =? 4)
      | None => false
      end) (seq 0 9)) (seq 0 9) = true) as Hall by (vm_compute; reflexivity).
  destruct o as [|row [|col o]].
  { unfold carveStep, randomBelow. cbn [cs_oracle]. intros [=]. }
  { unfold carveStep, randomBelow. cbn [cs_oracle].
    destruct (row <? 9)%nat; intros [=]. }
  rewrite carveStep_draws.
  destruct (carveStep {| cs_puzzle := stuckPuzzle; cs_cellsToRemove := 4;
                         cs_oracle := [row; col] |}) as [s|] eqn:Hstep; [|done].
  intros [= <-]. cbn [cs_puzzle cs_cellsToRemove].
  assert (row < 9 ∧ col < 9)%nat as [Hrow Hcol].
  { revert Hstep. unfold carveStep, randomBelow. cbn [cs_oracle].
    destruct (Nat.ltb_spec row 9) as [Hrow|Hrow]; [|intros [=]].
    destruct (Nat.ltb_spec col 9) as [Hcol|Hcol]; [|intros [=]].
    intros _. exact (conj Hrow Hcol). }
  rewrite List.forallb_forall in Hall.
  assert (In row (seq 0 9)) as Hir by (apply List.in_seq; lia).
  specialize (Hall row Hir). rewrite List.forallb_forall in Hall.
  assert (In col (seq 0 9)) as Hic by (apply List.in_seq; lia).
  specialize (Hall col Hic). rewrite Hstep in Hall.
  apply andb_true_iff in Hall as [Hp Hk].
  apply bool_decide_eq_true in Hp. apply Z.eqb_eq in Hk. done.
Qed.

Lemma carveLoop_stuckPuzzle (n : nat) :
  ∀ o, cs_puzzle (carveLoop n {| cs_puzzle := stuckPuzzle;
                                 cs_cellsToRemove := 4; cs_oracle := o |})
       = stuckPuzzle ∧
       cs_cellsToRemove (carveLoop n {| cs_puzzle := stuckPuzzle;
                                        cs_cellsToRemove := 4; cs_oracle := o |})
       = 4.
Proof.
  induction n as [|n IH]; intros o; [done|]. cbn [carveLoop cs_cellsToRemove].
  change (4 >? 0) with true. cbv iota.
  destruct (carveStep _) as [[p k o']|] eqn:Hstep; [|done].
  apply carveStep_stuckPuzzle in Hstep as [Hp Hk]. cbn in Hp, Hk. subst p k.
  apply IH.
Qed.

(** * The clock *)

Lemma showZ_inj (a b : Z) : showZ a = showZ b → a = b.
Proof.
  unfold showZ. intros H. apply DecimalZ.to_int_inj.
  pose proof (DecimalString.NilEmpty.isi (Z.to_int a)) as Ha.
  pose proof (DecimalString.NilEmpty.isi (Z.to_int b)) as Hb.
  rewrite H in Ha. congruence.
Qed.

Lemma allDigits_uint (d : Decimal.uint) :
  allDigits (DecimalString.NilEmpty.string_of_uint d) = true.
Proof. induction d; simpl; done. Qed.

Lemma allDigits_showZ (n : Z) : 0 ≤ n → allDigits (showZ n) = true.
Proof.
  intros Hn. unfold showZ. destruct n as [|p|p]; [done| |lia].
  apply allDigits_uint.
Qed.

(** A text of digits ends at the first colon. *)
Lemma colon_split (s1 s2 t1 t2 : string) :
  allDigits s1 = true → allDigits s2 = true →
  s1 +:+ ":" +:+ t1 = s2 +:+ ":" +:+ t2 → s1 = s2 ∧ t1 = t2.
Proof.
  revert s2. induction s1 as [|c s1 IH]; intros [|c' s2];
    cbn [String.append allDigits].
  - intros _ _ [= H]. done.
  - intros _ [Hc _]%andb_true_iff [= <- _]. done.
  - intros [Hc _]%andb_true_iff _ [= -> _]. done.
  - intros [_ H1]%andb_true_iff [_ H2]%andb_true_iff [= -> H].
    destruct (IH s2 H1 H2 H) as [-> ->]. done.
Qed.

(** The seconds are written with two digits. *)
Lemma secsText_two (x : Z) :
  0 ≤ x < 60 →
  secsText x = String (digitChar (x / 10)) (String (digitChar (x mod 10)) "").
Proof.
  intros Hx.
  assert (forallb (λ i, String.eqb (secsText (Z.of_nat i))
      (String (digitChar (Z.of_nat i / 10))
         (String (digitChar (Z.of_nat i mod 10)) ""))) (seq 0 60) = true)
    as Hall by (vm_compute; reflexivity).
  rewrite List.forallb_forall in Hall.
  assert (In (Z.to_nat x) (seq 0 60)) as Hix by (apply List.in_seq; lia).
  specialize (Hall _ Hix). rewrite Z2Nat.id in Hall by lia.
  by apply String.eqb_eq.
Qed.

Lemma secsText_inj (x y : Z) :
  0 ≤ x < 60 → 0 ≤ y < 60 → secsText x = secsText y → x = y.
Proof.
  intros Hx Hy H.
  assert (forallb (λ i, forallb (λ j,
      implb (String.eqb (secsText (Z.of_nat i)) (secsText (Z.of_nat j)))
            (i =? j)%nat) (seq 0 60)) (seq 0 60) = true) as Hall
    by (vm_compute; reflexivity).
  rewrite List.forallb_forall in Hall.
  assert (In (Z.to_nat x) (seq 0 60)) as Hix by (apply List.in_seq; lia).
  specialize (Hall _ Hix). rewrite List.forallb_forall in Hall.
  assert (In (Z.to_nat y) (seq 0 60)) as Hiy by (apply List.in_seq; lia).
  specialize (Hall _ Hiy).
  rewrite !Z2Nat.id, H, String.eqb_refl in Hall by lia.
  apply Nat.eqb_eq in Hall. lia.
Qed.

(** * Properties of the play session *)

(** ** The effect that recomputes [numberUsage] *)

Lemma reset_lookup (l : list Z) :
  ∀ (u : gmap Z Z) (d : Z),
    fold_left (λ m i, <[i := 9]> m) l u !!! d
    = if decide (d ∈ l) then 9 else u !!! d.
Proof.
  induction l as [|i l IH]; intros u d; cbn [fold_left].
  - by rewrite decide_False by apply not_elem_of_nil.
  - rewrite IH. destruct (decide (d ∈ l)) as [Hin|Hnin].
    + by rewrite decide_True by (by right).
    + destruct (decide (d = i)) as [->|Hne].
      * rewrite decide_True by left. by rewrite lookup_total_insert_eq.
      * rewrite decide_False by (rewrite elem_of_cons; tauto).
        by rewrite lookup_total_insert_ne.
Qed.

Lemma decrement_lookup (l : list Z) :
  ∀ (m : gmap Z Z) (d : Z), 0 < d →
    fold_left (λ m v, if v >? 0 then <[v := m !!! v - 1]> m else m) l m !!! d
    = m !!! d - Z.of_nat (length (filter (λ v, v = d) l)).
Proof.
  induction l as [|v l IH]; intros m d Hd; cbn [fold_left]; [simpl; lia|].
  rewrite IH by done. rewrite filter_cons.
  destruct (v >? 0) eqn:Hv.
  - destruct (decide (v = d)) as [->|Hne].
    + rewrite lookup_total_insert_eq. simpl. lia.
    + rewrite lookup_total_insert_ne by done. lia.
  - rewrite Z.gtb_ltb in Hv. apply Z.ltb_ge in Hv.
    rewrite decide_False by lia. lia.
Qed.

(** After the effect, the budget of every digit is 9 minus the number of
    cells that hold it. *)
Lemma usageEffect_spec (usage : gmap Z Z) (content : SudokuBoard) (d : Z) :
  1 ≤ d ≤ 9 → usageEffect usage content !!! d = 9 - countDigit content d.
Proof.
  intros Hd. unfold usageEffect, countDigit.
  rewrite decrement_lookup by lia. rewrite reset_lookup.
  rewrite decide_True by (by apply elem_of_digits). done.
Qed.

(** ** Reading the heap after a write *)

Lemma readBoard_length (h : Heap) (board : BoardRef) :
  length (readBoard h board) = length board.
Proof. unfold readBoard. apply length_map. Qed.

Lemma readBoard_nth (h : Heap) (board : BoardRef) (i : nat) :
  (i < length board)%nat →
  nth i (readBoard h board) [] = heapRow h (nth i board 0%nat).
Proof.
  intros Hi. unfold readBoard.
  rewrite (nth_indep _ [] (heapRow h 0%nat)) by (by rewrite length_map).
  apply map_nth.
Qed.

Lemma lookup_nth_lt {A} (l : list A) (i : nat) (d : A) :
  (i < length l)%nat → l !! i = Some (nth i l d).
Proof.
  intros Hi. destruct (lookup_lt_is_Some_2 l i Hi) as [x Hx].
  rewrite Hx. f_equal. symmetry. by apply nth_lookup_Some.
Qed.

Lemma readBoard_writeCell (h : Heap) (board : BoardRef) (row col : nat) (v : Z) :
  NoDup board →
  readBoard (writeCell h board row col v) board
  = setCell (readBoard h board) row col v.
Proof.
  intros Hnd. unfold writeCell, setCell.
  destruct (board !! row) as [l|] eqn:Hl.
  - assert (Hrow : (row < length board)%nat) by (by eapply lookup_lt_Some).
    assert (Hnth : nth row board 0%nat = l) by (by apply nth_lookup_Some).
    apply (nth_ext _ _ [] []).
    { by rewrite length_insert, !readBoard_length. }
    intros i Hi. rewrite readBoard_length in Hi.
    rewrite readBoard_nth by done. unfold heapRow at 1. simpl.
    destruct (decide (row = i)) as [<-|Hne].
    + rewrite Hnth, lookup_insert_eq. simpl.
      rewrite nth_insert_eq by (by rewrite readBoard_length).
      by rewrite readBoard_nth, Hnth.
    + rewrite nth_insert_ne by done.
      rewrite readBoard_nth by done.
      rewrite lookup_insert_ne; [done|].
      intros Heq. apply Hne.
      apply (NoDup_lookup board row i l); [done..|].
      rewrite Heq. by apply lookup_nth_lt.
  - apply lookup_ge_None in Hl.
    rewrite list_insert_ge by (by rewrite readBoard_length). done.
Qed.

Lemma cell_emptyBoard (row col : nat) : cell emptyBoard row col = 0.
Proof.
  unfold cell.
  destruct (decide (row < 9)%nat) as [Hr|Hr].
  - do 9 (destruct row as [|row]; [by do 9 (destruct col as [|col]; [done|]); destruct col|]).
    lia.
  - rewrite (nth_overflow emptyBoard) by (simpl; lia). by destruct col.
Qed.
(** * The seeding of the diagonal boxes *)

Lemma swap_Permutation (array : list Z) (i j : nat) :
  (i < length array)%nat → (j < length array)%nat → swap array i j ≡ₚ array.
Proof.
  intros Hi Hj. unfold swap. apply Permutation_insert_swap.
  - by apply lookup_nth_lt.
  - by apply lookup_nth_lt.
Qed.

Lemma length_swap (array : list Z) (i j : nat) :
  length (swap array i j) = length array.
Proof. unfold swap. by rewrite !length_insert. Qed.

Lemma shuffleLoop_spec (i : nat) :
  ∀ array o, (i < length array)%nat ∨ i = 0%nat →
    match shuffleLoop i array o with
    | Some (r, o') =>
        r ≡ₚ array ∧ drawsOk (boundsFrom i) o = true ∧ o' = drop i o
    | None => drawsOk (boundsFrom i) o = false
    end.
Proof.
  induction i as [|i IH]; intros array o Hi; [done|].
  cbn [shuffleLoop boundsFrom drawsOk]. unfold randomBelow.
  destruct o as [|j o]; [done|].
  destruct (j <? S i + 1)%nat eqn:Hj; [|done].
  apply Nat.ltb_lt in Hj.
  specialize (IH (swap array (S i) j) o).
  rewrite length_swap in IH. specialize (IH ltac:(lia)).
  destruct (shuffleLoop i (swap array (S i) j) o) as [[r o']|]; [|done].
  destruct IH as (Hperm & Hok & ->). split; [|done].
  rewrite Hperm. apply swap_Permutation; lia.
Qed.

(** ** Writes of a fold of [setCell] *)

Lemma wfBoard_fold_setCell (fr fc : nat → nat) (g : nat → Z) (l : list nat) :
  ∀ board, wfBoard board →
    wfBoard (fold_left (λ b i, setCell b (fr i) (fc i) (g i)) l board).
Proof.
  induction l as [|a l IH]; intros board Hwf; [done|].
  cbn [fold_left]. by apply IH, wfBoard_setCell.
Qed.

Lemma cell_fold_setCell_frame (fr fc : nat → nat) (g : nat → Z) (l : list nat)
    (r c : nat) :
  (∀ i, i ∈ l → (fr i, fc i) ≠ (r, c)) →
  ∀ board,
    cell (fold_left (λ b i, setCell b (fr i) (fc i) (g i)) l board) r c =
    cell board r c.
Proof.
  induction l as [|a l IH]; intros Hne board; [done|].
  cbn [fold_left]. rewrite IH.
  - apply cell_setCell_ne, Hne. left.
  - intros i Hi. apply Hne. by right.
Qed.

Lemma cell_fold_setCell_hit (fr fc : nat → nat) (g : nat → Z) (l : list nat)
    (i : nat) :
  (∀ j, j ∈ l → (fr j < 9)%nat ∧ (fc j < 9)%nat) →
  (∀ j, j ∈ l → (fr j, fc j) = (fr i, fc i) → j = i) →
  i ∈ l →
  ∀ board, wfBoard board →
    cell (fold_left (λ b i, setCell b (fr i) (fc i) (g i)) l board)
      (fr i) (fc i) = g i.
Proof.
  induction l as [|a l IH]; intros Hlt Hinj Hi board Hwf.
  { by apply elem_of_nil in Hi. }
  cbn [fold_left].
  destruct (decide (i ∈ l)) as [Hil|Hil].
  - apply IH; try done.
    + intros j Hj. apply Hlt. by right.
    + intros j Hj. apply Hinj. by right.
    + by apply wfBoard_setCell.
  - apply elem_of_cons in Hi as [->|Hi]; [|done].
    rewrite cell_fold_setCell_frame.
    + apply cell_setCell_eq; [done|apply Hlt; left..].
    + intros j Hj Heq. apply Hil. rewrite <- (Hinj j); [done|by right|done].
Qed.

(** ** [fillBox] *)

Lemma wfBoard_writeBox (board : SudokuBoard) (row col : nat) (nums : list Z) :
  wfBoard board → wfBoard (writeBox board row col nums).
Proof.
  intros Hwf. unfold writeBox.
  by apply (wfBoard_fold_setCell (λ index, (row + index / 3)%nat)
    (λ index, (col + index mod 3)%nat) (λ index, nth index nums 0)).
Qed.

Lemma cell_writeBox_in (board : SudokuBoard) (row col : nat) (nums : list Z)
    (index : nat) :
  wfBoard board → (row + 3 ≤ 9)%nat → (col + 3 ≤ 9)%nat → (index < 9)%nat →
  cell (writeBox board row col nums) (row + index / 3) (col + index mod 3) =
  nth index nums 0.
Proof.
  intros Hwf Hrow Hcol Hindex. unfold writeBox.
  apply (cell_fold_setCell_hit (λ index, (row + index / 3)%nat)
    (λ index, (col + index mod 3)%nat) (λ index, nth index nums 0));
    try done.
  - intros j Hj%elem_of_seq. cbv beta. lia.
  - intros j Hj%elem_of_seq. cbv beta. intros Heq.
    pose proof (f_equal fst Heq) as H1. pose proof (f_equal snd Heq) as H2.
    cbn [fst snd] in H1, H2. lia.
  - apply elem_of_seq. lia.
Qed.

Lemma cell_writeBox_out (board : SudokuBoard) (row col : nat) (nums : list Z)
    (r c : nat) :
  ¬ inBox row col r c →
  cell (writeBox board row col nums) r c = cell board r c.
Proof.
  intros Hout. unfold writeBox.
  apply (cell_fold_setCell_frame (λ index, (row + index / 3)%nat)
    (λ index, (col + index mod 3)%nat) (λ index, nth index nums 0)).
  intros i Hi%elem_of_seq. cbv beta. intros Heq.
  pose proof (f_equal fst Heq) as H1. pose proof (f_equal snd Heq) as H2.
  cbn [fst snd] in H1, H2. apply Hout. unfold inBox. lia.
Qed.

Lemma nth_map_seq {A : Type} (f : nat → A) (k n : nat) (d : A) :
  (n < k)%nat → nth n (map f (seq 0 k)) d = f n.
Proof.
  intros Hn.
  rewrite (nth_indep _ d (f 0%nat)) by (by rewrite length_map, length_seq).
  by rewrite (map_nth f), seq_nth.
Qed.

Lemma boxAt_writeBox (board : SudokuBoard) (row col : nat) (nums : list Z) :
  wfBoard board → (row + 3 ≤ 9)%nat → (col + 3 ≤ 9)%nat →
  length nums = 9%nat →
  boxAt (writeBox board row col nums) row col = nums.
Proof.
  intros Hwf Hrow Hcol Hlen. unfold boxAt.
  apply (nth_ext _ _ 0 0).
  { by rewrite length_map, length_seq. }
  intros n Hn. rewrite length_map, length_seq in Hn.
  rewrite nth_map_seq by done.
  by apply cell_writeBox_in.
Qed.

(** ** The draws of the seeding *)

Lemma length_boundsFrom (i : nat) : length (boundsFrom i) = i.
Proof. induction i as [|i IH]; [done|]. cbn [boundsFrom length]. by rewrite IH. Qed.

Lemma drawsOk_app (b1 b2 : list nat) :
  ∀ o, drawsOk (b1 ++ b2) o = drawsOk b1 o && drawsOk b2 (drop (length b1) o).
Proof.
  induction b1 as [|b b1 IH]; intros o; [done|].
  destruct o as [|j o]; [done|].
  cbn [app drawsOk length drop]. rewrite IH. by rewrite andb_assoc.
Qed.

Lemma shuffleArray_spec (array : list Z) (o : Oracle) :
  match shuffleArray array o with
  | Some (r, o') =>
      r ≡ₚ array ∧ drawsOk (boundsFrom (length array - 1)) o = true
      ∧ o' = drop (length array - 1) o
  | None => drawsOk (boundsFrom (length array - 1)) o = false
  end.
Proof. unfold shuffleArray. apply shuffleLoop_spec. lia. Qed.

Lemma fillBox_spec (board : SudokuBoard) (row col : nat) (o : Oracle) :
  match fillBox board row col o with
  | Some (b, o') =>
      ∃ nums, nums ≡ₚ digits ∧ b = writeBox board row col nums
              ∧ drawsOk (boundsFrom 8) o = true ∧ o' = drop 8 o
  | None => drawsOk (boundsFrom 8) o = false
  end.
Proof.
  unfold fillBox. pose proof (shuffleArray_spec digits o) as H.
  destruct (shuffleArray digits o) as [[nums o']|]; [|done].
  destruct H as (Hperm & Hok & ->). by exists nums.
Qed.

Lemma fillDiagonalBoxes_spec (board : SudokuBoard) (o : Oracle) :
  match fillDiagonalBoxes board o with
  | Some (b, o') =>
      ∃ n1 n2 n3, n1 ≡ₚ digits ∧ n2 ≡ₚ digits ∧ n3 ≡ₚ digits ∧
        b = writeBox (writeBox (writeBox board 0 0 n1) 3 3 n2) 6 6 n3
        ∧ drawsOk seedBounds o = true ∧ o' = drop 24 o
  | None => drawsOk seedBounds o = false
  end.
Proof.
  unfold fillDiagonalBoxes, seedBounds.
  rewrite !drawsOk_app, !length_boundsFrom.
  pose proof (fillBox_spec board 0 0 o) as H1.
  destruct (fillBox board 0 0 o) as [[b1 o1]|]; [|by rewrite H1].
  destruct H1 as (n1 & Hn1 & -> & -> & ->).
  pose proof (fillBox_spec (writeBox board 0 0 n1) 3 3 (drop 8 o)) as H2.
  destruct (fillBox _ 3 3 (drop 8 o)) as [[b2 o2]|]; [|by rewrite H2].
  destruct H2 as (n2 & Hn2 & -> & -> & ->).
  pose proof (fillBox_spec (writeBox (writeBox board 0 0 n1) 3 3 n2) 6 6
                (drop 8 (drop 8 o))) as H3.
  destruct (fillBox _ 6 6 (drop 8 (drop 8 o))) as [[b3 o3]|]; [|by rewrite H3].
  destruct H3 as (n3 & Hn3 & -> & -> & ->).
  exists n1, n2, n3. rewrite !drop_drop. done.
Qed.

Lemma cell_writeBox_inBox (board : SudokuBoard) (row col : nat) (nums : list Z)
    (r c : nat) :
  wfBoard board → (row + 3 ≤ 9)%nat → (col + 3 ≤ 9)%nat → inBox row col r c →
  cell (writeBox board row col nums) r c = nth (3 * (r - row) + (c - col)) nums 0.
Proof.
  intros Hwf Hrow Hcol [Hr Hc].
  pose proof (cell_writeBox_in board row col nums (3 * (r - row) + (c - col))
                Hwf Hrow Hcol ltac:(lia)) as H.
  replace (row + (3 * (r - row) + (c - col)) / 3)%nat with r in H by lia.
  replace (col + (3 * (r - row) + (c - col)) mod 3)%nat with c in H by lia.
  done.
Qed.

(** The cells of a seeded board. *)
Lemma cell_seed (n1 n2 n3 : list Z) (r c : nat) :
  (r < 9)%nat → (c < 9)%nat →
  cell (writeBox (writeBox (writeBox emptyBoard 0 0 n1) 3 3 n2) 6 6 n3) r c
  = if bool_decide (r / 3 = c / 3)%nat
    then nth (3 * (r mod 3) + c mod 3)
           (if bool_decide (r / 3 = 0)%nat then n1
            else if bool_decide (r / 3 = 1)%nat then n2 else n3) 0
    else 0.
Proof.
  intros Hr Hc.
  assert (Hwf0 : wfBoard emptyBoard) by (by apply wfBoardb_spec).
  assert (Hwf1 : wfBoard (writeBox emptyBoard 0 0 n1)) by (by apply wfBoard_writeBox).
  assert (Hwf2 : wfBoard (writeBox (writeBox emptyBoard 0 0 n1) 3 3 n2))
    by (by apply wfBoard_writeBox).
  destruct (decide (inBox 6 6 r c)) as [H6|H6].
  { unfold inBox in H6.
    rewrite cell_writeBox_inBox by (done || lia).
    replace (3 * (r - 6) + (c - 6))%nat with (3 * (r mod 3) + c mod 3)%nat by lia.
    rewrite bool_decide_eq_true_2 by lia.
    rewrite bool_decide_eq_false_2 by lia.
    rewrite bool_decide_eq_false_2 by lia. done. }
  rewrite cell_writeBox_out by done.
  destruct (decide (inBox 3 3 r c)) as [H3|H3].
  { unfold inBox in H3.
    rewrite cell_writeBox_inBox by (done || lia).
    replace (3 * (r - 3) + (c - 3))%nat with (3 * (r mod 3) + c mod 3)%nat by lia.
    rewrite bool_decide_eq_true_2 by lia.
    rewrite bool_decide_eq_false_2 by lia.
    rewrite bool_decide_eq_true_2 by lia. done. }
  rewrite cell_writeBox_out by done.
  destruct (decide (inBox 0 0 r c)) as [H0|H0].
  { unfold inBox in H0.
    rewrite cell_writeBox_inBox by (done || lia).
    replace (3 * (r - 0) + (c - 0))%nat with (3 * (r mod 3) + c mod 3)%nat by lia.
    rewrite bool_decide_eq_true_2 by lia.
    rewrite bool_decide_eq_true_2 by lia. done. }
  rewrite cell_writeBox_out by done.
  rewrite cell_emptyBoard.
  rewrite bool_decide_eq_false_2; [done|].
  unfold inBox in *. lia.
Qed.

Lemma Permutation_digits_nth (nums : list Z) (i : nat) :
  nums ≡ₚ digits → (i < 9)%nat → 1 ≤ nth i nums 0 ≤ 9.
Proof.
  intros Hperm Hi. apply elem_of_digits. rewrite <- Hperm.
  apply list_elem_of_In, nth_In. by rewrite (Permutation_length Hperm).
Qed.

Lemma Permutation_digits_inj (nums : list Z) (i j : nat) :
  nums ≡ₚ digits → (i < 9)%nat → (j < 9)%nat →
  nth i nums 0 = nth j nums 0 → i = j.
Proof.
  intros Hperm Hi Hj Heq.
  assert (Hnd : List.NoDup nums).
  { apply NoDup_ListNoDup. rewrite Hperm. apply NoDup_digits. }
  apply (proj1 (List.NoDup_nth nums 0) Hnd); [..|done];
    by rewrite (Permutation_length Hperm).
Qed.

Section seed.
Variables n1 n2 n3 : list Z.
Hypothesis Hn1 : n1 ≡ₚ digits.
Hypothesis Hn2 : n2 ≡ₚ digits.
Hypothesis Hn3 : n3 ≡ₚ digits.

Lemma boxNums_Permutation (k : nat) : boxNums n1 n2 n3 k ≡ₚ digits.
Proof. unfold boxNums. by repeat case_bool_decide. Qed.

Lemma cell_seeded (r c : nat) :
  (r < 9)%nat → (c < 9)%nat →
  cell (seeded n1 n2 n3) r c
  = if bool_decide (r / 3 = c / 3)%nat
    then nth (3 * (r mod 3) + c mod 3) (boxNums n1 n2 n3 (r / 3)) 0 else 0.
Proof. apply cell_seed. Qed.

Lemma wfBoard_seeded : wfBoard (seeded n1 n2 n3).
Proof.
  do 3 apply wfBoard_writeBox. by apply wfBoardb_spec.
Qed.

Lemma digitCells_seeded : digitCells (seeded n1 n2 n3).
Proof.
  intros r c Hr Hc. rewrite cell_seeded by done.
  case_bool_decide; [|lia].
  pose proof (Permutation_digits_nth (boxNums n1 n2 n3 (r / 3))
    (3 * (r mod 3) + c mod 3) (boxNums_Permutation _) ltac:(lia)). lia.
Qed.

Lemma consistent_seeded : consistent (seeded n1 n2 n3).
Proof.
  intros r c r' c' Hr Hc Hr' Hc' Hne Hunit.
  rewrite !cell_seeded by done.
  destruct (bool_decide_reflect (r / 3 = c / 3)%nat) as [Hd|Hd]; [|done].
  intros Hfilled.
  destruct (bool_decide_reflect (r' / 3 = c' / 3)%nat) as [Hd'|Hd']; [|done].
  assert (Hbox : (r / 3 = r' / 3)%nat).
  { destruct Hunit as [->|[->|[? ?]]]; [done|lia|done]. }
  rewrite <- Hbox. intros Heq.
  apply Permutation_digits_inj in Heq;
    [|apply boxNums_Permutation|lia|lia].
  apply Hne. f_equal; lia.
Qed.

Lemma boxOf_seeded (k : nat) :
  (k < 3)%nat → boxOf (seeded n1 n2 n3) (4 * k) = boxNums n1 n2 n3 k.
Proof.
  intros Hk. unfold boxOf.
  pose proof (Permutation_length (boxNums_Permutation k)) as Hlen.
  apply (nth_ext _ _ 0 0).
  { by rewrite length_map, length_seq. }
  intros i Hi. rewrite length_map, length_seq in Hi.
  rewrite nth_map_seq by done.
  rewrite cell_seeded by lia.
  rewrite bool_decide_eq_true_2 by lia.
  replace ((3 * (4 * k / 3) + i / 3) / 3)%nat with k by lia.
  f_equal. lia.
Qed.

Lemma seeded_off_diagonal (r c : nat) :
  (r < 9)%nat → (c < 9)%nat → (r / 3 ≠ c / 3)%nat → cell (seeded n1 n2 n3) r c = 0.
Proof.
  intros Hr Hc Hne. rewrite cell_seeded by done.
  by rewrite bool_decide_eq_false_2.
Qed.
End seed.

(** ** Invariants of the reachable states *)






Lemma settle_gameStarted (old s : State) (d : Dirty) :
  gameStarted (vars (settle old s d)) = gameStarted (vars s).
Proof. unfold settle. by destruct (d_board d && gameStarted (vars s)). Qed.

Lemma settle_board (old s : State) (d : Dirty) :
  board (vars (settle old s d)) = board (vars s).
Proof. unfold settle. by destruct (d_board d && gameStarted (vars s)). Qed.

Lemma settle_solution (old s : State) (d : Dirty) :
  solution (vars (settle old s d)) = solution (vars s).
Proof. unfold settle. by destruct (d_board d && gameStarted (vars s)). Qed.

Lemma settle_heap (old s : State) (d : Dirty) :
  heap (settle old s d) = heap s.
Proof. unfold settle. by destruct (d_board d && gameStarted (vars s)). Qed.

Lemma settle_workingBoard (old s : State) (d : Dirty) :
  workingBoard (settle old s d) = workingBoard s.
Proof. unfold workingBoard. by rewrite settle_heap, settle_board. Qed.

Lemma settle_numberUsage (old s : State) (d : Dirty) :
  numberUsage (vars (settle old s d))
  = if d_board d && gameStarted (vars s)
    then usageEffect (numberUsage (vars s)) (workingBoard s)
    else numberUsage (vars s).
Proof. unfold settle. by destruct (d_board d && gameStarted (vars s)). Qed.

Lemma settle_closureInv (old s : State) (d : Dirty) :
  closureInv old →
  (d_board d = false → board (vars s) = board (vars old)) →
  (d_solution d = false → solution (vars s) = solution (vars old)) →
  closureInv (settle old s d).
Proof.
  intros (Hb & Hs & Hk) Hboard Hsol. unfold closureInv, settle.
  destruct (d_board d) eqn:Hdb; cbn [orb andb].
  - destruct (gameStarted (vars s)) eqn:Hgs; cbn [inputClosure keyListener vars
      withClosures withVars capture c_board c_solution board solution gameStarted
      setNumberUsage].
    + split; [done|]. split; [done|].
      destruct (d_selectedCell d || _ || _ || _) eqn:Hkey;
        cbn [k_gameStarted]; [done|].
      rewrite !orb_false_iff in Hkey. destruct Hkey as [[[_ Hg] _] _].
      apply negb_false_iff, eqb_prop in Hg. congruence.
    + split; [done|]. split; [done|].
      destruct (d_selectedCell d || _ || _ || _) eqn:Hkey;
        cbn [k_gameStarted]; [done|].
      rewrite !orb_false_iff in Hkey. destruct Hkey as [[[_ Hg] _] _].
      apply negb_false_iff, eqb_prop in Hg. congruence.
  - cbn [inputClosure keyListener vars withClosures].
    split; [|split].
    + destruct (negb _ || _ || _ || _ || _ || _); cbn [capture c_board]; [done|].
      rewrite Hb. symmetry. by apply Hboard.
    + destruct (negb (eqb (gameCompleted (vars old)) _) || _ || _ || _ || d_solution d || _)
        eqn:Hin; cbn [capture c_solution]; [done|].
      rewrite !orb_false_iff in Hin. destruct Hin as [[_ Hds] _].
      rewrite Hs. symmetry. by apply Hsol.
    + destruct (d_selectedCell d || _ || _ || _) eqn:Hkey;
        cbn [k_gameStarted]; [done|].
      rewrite !orb_false_iff in Hkey. destruct Hkey as [[[_ Hg] _] _].
      apply negb_false_iff, eqb_prop in Hg. congruence.
Qed.

(** A quiet handler keeps the invariants through the render. *)
Lemma settle_quiet (old s : State) (d : Dirty) :
  sessionInv old → quiet old s d → sessionInv (settle old s d).
Proof.
  intros (Hu & Hc & Hi) (Hdb & Hds & Hheap & Hboard & Husage & Hsol & Hgs).
  split; [|split].
  - intros k Hk. rewrite settle_numberUsage, settle_workingBoard, Hdb.
    cbn [andb]. unfold workingBoard. rewrite Hheap, Hboard, Husage. by apply Hu.
  - apply settle_closureInv; auto.
  - intros Hidle. rewrite settle_gameStarted, Hgs in Hidle.
    rewrite settle_board, settle_workingBoard, settle_solution.
    unfold workingBoard. rewrite Hheap, Hboard, Hsol. by apply Hi.
Qed.

(** A handler that replaces the board while a game is on: the effect
    recomputes the budget. *)
Lemma settle_recount (old s : State) (d : Dirty) :
  closureInv old →
  d_board d = true → gameStarted (vars s) = true →
  (d_solution d = false → solution (vars s) = solution (vars old)) →
  sessionInv (settle old s d).
Proof.
  intros Hc Hdb Hgs Hsol. split; [|split].
  - intros k Hk. rewrite settle_numberUsage, settle_workingBoard, Hdb, Hgs.
    cbn [andb]. rewrite usageEffect_spec by done. lia.
  - apply settle_closureInv; [done| |done]. rewrite Hdb. done.
  - intros Hidle. rewrite settle_gameStarted in Hidle. congruence.
Qed.


Lemma core_toast (t : Toast) (s : State) : core (toast t s) = core s.
Proof. done. Qed.

Lemma core_checkForSmartMove (last : string) (content : SudokuBoard)
    (row col : nat) (num : Z) (s : State) :
  core (checkForSmartMove last content row col num s) = core s.
Proof.
  unfold checkForSmartMove.
  destruct (num =? 0); [done|].
  by destruct (negb _ && negb _).
Qed.

Lemma core_saveBestTime (c : Closure) (s : State) :
  core (saveBestTime c s) = core s.
Proof.
  unfold saveBestTime.
  destruct (negb _); [|done].
  by destruct (match db s !! _ with Some _ => _ | None => _ end).
Qed.

Lemma core_eq (s s' : State) :
  core s = core s' →
  heap s = heap s' ∧ board (vars s) = board (vars s') ∧
  numberUsage (vars s) = numberUsage (vars s') ∧
  solution (vars s) = solution (vars s') ∧
  gameStarted (vars s) = gameStarted (vars s') ∧
  initialBoard (vars s) = initialBoard (vars s').
Proof. unfold core. intros [= -> -> -> -> -> ->]. done. Qed.

Lemma core_quiet (s s' : State) (d : Dirty) :
  core s' = core s → d_board d = false → d_solution d = false → quiet s s' d.
Proof.
  unfold core, quiet. intros [= -> -> -> -> -> _] ? ?. done.
Qed.


(** [handleNumberInput] either rejects the input, and is quiet, or commits
    it: it writes [num] through the board it captured, makes that board
    the working board, and adjusts the budget. *)
Lemma handleNumberInput_shape (c : Closure) (num : Z) (s s' : State) (d : Dirty) :
  handleNumberInput c num s = (s', d) →
  quiet s s' d ∨
  ∃ row col,
    c_selectedCell c = Some (row, col) ∧
    (num = 0 ∨ num = cell (c_solution c) row col) ∧
    d_board d = true ∧ d_solution d = false ∧
    board (vars s') = c_board c ∧
    heap s' = writeCell (heap s) (c_board c) row col num ∧
    numberUsage (vars s')
    = usageAfter (numberUsage (vars s))
        (cell (readBoard (heap s) (c_board c)) row col) num ∧
    solution (vars s') = solution (vars s) ∧
    gameStarted (vars s') = gameStarted (vars s).
Proof.
  unfold handleNumberInput.
  destruct (c_selectedCell c) as [[row col]|]; [|intros [= <- <-]; by left].
  destruct (negb (c_gameCompleted c) && negb (c_isPaused c));
    [|intros [= <- <-]; by left].
  destruct (negb (num =? 0) && negb (num =? cell (c_solution c) row col)) eqn:Hwrong.
  { destruct (_ >=? 3); intros [= <- <-]; by left. }
  destruct (negb (num =? 0) && usageExhausted (c_numberUsage c) num).
  { intros [= <- <-]; by left. }
  cbv zeta.
  set (prev := cell (readBoard (heap s) (c_board c)) row col).
  set (h' := writeCell (heap s) (c_board c) row col num).
  set (s1 := withHeap h' (withVars (setBoard (c_board c)) s)).
  set (s2 := if prev >? 0 then _ else s1).
  set (s3 := if num >? 0 then _ else s2).
  set (s4 := checkForSmartMove _ _ _ _ _ s3).
  set (s5 := if isBoardComplete _ _ then _ else s4).
  intros [= <- <-]. right. exists row, col.
  split; [done|]. split.
  { rewrite andb_false_iff, !negb_false_iff, !Z.eqb_eq in Hwrong. done. }
  split; [done|]. split; [done|].
  assert (Hcore : core s5 = core s3).
  { unfold s5, s4. destruct (isBoardComplete _ _).
    - rewrite core_toast, core_saveBestTime.
      change (core (checkForSmartMove (c_lastSmartMove c)
                (readBoard h' (c_board c)) row col num s3) = core s3).
      apply core_checkForSmartMove.
    - apply core_checkForSmartMove. }
  apply core_eq in Hcore as (-> & -> & -> & -> & -> & _).
  clear s5 s4. subst s3 s2 s1 h' prev. unfold usageAfter.
  destruct (num >? 0), (cell (readBoard (heap s) (c_board c)) row col >? 0);
    repeat split; reflexivity.
Qed.

Lemma quiet_refl (s : State) : quiet s s noDirty.
Proof. by repeat split. Qed.

Lemma handleCellClick_quiet (row col : nat) (s s' : State) (d : Dirty) :
  handleCellClick row col s = (s', d) → quiet s s' d.
Proof.
  unfold handleCellClick.
  destruct (_ && _ && _); intros [= <- <-]; by repeat split.
Qed.

Lemma provideHint_quiet (s s' : State) (d : Dirty) :
  provideHint s = (s', d) → quiet s s' d.
Proof.
  unfold provideHint.
  destruct (selectedCell (vars s)) as [[row col]|]; [|intros [= <- <-]; by repeat split].
  destruct (_ || _ || _); [intros [= <- <-]; by repeat split|].
  destruct (negb _); intros [= <- <-]; by repeat split.
Qed.

Lemma togglePause_quiet (s s' : State) (d : Dirty) :
  togglePause s = (s', d) → quiet s s' d.
Proof.
  unfold togglePause.
  destruct (_ || _); intros [= <- <-]; by repeat split.
Qed.

(** A key press is quiet, or it is an input committed by the captured
    [handleNumberInput] while the listener saw a started game. *)
Lemma handleKeyDown_shape (k : KeyListener) (key : Key) (s s' : State) (d : Dirty) :
  handleKeyDown k key s = (s', d) →
  quiet s s' d ∨
  (k_gameStarted k = true ∧ d_board d = true ∧ d_solution d = false ∧
   solution (vars s') = solution (vars s) ∧
   gameStarted (vars s') = gameStarted (vars s)).
Proof.
  unfold handleKeyDown.
  destruct (k_gameStarted k); cbn [negb orb]; [|intros [= <- <-]; left; apply quiet_refl].
  destruct (k_gameCompleted k || k_isPaused k);
    [intros [= <- <-]; left; apply quiet_refl|].
  destruct (k_selectedCell k) as [[row col]|];
    [|intros [= <- <-]; left; apply quiet_refl].
  assert (Hinput : ∀ n, handleNumberInput (k_input k) n s = (s', d) →
    quiet s s' d ∨
    (true = true ∧ d_board d = true ∧ d_solution d = false ∧
     solution (vars s') = solution (vars s) ∧
     gameStarted (vars s') = gameStarted (vars s))).
  { intros n Hn. apply handleNumberInput_shape in Hn as [Hq|Hcommit]; [by left|].
    right. destruct Hcommit as (r & c & _ & _ & ? & ? & _ & _ & _ & ? & ?). done. }
  destruct key; try apply Hinput; try (intros [= <- <-]; left; apply quiet_refl).
  - destruct (0 <? row)%nat; intros [= <- <-]; left; by repeat split.
  - destruct (row <? 8)%nat; intros [= <- <-]; left; by repeat split.
  - destruct (0 <? col)%nat; intros [= <- <-]; left; by repeat split.
  - destruct (col <? 8)%nat; intros [= <- <-]; left; by repeat split.
Qed.

Lemma generateSudoku_shape (o : Oracle) (s s' : State) (d : Dirty) :
  generateSudoku o s = Some (s', d) →
  d_board d = true ∧ d_solution d = true ∧ gameStarted (vars s') = true.
Proof.
  unfold generateSudoku.
  destruct (generateSolvedBoard o) as [[solvedBoard o1]|]; [|done].
  destruct (createPuzzle _ _ _) as [[puzzleBoard o2]|]; [|done].
  destruct (allocRows _ _) as [newBoard h'].
  intros [= <- <-]. done.
Qed.

(** An input through the current [handleNumberInput] before the first
    game can only erase a cell of the empty board. *)
Lemma padInput_idle (num : Z) (s s' : State) (d : Dirty) :
  sessionInv s → gameStarted (vars s) = false →
  handleNumberInput (inputClosure s) num s = (s', d) →
  sessionInv (settle s s' d).
Proof.
  intros Hinv Hidle Hinput. pose proof Hinv as (Hu & Hc & Hi).
  destruct (Hi Hidle) as (Hnd & Hempty & Hsol).
  destruct Hc as (Hcb & Hcs & Hk).
  apply handleNumberInput_shape in Hinput as [Hq|Hcommit];
    [by apply settle_quiet|].
  destruct Hcommit as (row & col & _ & Hnum & Hdb & Hds & Hboard & Hheap
                       & Husage & Hsol' & Hgs).
  rewrite Hcb in Hboard, Hheap, Husage.
  rewrite Hcs, Hsol, cell_emptyBoard in Hnum.
  assert (num = 0) as -> by tauto.
  fold (workingBoard s) in Husage. rewrite Hempty, cell_emptyBoard in Husage.
  assert (Hwork : workingBoard s' = emptyBoard).
  { unfold workingBoard. rewrite Hheap, Hboard.
    rewrite readBoard_writeCell by done.
    fold (workingBoard s). rewrite Hempty.
    pose proof (setCell_cell emptyBoard row col) as Hsame.
    by rewrite cell_emptyBoard in Hsame. }
  split; [|split].
  - intros k Hk'. rewrite settle_numberUsage, settle_workingBoard, Hgs, Hidle.
    rewrite andb_false_r, Husage, Hwork. rewrite <- Hempty. by apply Hu.
  - apply settle_closureInv; [done|by rewrite Hdb|done].
  - intros _. rewrite settle_board, settle_workingBoard, settle_solution.
    rewrite Hboard, Hwork, Hsol'. done.
Qed.

(** Every event keeps the invariants. *)
Lemma step_sessionInv (e : Event) (s s' : State) :
  sessionInv s → step e s = Some s' → sessionInv s'.
Proof.
  intros Hinv. pose proof Hinv as (Hu & Hc & Hi).
  destruct e as [o|row col|num|key| | | |level]; cbn [step].
  - destruct (generateSudoku o s) as [[s1 d]|] eqn:Hgen; [|done].
    intros [= <-]. apply generateSudoku_shape in Hgen as (Hdb & Hds & Hgs).
    apply settle_recount; try done. congruence.
  - destruct (_ && _); [|done].
    destruct (handleCellClick row col s) as [s1 d] eqn:Hh. intros [= <-].
    apply settle_quiet; [done|]. by eapply handleCellClick_quiet.
  - destruct (_ || _); [|done].
    destruct (handleNumberInput (inputClosure s) num s) as [s1 d] eqn:Hh.
    intros [= <-].
    destruct (gameStarted (vars s)) eqn:Hgs; [|by apply (padInput_idle num)].
    apply handleNumberInput_shape in Hh as [Hq|Hcommit]; [by apply settle_quiet|].
    destruct Hcommit as (r & c & _ & _ & Hdb & Hds & _ & _ & _ & Hsol & Hgs').
    apply settle_recount; try done. congruence.
  - destruct (match key with KeyDigit n => _ | _ => true end); [|done].
    destruct (handleKeyDown (keyListener s) key s) as [s1 d] eqn:Hh.
    intros [= <-].
    apply handleKeyDown_shape in Hh as [Hq|(Hk & Hdb & Hds & Hsol & Hgs)];
      [by apply settle_quiet|].
    pose proof Hc as (_ & _ & Hkg).
    apply settle_recount; try done. congruence.
  - destruct (_ && _); [|done].
    destruct (provideHint s) as [s1 d] eqn:Hh. intros [= <-].
    apply settle_quiet; [done|]. by eapply provideHint_quiet.
  - destruct (gameStarted (vars s)); [|done].
    destruct (togglePause s) as [s1 d] eqn:Hh. intros [= <-].
    apply settle_quiet; [done|]. by eapply togglePause_quiet.
  - destruct (_ && _ && _); [|done]. intros [= <-].
    apply settle_quiet; [done|]. by repeat split.
  - destruct (bool_decide _); [|done]. intros [= <-].
    apply settle_quiet; [done|]. by repeat split.
Qed.

Lemma countDigit_emptyBoard (d : Z) : d ≠ 0 → countDigit emptyBoard d = 0.
Proof.
  intros Hd. unfold countDigit. rewrite filter_none; [done|].
  intros v Hv Heq. subst v.
  change (concat emptyBoard) with (replicate 81 0) in Hv.
  apply elem_of_replicate in Hv as [Hv _]. done.
Qed.

Lemma initialState_workingBoard (name : string) (stored : gmap (string * string) Z) :
  workingBoard (initialState name stored) = emptyBoard.
Proof. by vm_compute. Qed.

Lemma initialState_sessionInv (name : string) (stored : gmap (string * string) Z) :
  sessionInv (initialState name stored).
Proof.
  split; [|split].
  - intros d Hd. rewrite initialState_workingBoard.
    rewrite countDigit_emptyBoard by lia.
    change (numberUsage (vars (initialState name stored))) with allNine.
    unfold allNine. rewrite reset_lookup.
    rewrite decide_True by (by apply elem_of_digits). done.
  - done.
  - intros _. split; [|split]; [|apply initialState_workingBoard|done].
    change (board (vars (initialState name stored))) with (seq 0 9).
    apply NoDup_seq.
Qed.

Lemma reachable_sessionInv (name : string) (stored : gmap (string * string) Z)
    (s : State) :
  reachable name stored s → sessionInv s.
Proof.
  induction 1 as [|s e s' _ IH Hstep].
  - apply initialState_sessionInv.
  - by eapply step_sessionInv.
Qed.

Lemma run_reachable (name : string) (stored : gmap (string * string) Z)
    (events : list Event) :
  ∀ s s', reachable name stored s → run events s = Some s' →
    reachable name stored s'.
Proof.
  induction events as [|e events IH]; intros s s' Hs; simpl.
  - by intros [= <-].
  - destruct (step e s) as [s1|] eqn:Hstep; [|done].
    apply IH. by eapply reachable_step.
Qed.

Lemma stateAfter_reachable (events : list Event) (name : string)
    (stored : gmap (string * string) Z) :
  reachable name stored (stateAfter events name stored).
Proof.
  unfold stateAfter.
  destruct (run events (initialState name stored)) as [s|] eqn:Hrun.
  - eapply run_reachable; [apply reachable_init|done].
  - apply reachable_init.
Defined.

(** ** Freshness of the callbacks and bounds of the counters *)

Lemma eqb_negb_false (a b : bool) : negb (eqb a b) = false → a = b.
Proof. by destruct a, b. Qed.

Lemma settle_vars (old s : State) (d : Dirty) :
  vars (settle old s d)
  = if d_board d && gameStarted (vars s)
    then setNumberUsage (usageEffect (numberUsage (vars s)) (workingBoard s)) (vars s)
    else vars s.
Proof. unfold settle. by destruct (d_board d && gameStarted (vars s)). Qed.

Lemma settle_inputClosure (old s : State) (d : Dirty) :
  freshInput old → honest old s d → freshInput (settle old s d).
Proof.
  intros (Hb & Hg & Hp & Hu & Hsel & Hsol & Hw) (Hdb & Hdu & Hdsel & Hdsol).
  unfold freshInput, settle.
  destruct (d_board d && gameStarted (vars s)) eqn:Hrecount; [done|].
  cbn [inputClosure vars withClosures].
  destruct (d_board d || _ || _ || _ || _ || _ || _) eqn:Hchanged; [done|].
  rewrite !orb_false_iff in Hchanged.
  destruct Hchanged as [[[[[[H1 H2] H3] H4] H5] H6] H7].
  apply eqb_negb_false in H2, H3.
  apply negb_false_iff, Z.eqb_eq in H7.
  rewrite Hb, Hg, Hp, Hu, Hsel, Hsol, Hw. auto 10 using eq_sym.
Qed.

Lemma settle_keyListener (old s : State) (d : Dirty) :
  freshKeys old → honest old s d → freshKeys (settle old s d).
Proof.
  intros (Hgs & Hg & Hp & Hsel) (Hdb & Hdu & Hdsel & Hdsol).
  assert (Hkey : freshKeys (withClosures (inputClosure old)
    (if d_selectedCell d || negb (eqb (gameStarted (vars old)) (gameStarted (vars s)))
        || negb (eqb (gameCompleted (vars old)) (gameCompleted (vars s)))
        || negb (eqb (isPaused (vars old)) (isPaused (vars s)))
     then {| k_gameStarted := gameStarted (vars s);
             k_gameCompleted := gameCompleted (vars s);
             k_isPaused := isPaused (vars s);
             k_selectedCell := selectedCell (vars s);
             k_input := inputClosure old |}
     else keyListener old) s)).
  { unfold freshKeys. cbn [keyListener vars withClosures].
    destruct (d_selectedCell d || _ || _ || _) eqn:Hchanged; [done|].
    rewrite !orb_false_iff in Hchanged.
    destruct Hchanged as [[[H1 H2] H3] H4].
    apply eqb_negb_false in H2, H3, H4.
    rewrite Hgs, Hg, Hp, Hsel. auto 10 using eq_sym. }
  unfold freshKeys in *. unfold settle.
  destruct (d_board d && gameStarted (vars s));
    cbn [keyListener vars withClosures withVars] in *;
    destruct (d_selectedCell d || _ || _ || _); done.
Qed.

(** Case analysis of a handler down to the state it returns. *)
Ltac crack_handler :=
  unfold handleKeyDown, moveSelection, handleNumberInput, handleCellClick,
    provideHint, togglePause, checkForSmartMove, saveBestTime;
  cbv zeta;
  repeat match goal with
         | |- context [match ?x with _ => _ end] =>
             lazymatch x with
             | context [match _ with _ => _ end] => fail
             | _ => destruct x eqn:?
             end
         end;
  intros [= <- <-].

Lemma handleNumberInput_honest (c : Closure) (num : Z) (s s' : State) (d : Dirty) :
  handleNumberInput c num s = (s', d) →
  (d_board d = false → board (vars s') = board (vars s) ∧ heap s' = heap s) ∧
  d_selectedCell d = false ∧ d_solution d = false ∧
  selectedCell (vars s') = selectedCell (vars s) ∧
  solution (vars s') = solution (vars s) ∧
  hintsRemaining (vars s') = hintsRemaining (vars s) ∧
  timer (vars s') = timer (vars s) ∧
  isPaused (vars s') = isPaused (vars s) ∧
  gameStarted (vars s') = gameStarted (vars s) ∧
  initialBoard (vars s') = initialBoard (vars s) ∧
  (d_numberUsage d = false → numberUsage (vars s') = numberUsage (vars s)).
Proof.
  crack_handler; cbn; repeat split; done.
Qed.

Lemma handleNumberInput_attempts (c : Closure) (num : Z) (s s' : State) (d : Dirty) :
  handleNumberInput c num s = (s', d) →
  attemptsOk (c_wrongAttempts c) (c_gameCompleted c) →
  attemptsOk (wrongAttempts (vars s)) (gameCompleted (vars s)) →
  attemptsOk (wrongAttempts (vars s')) (gameCompleted (vars s')).
Proof.
  unfold attemptsOk.
  crack_handler; cbn; intros [Hc1 Hc2] [Hs1 Hs2];
    try done; try (split; [done|]; intros; done);
    repeat match goal with
           | H : _ && _ = true |- _ => apply andb_true_iff in H as [? ?]
           | H : negb _ = true |- _ => apply negb_true_iff in H
           | H : (_ >=? _) = _ |- _ => rewrite Z.geb_leb in H
           | H : (_ <=? _) = true |- _ => apply Z.leb_le in H
           | H : (_ <=? _) = false |- _ => apply Z.leb_gt in H
           end;
    specialize (Hc2 ltac:(done)); split; (lia || done).
Qed.

(** A callback whose guard fails returns at once. *)
Lemma handleNumberInput_ignored (c : Closure) (num : Z) (s : State) :
  c_selectedCell c = None ∨ c_gameCompleted c = true ∨ c_isPaused c = true →
  handleNumberInput c num s = (s, noDirty).
Proof.
  unfold handleNumberInput. intros [->|[Hg|Hp]]; [done|..];
    destruct (c_selectedCell c) as [[row col]|]; try done.
  - by rewrite Hg.
  - rewrite Hp. by destruct (c_gameCompleted c).
Qed.

Lemma settle_same (s : State) : settle s s noDirty = s.
Proof.
  unfold settle. cbn [noDirty d_board d_numberUsage d_selectedCell d_solution andb orb].
  rewrite !eqb_reflx, Z.eqb_refl. by destruct s.
Qed.

Lemma settle_k_input (old s : State) (d : Dirty) :
  k_input (keyListener (settle old s d)) = k_input (keyListener old) ∨
  k_input (keyListener (settle old s d)) = inputClosure old ∨
  k_input (keyListener (settle old s d)) = capture (vars s).
Proof.
  unfold settle.
  destruct (d_board d && gameStarted (vars s));
    cbn [keyListener withClosures];
    destruct (d_selectedCell d || _ || _ || _); cbn [k_input]; auto;
    destruct (d_board d || _ || _ || _ || _ || _ || _); auto.
Qed.

Lemma settle_playInv (old s : State) (d : Dirty) :
  playInv old → honest old s d →
  attemptsOk (wrongAttempts (vars s)) (gameCompleted (vars s)) →
  0 ≤ hintsRemaining (vars s) ≤ 3 → 0 ≤ timer (vars s) →
  selectionOk (selectedCell (vars s)) →
  playInv (settle old s d).
Proof.
  intros (Hfi & Hfk & Ha & Hka & Hh & Ht & Hsel) Hhonest Ha' Hh' Ht' Hsel'.
  split; [by apply settle_inputClosure|].
  split; [by apply settle_keyListener|].
  assert (Hfields :
    wrongAttempts (vars (settle old s d)) = wrongAttempts (vars s) ∧
    gameCompleted (vars (settle old s d)) = gameCompleted (vars s) ∧
    hintsRemaining (vars (settle old s d)) = hintsRemaining (vars s) ∧
    timer (vars (settle old s d)) = timer (vars s) ∧
    selectedCell (vars (settle old s d)) = selectedCell (vars s)).
  { rewrite settle_vars. by destruct (d_board d && gameStarted (vars s)). }
  destruct Hfields as (-> & -> & -> & -> & ->).
  split; [done|]. split; [|done].
  destruct (settle_k_input old s d) as [-> | [-> | ->]]; [done| |done].
  destruct Hfi as (_ & -> & _ & _ & _ & _ & ->). done.
Qed.

Lemma generateSudoku_vars (o : Oracle) (s s' : State) (d : Dirty) :
  generateSudoku o s = Some (s', d) →
  d = {| d_board := true; d_numberUsage := false;
         d_selectedCell := false; d_solution := true |} ∧
  gameStarted (vars s') = true ∧ gameCompleted (vars s') = false ∧
  isPaused (vars s') = false ∧ timer (vars s') = 0 ∧
  wrongAttempts (vars s') = 0 ∧ hintsRemaining (vars s') = 3 ∧
  lastSmartMove (vars s') = "" ∧
  selectedCell (vars s') = selectedCell (vars s) ∧
  numberUsage (vars s') = numberUsage (vars s) ∧
  difficulty (vars s') = difficulty (vars s) ∧
  playerName (vars s') = playerName (vars s) ∧
  bestTimes (vars s') = bestTimes (vars s) ∧
  db s' = db s ∧ toasts s' = toasts s.
Proof.
  unfold generateSudoku.
  destruct (generateSolvedBoard o) as [[solvedBoard o1]|]; [|done].
  destruct (createPuzzle _ _ _) as [[puzzleBoard o2]|]; [|done].
  destruct (allocRows _ _) as [newBoard h'].
  intros [= <- <-]. done.
Qed.

Lemma step_playInv (e : Event) (s s' : State) :
  playInv s → step e s = Some s' → playInv s'.
Proof.
  intros Hinv. pose proof Hinv as (Hfi & Hfk & Ha & Hka & Hh & Ht & Hsel).
  destruct e as [o|row col|num|key| | | |level]; cbn [step].
  - destruct (generateSudoku o s) as [[s1 d]|] eqn:Hgen; [|done].
    intros [= <-].
    apply generateSudoku_vars in Hgen
      as (-> & _ & Hg & _ & Htm & Hw & Hhint & _ & Hs & Hu & _).
    apply settle_playInv; try done.
    + rewrite Hw, Hg. unfold attemptsOk. lia.
    + lia.
    + lia.
    + by rewrite Hs.
  - destruct (row <? 9)%nat eqn:Hrow; [|done].
    destruct (col <? 9)%nat eqn:Hcol; [|done]. cbn [andb].
    apply Nat.ltb_lt in Hrow, Hcol.
    unfold handleCellClick.
    destruct (_ && _ && _); intros [= <-]; by apply settle_playInv.
  - destruct (_ || _); [|done].
    destruct (handleNumberInput (inputClosure s) num s) as [s1 d] eqn:Hh1.
    intros [= <-].
    pose proof (handleNumberInput_attempts _ _ _ _ _ Hh1) as Ha1.
    apply handleNumberInput_honest in Hh1
      as (Hb & Hds & Hdsol & Hs1 & Hsol1 & Hh1 & Ht1 & _ & _ & _ & Hu1).
    apply settle_playInv; try done.
    + split; [apply Hb|]. by rewrite Hds, Hdsol.
    + apply Ha1; [|done].
      destruct Hfi as (_ & -> & _ & _ & _ & _ & ->). done.
    + by rewrite Hh1.
    + by rewrite Ht1.
    + by rewrite Hs1.
  - destruct (match key with KeyDigit n => _ | _ => true end); [|done].
    destruct (handleKeyDown (keyListener s) key s) as [s1 d] eqn:Hh1.
    intros [= <-].
    assert (Hinput : ∀ n, handleNumberInput (k_input (keyListener s)) n s = (s1, d) →
      playInv (settle s s1 d)).
    { intros n Hn.
      pose proof (handleNumberInput_attempts _ _ _ _ _ Hn) as Ha1.
      apply handleNumberInput_honest in Hn
        as (Hb & Hds & Hdsol & Hs1 & Hsol1 & Hh2 & Ht1 & _ & _ & _ & Hu1).
      apply settle_playInv; try done.
      - split; [apply Hb|]. by rewrite Hds, Hdsol.
      - by apply Ha1.
      - by rewrite Hh2.
      - by rewrite Ht1.
      - by rewrite Hs1. }
    unfold handleKeyDown in Hh1.
    destruct (negb _ || _ || _); [injection Hh1 as <- <-; by apply settle_playInv|].
    destruct Hfk as (_ & _ & _ & Hksel). rewrite Hksel in Hh1.
    destruct (selectedCell (vars s)) as [[row col]|] eqn:Hcell;
      [|injection Hh1 as <- <-; apply settle_playInv; try done; by rewrite Hcell].
    cbn [selectionOk] in Hsel.
    assert (Hsame : playInv (settle s s noDirty)).
    { apply settle_playInv; try done. by rewrite Hcell. }
    assert (Hmove : ∀ r c, (r < 9)%nat → (c < 9)%nat →
      playInv (settle s (withVars (setSelectedCell (Some (r, c))) s)
        {| d_board := false; d_numberUsage := false;
           d_selectedCell := true; d_solution := false |})).
    { intros r c Hr Hc. by apply settle_playInv. }
    destruct key; try (by eapply Hinput); try (injection Hh1 as <- <-; done).
    + destruct (0 <? row)%nat eqn:Hlt; injection Hh1 as <- <-; [|done].
      apply Hmove; lia.
    + destruct (row <? 8)%nat eqn:Hlt; injection Hh1 as <- <-; [|done].
      apply Nat.ltb_lt in Hlt. apply Hmove; lia.
    + destruct (0 <? col)%nat eqn:Hlt; injection Hh1 as <- <-; [|done].
      apply Hmove; lia.
    + destruct (col <? 8)%nat eqn:Hlt; injection Hh1 as <- <-; [|done].
      apply Nat.ltb_lt in Hlt. apply Hmove; lia.
  - destruct (_ && _); [|done]. unfold provideHint.
    destruct (selectedCell (vars s)) as [[row col]|] eqn:Hcell;
      [|intros [= <-]; apply settle_playInv; try done; by rewrite Hcell].
    destruct (hintsRemaining (vars s) <=? 0) eqn:Hle; cbn [orb];
      [intros [= <-]; apply settle_playInv; try done; by rewrite Hcell|].
    apply Z.leb_gt in Hle.
    destruct (_ || _);
      [intros [= <-]; apply settle_playInv; try done; by rewrite Hcell|].
    destruct (negb _); intros [= <-]; apply settle_playInv; try done;
      cbn; try (by rewrite Hcell); lia.
  - destruct (gameStarted (vars s)); [|done]. unfold togglePause.
    destruct (_ || _); intros [= <-]; by apply settle_playInv.
  - destruct (_ && _ && _); [|done]. intros [= <-].
    apply settle_playInv; try done. cbn. lia.
  - destruct (bool_decide _); [|done]. intros [= <-].
    by apply settle_playInv.
Qed.

Lemma initialState_playInv (name : string) (stored : gmap (string * string) Z) :
  playInv (initialState name stored).
Proof.
  unfold playInv, freshInput, freshKeys, attemptsOk. cbn.
  repeat split; (done || lia).
Qed.

Lemma reachable_playInv (name : string) (stored : gmap (string * string) Z)
    (s : State) :
  reachable name stored s → playInv s.
Proof.
  induction 1 as [|s e s' _ IH Hstep].
  - apply initialState_playInv.
  - by eapply step_playInv.
Qed.

Lemma settle_toasts (old s : State) (d : Dirty) :
  toasts (settle old s d) = toasts s ∧ db (settle old s d) = db s.
Proof. unfold settle. by destruct (d_board d && gameStarted (vars s)). Qed.

Lemma settle_fields (old s : State) (d : Dirty) :
  wrongAttempts (vars (settle old s d)) = wrongAttempts (vars s) ∧
  gameCompleted (vars (settle old s d)) = gameCompleted (vars s) ∧
  hintsRemaining (vars (settle old s d)) = hintsRemaining (vars s) ∧
  timer (vars (settle old s d)) = timer (vars s) ∧
  selectedCell (vars (settle old s d)) = selectedCell (vars s) ∧
  isPaused (vars (settle old s d)) = isPaused (vars s) ∧
  initialBoard (vars (settle old s d)) = initialBoard (vars s) ∧
  difficulty (vars (settle old s d)) = difficulty (vars s) ∧
  bestTimes (vars (settle old s d)) = bestTimes (vars s) ∧
  lastSmartMove (vars (settle old s d)) = lastSmartMove (vars s).
Proof. rewrite settle_vars. by destruct (d_board d && gameStarted (vars s)). Qed.

(** A key press leaves the clock, the hints and the pause flag alone. *)
Lemma handleKeyDown_fields (k : KeyListener) (key : Key) (s s' : State) (d : Dirty) :
  handleKeyDown k key s = (s', d) →
  timer (vars s') = timer (vars s) ∧
  hintsRemaining (vars s') = hintsRemaining (vars s) ∧
  isPaused (vars s') = isPaused (vars s).
Proof.
  unfold handleKeyDown.
  destruct (negb _ || _ || _); [by intros [= <- <-]|].
  destruct (k_selectedCell k) as [[row col]|]; [|by intros [= <- <-]].
  assert (Hinput : ∀ n, handleNumberInput (k_input k) n s = (s', d) →
    timer (vars s') = timer (vars s) ∧
    hintsRemaining (vars s') = hintsRemaining (vars s) ∧
    isPaused (vars s') = isPaused (vars s)).
  { intros n Hn. apply handleNumberInput_honest in Hn. tauto. }
  destruct key; try apply Hinput; unfold moveSelection;
    try (by intros [= <- <-]);
    match goal with |- context [if ?b then _ else _] => destruct b end;
    by intros [= <- <-].
Qed.

Lemma step_PauseClick (s s' : State) :
  step PauseClick s = Some s' → gameCompleted (vars s) = false →
  vars s' = setIsPaused (negb (isPaused (vars s))) (vars s) ∧
  heap s' = heap s ∧ db s' = db s ∧
  toasts s' = ToastPause (isPaused (vars s)) :: toasts s.
Proof.
  intros Hstep Hg. cbn [step] in Hstep.
  destruct (gameStarted (vars s)) eqn:Hgs; [|done].
  unfold togglePause in Hstep. rewrite Hgs, Hg in Hstep. cbn [negb orb] in Hstep.
  injection Hstep as <-.
  rewrite settle_vars, settle_heap.
  match goal with |- context [settle ?a ?b ?c] =>
    destruct (settle_toasts a b c) as (-> & ->)
  end.
  done.
Qed.

(** ** Board objects *)

Lemma allocRows_frame (rows : SudokuBoard) :
  ∀ (h : Heap) (l : nat), (l < h_next h)%nat →
    h_rows (allocRows h rows).2 !! l = h_rows h !! l.
Proof.
  induction rows as [|row rest IH]; intros h l Hl; [done|].
  cbn [allocRows].
  destruct (allocRows _ rest) as [ls h'] eqn:Hrest. cbn [snd].
  change h' with (ls, h').2. rewrite <- Hrest.
  rewrite IH by (simpl; lia). simpl. apply lookup_insert_ne. lia.
Qed.

Lemma allocRows_read (rows : SudokuBoard) :
  ∀ h : Heap, readBoard (allocRows h rows).2 (allocRows h rows).1 = rows.
Proof.
  induction rows as [|row rest IH]; intros h; [done|].
  cbn [allocRows].
  pose proof (IH {| h_rows := <[h_next h := row]> (h_rows h);
                    h_next := S (h_next h) |}) as Hread.
  pose proof (allocRows_frame rest
    {| h_rows := <[h_next h := row]> (h_rows h); h_next := S (h_next h) |}
    (h_next h) ltac:(simpl; lia)) as Hframe.
  destruct (allocRows _ rest) as [ls h'].
  cbn [fst snd] in *. unfold readBoard in *. cbn [map]. f_equal; [|done].
  unfold heapRow. rewrite Hframe. simpl. by rewrite lookup_insert_eq.
Qed.

(** What [createPuzzle] returns for a solved grid. *)
Lemma createPuzzle_spec (solved puzzle : SudokuBoard) (difficulty : string)
    (o o' : Oracle) :
  isSolved solved → createPuzzle solved difficulty o = Some (puzzle, o') →
  carvedFrom solved puzzle ∧
  (∀ s, completion puzzle s ↔ s = solved) ∧
  countZeros puzzle = cellsToRemoveOf difficulty.
Proof.
  intros Hsolved. unfold createPuzzle.
  pose proof (carveLoop_inv solved (cellsToRemoveOf difficulty) (length o) _
    Hsolved (carveInv_init solved difficulty o Hsolved))
    as (Hcarved & Huniq & Hzeros & Hpos).
  destruct (cs_cellsToRemove _ >? 0) eqn:Hgt; [done|].
  intros [= <- <-]. rewrite Z.gtb_ltb in Hgt. apply Z.ltb_ge in Hgt.
  split; [done|]. split; [done|]. lia.
Qed.

Lemma allocRows_refs (rows : SudokuBoard) :
  ∀ h : Heap, (allocRows h rows).1 = seq (h_next h) (length rows).
Proof.
  induction rows as [|row rest IH]; intros h; [done|].
  cbn [allocRows].
  pose proof (IH {| h_rows := <[h_next h := row]> (h_rows h);
                    h_next := S (h_next h) |}) as Hrefs.
  destruct (allocRows _ rest) as [ls h']. cbn [fst] in *. simpl. by rewrite Hrefs.
Qed.

(** ** The board objects have nine different rows *)

Lemma generateSudoku_board (o : Oracle) (s s' : State) (d : Dirty) :
  generateSudoku o s = Some (s', d) → NoDup (board (vars s')).
Proof.
  unfold generateSudoku.
  destruct (generateSolvedBoard o) as [[solvedBoard o1]|]; [|done].
  destruct (createPuzzle _ _ _) as [[puzzleBoard o2]|]; [|done].
  pose proof (allocRows_refs puzzleBoard (heap s)) as Hrefs.
  destruct (allocRows _ _) as [newBoard h'].
  intros [= <- <-]. cbn in *. rewrite Hrefs. apply NoDup_seq.
Qed.

Lemma handleNumberInput_board (c : Closure) (num : Z) (s s' : State) (d : Dirty) :
  handleNumberInput c num s = (s', d) →
  board (vars s') = board (vars s) ∨ board (vars s') = c_board c.
Proof. crack_handler; cbn; auto. Qed.

Lemma handleKeyDown_board (k : KeyListener) (key : Key) (s s' : State) (d : Dirty) :
  handleKeyDown k key s = (s', d) →
  board (vars s') = board (vars s) ∨ board (vars s') = c_board (k_input k).
Proof.
  unfold handleKeyDown.
  destruct (negb _ || _ || _); [intros [= <- <-]; by left|].
  destruct (k_selectedCell k) as [[row col]|]; [|intros [= <- <-]; by left].
  destruct key; try apply handleNumberInput_board; unfold moveSelection;
    try (intros [= <- <-]; by left);
    match goal with |- context [if ?b then _ else _] => destruct b end;
    intros [= <- <-]; by left.
Qed.

Lemma settle_boardsInv (old s : State) (d : Dirty) :
  boardsInv old → NoDup (board (vars s)) → boardsInv (settle old s d).
Proof.
  intros (Hb & Hc & Hk) Hs. unfold boardsInv.
  rewrite settle_board. split; [done|]. split.
  - unfold settle. destruct (d_board d && gameStarted (vars s)); cbn; [done|].
    by destruct (d_board d || _ || _ || _ || _ || _ || _).
  - by destruct (settle_k_input old s d) as [-> | [-> | ->]].
Qed.

Lemma step_boardsInv (e : Event) (s s' : State) :
  boardsInv s → step e s = Some s' → boardsInv s'.
Proof.
  intros Hinv. pose proof Hinv as (Hb & Hc & Hk).
  destruct e as [o|row col|num|key| | | |level]; cbn [step].
  - destruct (generateSudoku o s) as [[s1 d]|] eqn:Hgen; [|done].
    intros [= <-]. apply settle_boardsInv; [done|].
    by eapply generateSudoku_board.
  - destruct (_ && _); [|done]. unfold handleCellClick.
    destruct (_ && _ && _); intros [= <-]; by apply settle_boardsInv.
  - destruct (_ || _); [|done].
    destruct (handleNumberInput (inputClosure s) num s) as [s1 d] eqn:Hh.
    intros [= <-]. apply settle_boardsInv; [done|].
    by apply handleNumberInput_board in Hh as [-> | ->].
  - destruct (match key with KeyDigit n => _ | _ => true end); [|done].
    destruct (handleKeyDown (keyListener s) key s) as [s1 d] eqn:Hh.
    intros [= <-]. apply settle_boardsInv; [done|].
    by apply handleKeyDown_board in Hh as [-> | ->].
  - destruct (_ && _); [|done].
    destruct (provideHint s) as [s1 d] eqn:Hh. intros [= <-].
    apply settle_boardsInv; [done|].
    apply provideHint_quiet in Hh as (_ & _ & _ & -> & _). done.
  - destruct (gameStarted (vars s)); [|done].
    destruct (togglePause s) as [s1 d] eqn:Hh. intros [= <-].
    apply settle_boardsInv; [done|].
    apply togglePause_quiet in Hh as (_ & _ & _ & -> & _). done.
  - destruct (_ && _ && _); [|done]. intros [= <-].
    by apply settle_boardsInv.
  - destruct (bool_decide _); [|done]. intros [= <-].
    by apply settle_boardsInv.
Qed.

Lemma reachable_boardsInv (name : string) (stored : gmap (string * string) Z)
    (s : State) :
  reachable name stored s → boardsInv s.
Proof.
  induction 1 as [|s e s' _ IH Hstep].
  - unfold boardsInv. cbn. repeat split; apply (NoDup_seq 0 9).
  - by eapply step_boardsInv.
Qed.

(** An input that the callback accepts is written through the board that
    the callback captured. *)
Lemma handleNumberInput_commit (c : Closure) (num : Z) (s : State) (row col : nat) :
  c_selectedCell c = Some (row, col) →
  c_gameCompleted c = false → c_isPaused c = false →
  num = 0 ∨ num = cell (c_solution c) row col →
  (num ≠ 0 → usageExhausted (c_numberUsage c) num = false) →
  ∃ s' d, handleNumberInput c num s = (s', d) ∧ d_board d = true ∧
    board (vars s') = c_board c ∧
    heap s' = writeCell (heap s) (c_board c) row col num ∧
    wrongAttempts (vars s') = wrongAttempts (vars s) ∧
    solution (vars s') = solution (vars s) ∧
    initialBoard (vars s') = initialBoard (vars s) ∧
    gameCompleted (vars s')
    = isBoardComplete (c_solution c)
        (readBoard (writeCell (heap s) (c_board c) row col num) (c_board c))
      || gameCompleted (vars s).
Proof.
  intros Hsel Hg Hp Hnum Hleft. unfold handleNumberInput.
  rewrite Hsel, Hg, Hp. cbn [negb andb].
  assert (negb (num =? 0) && negb (num =? cell (c_solution c) row col) = false)
    as ->.
  { destruct Hnum as [-> | <-]; [done|]. by rewrite Z.eqb_refl, andb_false_r. }
  assert (negb (num =? 0) && usageExhausted (c_numberUsage c) num = false) as ->.
  { destruct (num =? 0) eqn:Hz; [done|]. apply Z.eqb_neq in Hz.
    by rewrite Hleft. }
  cbv zeta. eexists _, _. split; [reflexivity|].
  unfold checkForSmartMove, saveBestTime.
  repeat match goal with
         | |- context [if ?b then _ else _] => destruct b
         | |- context [match ?x with Some _ => _ | None => _ end] => destruct x
         end; cbn; done.
Qed.

(** * Completing a diagonal seeding *)

Open Scope nat_scope.

(** ** The boolean tests *)

Lemma eqList_spec (l m : list nat) : eqList l m = true ↔ l = m.
Proof.
  revert m. induction l as [|a l IH]; intros [|b m]; simpl; try easy.
  rewrite andb_true_iff, Nat.eqb_eq, IH. split.
  - by intros [-> ->].
  - intros [= -> ->]. done.
Qed.

Lemma memList_spec (l : list nat) (ls : list (list nat)) :
  memList l ls = true ↔ l ∈ ls.
Proof.
  unfold memList. rewrite List.existsb_exists, list_elem_of_In. split.
  - intros (m & Hm & Heq). apply eqList_spec in Heq. by subst.
  - intros Hl. exists l. split; [done|]. by apply eqList_spec.
Qed.

Lemma existsb_eqb (a : nat) (l : list nat) :
  existsb (Nat.eqb a) l = true ↔ a ∈ l.
Proof.
  rewrite List.existsb_exists, list_elem_of_In. split.
  - intros (b & Hb & Heq). apply Nat.eqb_eq in Heq. by subst.
  - intros Ha. exists a. split; [done|]. apply Nat.eqb_refl.
Qed.

Lemma nodupb_spec (l : list nat) : nodupb l = true → NoDup l.
Proof.
  induction l as [|a l IH]; simpl; [intros _; apply NoDup_nil_2|].
  rewrite andb_true_iff, negb_true_iff. intros [Ha Hl].
  apply NoDup_cons. split; [|by apply IH].
  intros Hin. apply existsb_eqb in Hin. congruence.
Qed.

Lemma nodupLists_spec (ls : list (list nat)) : nodupLists ls = true → NoDup ls.
Proof.
  induction ls as [|l ls IH]; simpl; [intros _; apply NoDup_nil_2|].
  rewrite andb_true_iff, negb_true_iff. intros [Hl Hls].
  apply NoDup_cons. split; [|by apply IH].
  intros Hin. apply memList_spec in Hin. congruence.
Qed.

(** ** The enumerations *)

Lemma elem_of_signs (n : nat) (s : list nat) :
  s ∈ signs n ↔ length s = n ∧ Forall (λ e, e = 1 ∨ e = 2) s.
Proof.
  revert s. induction n as [|n IH]; intros s; simpl.
  - rewrite list_elem_of_singleton. split.
    + intros ->. done.
    + intros [Hlen _]. by destruct s.
  - rewrite list_elem_of_In, List.in_flat_map. split.
    + intros (t & Ht & Hs). apply list_elem_of_In, IH in Ht as [Hlen Hall].
      simpl in Hs. destruct Hs as [<-|[<-|[]]]; simpl;
        (split; [by rewrite Hlen|apply Forall_cons; split; [lia|done]]).
    + intros [Hlen Hall]. destruct s as [|e s]; [done|].
      apply Forall_cons in Hall as [He Hall].
      exists s. split.
      * apply list_elem_of_In, IH. split; [by injection Hlen|done].
      * simpl. destruct He as [->| ->]; auto.
Qed.

Lemma elem_of_maps3 (n : nat) (u : list nat) :
  u ∈ maps3 n ↔ length u = n ∧ Forall (λ v, v < 3) u.
Proof.
  revert u. induction n as [|n IH]; intros u; simpl.
  - rewrite list_elem_of_singleton. split.
    + intros ->. done.
    + intros [Hlen _]. by destruct u.
  - rewrite list_elem_of_In, List.in_flat_map. split.
    + intros (t & Ht & Hu). apply list_elem_of_In, IH in Ht as [Hlen Hall].
      simpl in Hu. destruct Hu as [<-|[<-|[<-|[]]]]; simpl;
        (split; [by rewrite Hlen|apply Forall_cons; split; [lia|done]]).
    + intros [Hlen Hall]. destruct u as [|v u]; [done|].
      apply Forall_cons in Hall as [Hv Hall].
      exists u. split.
      * apply list_elem_of_In, IH. split; [by injection Hlen|done].
      * simpl. assert (v = 0 ∨ v = 1 ∨ v = 2) as [->|[->| ->]] by lia; auto.
Qed.

Lemma isSign_signs (s : list nat) : isSign s ↔ s ∈ signs 9.
Proof. by rewrite elem_of_signs. Qed.

Lemma NoDup_signs : NoDup (signs 9).
Proof. apply nodupLists_spec. by vm_compute. Qed.

Lemma elem_of_Der (u s : list nat) :
  s ∈ Der u ↔ isSign s ∧ balancedb (plus3 u s) = true.
Proof.
  unfold Der. by rewrite list_elem_of_In, List.filter_In, <- list_elem_of_In,
    <- isSign_signs.
Qed.

Lemma NoDup_Der (u : list nat) : NoDup (Der u).
Proof. apply NoDup_ListNoDup, List.NoDup_filter, NoDup_ListNoDup, NoDup_signs. Qed.

Lemma count3_count_occ (v : nat) (u : list nat) :
  count3 v u = count_occ Nat.eq_dec u v.
Proof.
  unfold count3. induction u as [|a u IH]; simpl; [done|].
  destruct (Nat.eq_dec a v) as [->|Hne].
  - rewrite Nat.eqb_refl. simpl. by rewrite IH.
  - destruct (Nat.eqb_spec v a) as [->|_]; [done|apply IH].
Qed.

Lemma balanced_length (u : list nat) : balanced u → length u = 9.
Proof. unfold balanced. intros Hu. by rewrite (Permutation_length Hu). Qed.

Lemma balanced_lt (u : list nat) : balanced u → Forall (λ v, v < 3) u.
Proof.
  unfold balanced. intros Hu. apply Forall_forall. intros v Hv. rewrite Hu in Hv.
  apply list_elem_of_In in Hv. simpl in Hv. lia.
Qed.

Lemma balanced_balancedb (u : list nat) : balanced u → balancedb u = true.
Proof.
  unfold balanced. intros Hu. unfold balancedb. rewrite !count3_count_occ.
  rewrite !(proj1 (Permutation_count_occ Nat.eq_dec _ _) Hu). done.
Qed.

Lemma balanced_elem_of (u : list nat) : balanced u → u ∈ balancedMaps.
Proof.
  intros Hu. unfold balancedMaps.
  rewrite list_elem_of_In, List.filter_In, <- list_elem_of_In, elem_of_maps3.
  split; [split|]; auto using balanced_length, balanced_lt, balanced_balancedb.
Qed.

Lemma isMap9_spec (u : list nat) :
  isMap9 u = true ↔ length u = 9 ∧ Forall (λ v, v < 3) u.
Proof.
  unfold isMap9. rewrite andb_true_iff, Nat.eqb_eq, List.forallb_forall.
  rewrite Forall_forall. split; intros [Hlen Hall]; (split; [done|]).
  - intros v Hv. apply Nat.ltb_lt, Hall. by apply list_elem_of_In.
  - intros v Hv. apply Nat.ltb_lt, Hall. by apply list_elem_of_In.
Qed.

Lemma isPerm9_spec (h : list nat) : isPerm9 h = true → h ≡ₚ seq 0 9.
Proof.
  unfold isPerm9. rewrite andb_true_iff, Nat.eqb_eq, List.forallb_forall.
  intros [Hlen Hall]. symmetry. apply NoDup_Permutation_bis.
  - apply List.seq_NoDup.
  - by rewrite Hlen.
  - intros i Hi. apply list_elem_of_In, existsb_eqb, Hall, Hi.
Qed.

(** ** Lists of residues under a symmetry *)

Lemma nth_zip_with {A B C} (f : A → B → C) (l : list A) (m : list B)
    (i : nat) (a : A) (b : B) (c : C) :
  i < length l → i < length m →
  nth i (zip_with f l m) c = f (nth i l a) (nth i m b).
Proof.
  revert m i. induction l as [|x l IH]; intros [|y m] [|i]; simpl;
    try lia; [done|].
  intros Hl Hm. apply IH; lia.
Qed.

Lemma zip_with_map_same {A B C D} (g : B → C → D) (p : A → B) (q : A → C)
    (l : list A) :
  zip_with g (map p l) (map q l) = map (λ x, g (p x) (q x)) l.
Proof. induction l as [|x l IH]; simpl; [done|by rewrite IH]. Qed.

Lemma length_plus3 (u s : list nat) :
  length u = 9 → length s = 9 → length (plus3 u s) = 9.
Proof. intros Hu Hs. unfold plus3. rewrite length_zip_with. lia. Qed.

Lemma length_minus3 (u s : list nat) :
  length u = 9 → length s = 9 → length (minus3 u s) = 9.
Proof. intros Hu Hs. unfold minus3. rewrite length_zip_with. lia. Qed.

Lemma Forall_nth_lt {A} (P : A → Prop) (l : list A) (i : nat) (d : A) :
  Forall P l → i < length l → P (nth i l d).
Proof.
  intros Hall Hi. rewrite Forall_forall in Hall. apply Hall.
  apply list_elem_of_In, List.nth_In, Hi.
Qed.

(** Two lists of length [n] put the digits on different cells when no two
    digits agree on both. *)
Lemma ok_nth (n : nat) (P K : list nat) :
  length P = n → length K = n →
  ok P K ↔
  ∀ i j, i < n → j < n →
    nth i P 0 = nth j P 0 → nth i K 0 = nth j K 0 → i = j.
Proof.
  intros HP HK. unfold ok.
  rewrite NoDup_ListNoDup, (List.NoDup_nth _ (0, 0)).
  assert (length (zip P K) = n) as Hlen by (rewrite length_zip_with; lia).
  rewrite Hlen. split.
  - intros H i j Hi Hj HPij HKij. apply H; [done..|].
    rewrite !(nth_zip_with _ _ _ _ 0 0) by lia. congruence.
  - intros H i j Hi Hj Heq.
    rewrite !(nth_zip_with _ _ _ _ 0 0) in Heq by lia.
    injection Heq as HPij HKij. by apply H.
Qed.

Lemma ok_sym (P K : list nat) :
  length P = 9 → length K = 9 → ok P K → ok K P.
Proof.
  intros HP HK. rewrite (ok_nth 9 P K), (ok_nth 9 K P) by done.
  intros H i j Hi Hj HKij HPij. by apply H.
Qed.

(** Renaming the rows. *)
Lemma relab_add3 (f : list nat) (a e : nat) :
  f ∈ perms3 → a < 3 → e = 1 ∨ e = 2 →
  nth (add3 a e) f 0 = add3 (nth a f 0) (sgn f e) ∧
  nth (sub3 a e) f 0 = sub3 (nth a f 0) (sgn f e).
Proof.
  intros Hf Ha He.
  assert (a = 0 ∨ a = 1 ∨ a = 2) as Ha' by lia. clear Ha.
  apply list_elem_of_In in Hf. simpl in Hf.
  destruct Hf as [<-|[<-|[<-|[<-|[<-|[<-|[]]]]]]];
    destruct Ha' as [->|[->| ->]]; destruct He as [->| ->]; by vm_compute.
Qed.

Lemma relab_inj (f : list nat) (a b : nat) :
  f ∈ perms3 → a < 3 → b < 3 → nth a f 0 = nth b f 0 → a = b.
Proof.
  intros Hf Ha Hb.
  assert (a = 0 ∨ a = 1 ∨ a = 2) as Ha' by lia.
  assert (b = 0 ∨ b = 1 ∨ b = 2) as Hb' by lia. clear Ha Hb.
  apply list_elem_of_In in Hf. simpl in Hf.
  destruct Hf as [<-|[<-|[<-|[<-|[<-|[<-|[]]]]]]];
    destruct Ha' as [->|[->| ->]]; destruct Hb' as [->|[->| ->]];
    simpl; intros; done.
Qed.

Lemma sgn_sign (f : list nat) (e : nat) :
  e = 1 ∨ e = 2 → sgn f e = 1 ∨ sgn f e = 2.
Proof. unfold sgn. destruct (isRot f); lia. Qed.

Lemma add3_lt (a b : nat) : add3 a b < 3.
Proof. unfold add3. apply Nat.mod_upper_bound. lia. Qed.

Lemma sub3_lt (a b : nat) : sub3 a b < 3.
Proof. unfold sub3. apply Nat.mod_upper_bound. lia. Qed.

Lemma Forall_plus3 (u s : list nat) : Forall (λ v, v < 3) (plus3 u s).
Proof.
  unfold plus3. revert s. induction u as [|a u IH]; intros [|e s]; simpl;
    try apply Forall_nil_2.
  apply Forall_cons. split; [apply add3_lt|apply IH].
Qed.

Lemma Forall_minus3 (u s : list nat) : Forall (λ v, v < 3) (minus3 u s).
Proof.
  unfold minus3. revert s. induction u as [|a u IH]; intros [|e s]; simpl;
    try apply Forall_nil_2.
  apply Forall_cons. split; [apply sub3_lt|apply IH].
Qed.

Lemma Permutation_seq_lt (h : list nat) (n : nat) :
  h ≡ₚ seq 0 n → Forall (λ i, i < n) h.
Proof.
  intros Hh. apply Forall_forall. intros i Hi. rewrite Hh in Hi.
  by apply elem_of_seq_lt in Hi.
Qed.

(** Rows plus signs, moved by a symmetry. *)
Lemma plus3_tr (f h u s : list nat) :
  f ∈ perms3 → Forall (λ i, i < 9) h →
  length u = 9 → Forall (λ v, v < 3) u → isSign s →
  plus3 (tr f h u) (ts f h s) = relab f (comp (plus3 u s) h) ∧
  minus3 (tr f h u) (ts f h s) = relab f (comp (minus3 u s) h).
Proof.
  intros Hf Hh Hu Hlt [Hs Hsign].
  unfold plus3, minus3, tr, ts, relab, comp.
  rewrite !List.map_map, !zip_with_map_same.
  split; apply List.map_ext_in; intros i Hi.
  - apply list_elem_of_In in Hi. rewrite Forall_forall in Hh.
    specialize (Hh i Hi).
    rewrite (nth_zip_with _ _ _ _ 0 0) by lia. symmetry.
    apply relab_add3; [done|apply Forall_nth_lt; [done|lia]|].
    apply (Forall_nth_lt (λ e, e = 1 ∨ e = 2)); [done|lia].
  - apply list_elem_of_In in Hi. rewrite Forall_forall in Hh.
    specialize (Hh i Hi).
    rewrite (nth_zip_with _ _ _ _ 0 0) by lia. symmetry.
    apply relab_add3; [done|apply Forall_nth_lt; [done|lia]|].
    apply (Forall_nth_lt (λ e, e = 1 ∨ e = 2)); [done|lia].
Qed.

(** A symmetry keeps the digits on different cells. *)
Lemma ok_tr (f f' h P K : list nat) :
  f ∈ perms3 → f' ∈ perms3 → h ≡ₚ seq 0 9 →
  length P = 9 → length K = 9 →
  Forall (λ v, v < 3) P → Forall (λ v, v < 3) K →
  ok P K → ok (relab f (comp P h)) (relab f' (comp K h)).
Proof.
  intros Hf Hf' Hh HP HK HPlt HKlt Hok.
  unfold ok, relab, comp. rewrite !List.map_map, zip_with_map_same.
  apply NoDup_map_on.
  - rewrite Hh. apply NoDup_seq.
  - intros i j Hi Hj [= Hpi Hki].
    rewrite Hh in Hi, Hj. apply elem_of_seq_lt in Hi, Hj.
    apply relab_inj in Hpi; [|done|apply Forall_nth_lt; [done|lia]..].
    apply relab_inj in Hki; [|done|apply Forall_nth_lt; [done|lia]..].
    by apply (proj1 (ok_nth 9 P K HP HK) Hok).
Qed.

Lemma isSign_ts (f h s : list nat) :
  Forall (λ i, i < 9) h → length h = 9 → isSign s → isSign (ts f h s).
Proof.
  intros Hh Hlen [Hs Hsign]. unfold ts, comp. split.
  - by rewrite !length_map.
  - rewrite List.map_map. apply Forall_forall. intros e He.
    apply list_elem_of_In, List.in_map_iff in He as (i & <- & Hi).
    apply sgn_sign. rewrite Forall_forall in Hh.
    apply (Forall_nth_lt (λ e, e = 1 ∨ e = 2)); [done|].
    rewrite Hs. apply Hh. by apply list_elem_of_In.
Qed.

Lemma tr_map (f h u : list nat) :
  f ∈ perms3 → length h = 9 → Forall (λ i, i < 9) h →
  length u = 9 → Forall (λ v, v < 3) u →
  length (tr f h u) = 9 ∧ Forall (λ v, v < 3) (tr f h u).
Proof.
  intros Hf Hlen Hh Hu Hlt. unfold tr, relab, comp. split.
  - by rewrite !length_map.
  - rewrite List.map_map. apply Forall_forall. intros v Hv.
    apply list_elem_of_In, List.in_map_iff in Hv as (i & <- & Hi).
    rewrite Forall_forall in Hh. apply list_elem_of_In, Hh in Hi.
    assert (nth i u 0 < 3) as Hlt' by (apply Forall_nth_lt; [done|lia]).
    assert (nth i u 0 = 0 ∨ nth i u 0 = 1 ∨ nth i u 0 = 2) as Hc by lia.
    apply list_elem_of_In in Hf. simpl in Hf.
    destruct Hf as [<-|[<-|[<-|[<-|[<-|[<-|[]]]]]]];
      destruct Hc as [->|[->| ->]]; simpl; lia.
Qed.

(** ** The joined pairs under a symmetry *)

Lemma balanced_isMap (u : list nat) : balanced u → isMap u.
Proof. split; [by apply balanced_length|by apply balanced_lt]. Qed.

Lemma isMap_plus3 (u s : list nat) : isMap u → isSign s → isMap (plus3 u s).
Proof.
  intros [Hu _] [Hs _]. split; [by apply length_plus3|apply Forall_plus3].
Qed.

Lemma isMap_minus3 (u s : list nat) : isMap u → isSign s → isMap (minus3 u s).
Proof.
  intros [Hu _] [Hs _]. split; [by apply length_minus3|apply Forall_minus3].
Qed.

Lemma ok_moved (f f' h u u' s s' : list nat) :
  f ∈ perms3 → f' ∈ perms3 → h ≡ₚ seq 0 9 →
  isMap u → isMap u' → isSign s → isSign s' →
  ok (plus3 u s) (minus3 u' s') →
  ok (plus3 (tr f h u) (ts f h s)) (minus3 (tr f' h u') (ts f' h s')).
Proof.
  intros Hf Hf' Hh Hu Hu' Hs Hs' Hok.
  pose proof (Permutation_seq_lt h 9 Hh) as Hlt.
  destruct (plus3_tr f h u s Hf Hlt (proj1 Hu) (proj2 Hu) Hs) as [-> _].
  destruct (plus3_tr f' h u' s' Hf' Hlt (proj1 Hu') (proj2 Hu') Hs') as [_ ->].
  apply ok_tr; try done.
  - by apply isMap_plus3.
  - by apply isMap_minus3.
  - apply Forall_plus3.
  - apply Forall_minus3.
Qed.

Lemma fwd_tr (fv fw fx fy h v w x y a b : list nat) :
  fv ∈ perms3 → fw ∈ perms3 → fx ∈ perms3 → fy ∈ perms3 → h ≡ₚ seq 0 9 →
  isMap v → isMap w → isMap x → isMap y → isSign a → isSign b →
  fwd v w x y a b →
  fwd (tr fv h v) (tr fw h w) (tr fx h x) (tr fy h y) (ts fv h a) (ts fw h b).
Proof.
  intros Hfv Hfw Hfx Hfy Hh Hv Hw Hx Hy Ha Hb (s1 & s2 & Hs1 & Hs2 & H1 & H2 & H3).
  pose proof (Permutation_seq_lt h 9 Hh) as Hlt.
  pose proof (Permutation_length Hh) as Hlen. rewrite length_seq in Hlen.
  exists (ts fx h s1), (ts fy h s2).
  split; [by apply isSign_ts|]. split; [by apply isSign_ts|].
  split; [|split]; by apply ok_moved.
Qed.

(** The other half is the first one read backwards. *)
Lemma plus3_neg3 (u s : list nat) :
  Forall (λ e, e = 1 ∨ e = 2) s →
  plus3 u (neg3 s) = minus3 u s ∧ minus3 u (neg3 s) = plus3 u s.
Proof.
  intros Hs. revert u. induction Hs as [|e s He Hs IH]; intros [|a u]; simpl;
    try done.
  destruct (IH u) as [IH1 IH2]. unfold plus3, minus3 in *. simpl.
  rewrite IH1, IH2. unfold add3, sub3.
  split; f_equal; f_equal; lia.
Qed.

Lemma isSign_neg3 (s : list nat) : isSign s → isSign (neg3 s).
Proof.
  intros [Hs Hsign]. unfold neg3. split; [by rewrite length_map|].
  apply Forall_forall. intros e He.
  apply list_elem_of_In, List.in_map_iff in He as (e' & <- & He').
  rewrite Forall_forall in Hsign. apply list_elem_of_In, Hsign in He'. lia.
Qed.

Lemma fwd_bwd (x y a b : list nat) :
  isMap x → isMap y → isSign a → isSign b →
  fwd rows3 cols3 y x a b → bwd x y (neg3 a) (neg3 b).
Proof.
  intros Hx Hy Ha Hb (s1 & s2 & Hs1 & Hs2 & H1 & H2 & H3).
  assert (isMap rows3) as Hr by (split; [done|repeat constructor]).
  assert (isMap cols3) as Hc by (split; [done|repeat constructor]).
  exists (neg3 s2), (neg3 s1).
  split; [by apply isSign_neg3|]. split; [by apply isSign_neg3|].
  rewrite (proj1 (plus3_neg3 cols3 b (proj2 Hb))).
  rewrite (proj2 (plus3_neg3 x s2 (proj2 Hs2))).
  rewrite (proj1 (plus3_neg3 x s2 (proj2 Hs2))).
  rewrite (proj2 (plus3_neg3 y s1 (proj2 Hs1))).
  rewrite (proj1 (plus3_neg3 y s1 (proj2 Hs1))).
  rewrite (proj2 (plus3_neg3 rows3 a (proj2 Ha))).
  split; [|split]; apply ok_sym; try done;
    try (apply length_plus3; by destruct Hx, Hy, Hr, Hc, Ha, Hb, Hs1, Hs2);
    try (apply length_minus3; by destruct Hx, Hy, Hr, Hc, Ha, Hb, Hs1, Hs2).
Qed.

(** ** What the checks on the symmetries give *)

Lemma movesDer_spec (T : list nat → list nat) (u u' : list nat) :
  movesDer T u u' = true →
  (∀ a, a ∈ Der u → T a ∈ Der u') ∧
  (∀ a a', a ∈ Der u → a' ∈ Der u → T a = T a' → a = a').
Proof.
  unfold movesDer. cbv zeta. rewrite andb_true_iff, List.forallb_forall.
  intros [Hin Hnd]. split.
  - intros a Ha. apply memList_spec, Hin. by apply list_elem_of_In.
  - intros a a' Ha Ha' Heq.
    apply (NoDup_map_inj_on T (Der u)); [by apply nodupLists_spec|done..].
Qed.

Lemma symmetries_ok (g : Symmetry) : g ∈ symmetries → symCheck g = true.
Proof.
  assert (forallb symCheck symmetries = true) as H by (by vm_compute).
  rewrite List.forallb_forall in H. intros Hg. apply H.
  by apply list_elem_of_In.
Qed.

Lemma to_rep (x : list nat) :
  balanced x →
  ∃ g f r, g ∈ symmetries ∧ f ∈ perms3 ∧ r ∈ reps ∧ x = tr f (sym_h g) r.
Proof.
  intros Hx.
  assert (forallb toRep balancedMaps = true) as H by (by vm_compute).
  rewrite List.forallb_forall in H.
  specialize (H x (proj1 (list_elem_of_In _ _) (balanced_elem_of x Hx))).
  unfold toRep in H. apply List.existsb_exists in H as (g & Hg & H).
  apply List.existsb_exists in H as (f & Hf & H). cbv zeta in H.
  apply andb_true_iff in H as [Hr Heq].
  apply memList_spec in Hr. apply eqList_spec in Heq.
  exists g, f, (tr (inverse f) (sym_hinv g) x).
  split; [by apply list_elem_of_In|]. split; [by apply list_elem_of_In|].
  by split.
Qed.

Lemma elem_of_canonMaps (c : list nat) :
  c ∈ canonMaps ↔ isCanon c = true ∧ balancedb c = true ∧ isMap c.
Proof.
  unfold canonMaps, balancedMaps.
  rewrite list_elem_of_In, !List.filter_In, <- list_elem_of_In, elem_of_maps3.
  unfold isMap. tauto.
Qed.

Lemma to_canon (g : Symmetry) (y : list nat) :
  g ∈ symmetries → balanced y →
  ∃ f c, f ∈ perms3 ∧ c ∈ canonMaps ∧ y = tr f (sym_h g) c.
Proof.
  intros Hg Hy.
  assert (forallb (λ g, forallb (toCanon g) balancedMaps) symmetries = true)
    as H by (by vm_compute).
  rewrite List.forallb_forall in H.
  specialize (H g (proj1 (list_elem_of_In _ _) Hg)).
  rewrite List.forallb_forall in H.
  specialize (H y (proj1 (list_elem_of_In _ _) (balanced_elem_of y Hy))).
  unfold toCanon in H. apply List.existsb_exists in H as (f & Hf & H).
  cbv zeta in H. rewrite !andb_true_iff in H.
  destruct H as [[[Hc Hb] Hm] Heq].
  apply isMap9_spec in Hm. apply eqList_spec in Heq.
  exists f, (tr (inverse f) (sym_hinv g) y).
  split; [by apply list_elem_of_In|]. split; [|done].
  by apply elem_of_canonMaps.
Qed.

(** ** The count is a count of joined pairs *)

Lemma okc_sound (P K : list nat) :
  length P = 9 → length K = 9 → Forall (λ v, v < 3) P →
  okc (classes P) K = true → ok P K.
Proof.
  intros HP HK Hlt Hokc. apply (ok_nth 9); [done..|].
  intros i j Hi Hj HPij HKij.
  assert (nth i P 0 < 3) as Hv by (apply Forall_nth_lt; [done|lia]).
  unfold okc in Hokc. rewrite List.forallb_forall in Hokc.
  assert (In (classOf P (nth i P 0)) (classes P)) as Hin.
  { unfold classes. apply List.in_map. simpl. lia. }
  apply Hokc, nodupb_spec in Hin.
  apply (NoDup_map_inj_on _ _ i j Hin); [| |done].
  - unfold classOf. apply list_elem_of_In, List.filter_In.
    split; [apply List.in_seq; lia|apply Nat.eqb_refl].
  - unfold classOf. apply list_elem_of_In, List.filter_In.
    split; [apply List.in_seq; lia|by apply Nat.eqb_eq].
Qed.

(** *** Sets as machine integers *)

Lemma bit_noBits (i : mask) : Uint63.bit noBits i = false.
Proof. apply Uint63.bit_0. Qed.

(** The bits of [bitIndices] are 56 different bits. *)
Lemma oneBit (n n' : nat) (i i' : mask) :
  bitIndices !! n = Some i → bitIndices !! n' = Some i' →
  Uint63.bit (PrimInt63.lsl firstBit i') i = true → n' = n.
Proof.
  intros Hn Hn' Hb.
  assert (forallb (λ n', forallb (λ n,
      implb (Uint63.bit (PrimInt63.lsl firstBit (nth n' bitIndices noBits))
                        (nth n bitIndices noBits)) (n' =? n))
    (seq 0 56)) (seq 0 56) = true) as H by (vm_compute; reflexivity).
  pose proof (lookup_lt_Some _ _ _ Hn) as Hlt.
  pose proof (lookup_lt_Some _ _ _ Hn') as Hlt'.
  change (length bitIndices) with 56 in Hlt, Hlt'.
  rewrite List.forallb_forall in H.
  assert (In n' (seq 0 56)) as Hin' by (apply List.in_seq; lia).
  specialize (H n' Hin'). rewrite List.forallb_forall in H.
  assert (In n (seq 0 56)) as Hin by (apply List.in_seq; lia).
  specialize (H n Hin).
  rewrite (nth_lookup_Some _ _ _ _ Hn), (nth_lookup_Some _ _ _ _ Hn'), Hb in H.
  by apply Nat.eqb_eq.
Qed.

Lemma elem_of_indexed {A} (l : list A) (i : mask) (a : A) :
  (i, a) ∈ indexed l → ∃ n, bitIndices !! n = Some i ∧ l !! n = Some a.
Proof.
  unfold indexed. intros (n & H)%list_elem_of_lookup_1. exists n.
  by apply lookup_zip_Some.
Qed.

Lemma indexed_elem_of {A} (l : list A) (i : mask) (a : A) :
  (i, a) ∈ indexed l → a ∈ l.
Proof.
  intros (n & _ & H)%elem_of_indexed. by apply list_elem_of_lookup_2 in H.
Qed.

(** Two elements with the same bit are the same. *)
Lemma indexed_same {A} (l : list A) (i i' : mask) (a a' : A) :
  (i, a) ∈ indexed l → (i', a') ∈ indexed l →
  Uint63.bit (PrimInt63.lsl firstBit i') i = true → a' = a.
Proof.
  intros (n & Hn & Ha)%elem_of_indexed (n' & Hn' & Ha')%elem_of_indexed Hb.
  rewrite (oneBit n n' i i' Hn Hn' Hb) in Ha'. congruence.
Qed.

Lemma bit_maskOf {A} (test : A → bool) (l : list (mask * A)) (j : mask) :
  Uint63.bit (maskOf test l) j = true →
  ∃ e, e ∈ l ∧ test e.2 = true ∧
       Uint63.bit (PrimInt63.lsl firstBit e.1) j = true.
Proof.
  unfold maskOf.
  assert (∀ acc,
    Uint63.bit (fold_left (λ acc e,
        if test e.2 then PrimInt63.lor acc (PrimInt63.lsl firstBit e.1)
        else acc) l acc) j = true →
    Uint63.bit acc j = true ∨
    ∃ e, e ∈ l ∧ test e.2 = true ∧
         Uint63.bit (PrimInt63.lsl firstBit e.1) j = true) as Hgen.
  { induction l as [|e l IH]; intros acc; simpl; [by left|].
    intros H. apply IH in H as [H|(e' & He' & H)].
    - destruct (test e.2) eqn:Ht; [|by left].
      rewrite Uint63Axioms.lor_spec in H.
      apply orb_true_iff in H as [H|H]; [by left|].
      right. exists e. split; [left|done].
    - right. exists e'. split; [by right|done]. }
  intros H. apply Hgen in H as [H|H]; [|done]. by rewrite bit_noBits in H.
Qed.

Lemma bit_unionOf {A} (m : mask) (val : A → mask) (l : list (mask * A))
    (j : mask) :
  Uint63.bit (unionOf m val l) j = true →
  ∃ e, e ∈ l ∧ Uint63.bit m e.1 = true ∧ Uint63.bit (val e.2) j = true.
Proof.
  unfold unionOf.
  assert (∀ acc,
    Uint63.bit (fold_left (λ acc e,
        if Uint63.bit m e.1 then PrimInt63.lor acc (val e.2) else acc)
      l acc) j = true →
    Uint63.bit acc j = true ∨
    ∃ e, e ∈ l ∧ Uint63.bit m e.1 = true ∧ Uint63.bit (val e.2) j = true)
    as Hgen.
  { induction l as [|e l IH]; intros acc; simpl; [by left|].
    intros H. apply IH in H as [H|(e' & He' & H)].
    - destruct (Uint63.bit m e.1) eqn:Ht; [|by left].
      rewrite Uint63Axioms.lor_spec in H.
      apply orb_true_iff in H as [H|H]; [by left|].
      right. exists e. split; [left|done].
    - right. exists e'. split; [by right|done]. }
  intros H. apply Hgen in H as [H|H]; [|done]. by rewrite bit_noBits in H.
Qed.

Lemma elem_of_members {A} (m : mask) (l : list (mask * A)) (a : A) :
  a ∈ members m l → ∃ i, (i, a) ∈ l ∧ Uint63.bit m i = true.
Proof.
  unfold members. intros H.
  apply list_elem_of_In, List.in_map_iff in H as ([i a'] & <- & H).
  apply List.filter_In in H as [H Hb].
  exists i. split; [by apply list_elem_of_In|done].
Qed.

Lemma members_sublist {A} (m : mask) (l : list A) :
  members m (indexed l) `sublist_of` l.
Proof.
  unfold members, indexed. generalize bitIndices as bs.
  induction l as [|a l IH]; intros [|b bs]; simpl;
    try apply sublist_nil_l.
  destruct (Uint63.bit m b); simpl.
  - apply sublist_skip, IH.
  - apply sublist_cons, IH.
Qed.

(** *** The tables *)

Lemma nth_map_seq_or {A} (f : nat → A) (k n : nat) (d : A) :
  nth n (map f (seq 0 k)) d = if n <? k then f n else d.
Proof.
  destruct (Nat.ltb_spec n k) as [Hn|Hn].
  - rewrite (nth_indep _ d (f 0)) by (by rewrite length_map, length_seq).
    by rewrite (map_nth f), seq_nth.
  - apply nth_overflow. by rewrite length_map, length_seq.
Qed.

Lemma distinct3_nodupb (K : list nat) (p q r : nat) :
  distinct3 (nth p K 0) (nth q K 0) (nth r K 0) = true →
  nodupb (map (λ p, nth p K 0) [p; q; r]) = true.
Proof.
  unfold distinct3. simpl.
  by destruct (nth p K 0 =? nth q K 0), (nth p K 0 =? nth r K 0),
    (nth q K 0 =? nth r K 0).
Qed.

Lemma bit_lookup3 (u : list nat) (ds : list (mask * list nat)) (c : list nat)
    (i : mask) :
  Uint63.bit (lookup3 (tableOf u ds) c) i = true →
  ∃ e, e ∈ ds ∧ Uint63.bit (PrimInt63.lsl firstBit e.1) i = true ∧
       nodupb (map (λ p, nth p (minus3 u e.2) 0) c) = true.
Proof.
  destruct c as [|p [|q [|r [|]]]]; cbn [lookup3];
    try (by rewrite bit_noBits).
  unfold tableOf. cbv zeta. rewrite nth_map_seq_or.
  destruct (p <? 9); [|destruct q, r; cbn [nth]; by rewrite bit_noBits].
  rewrite nth_map_seq_or.
  destruct (q <? 9); [|destruct r; cbn [nth]; by rewrite bit_noBits].
  rewrite nth_map_seq_or.
  destruct (r <? 9); [|by rewrite bit_noBits].
  destruct ((p <? q) && (q <? r)); [|by rewrite bit_noBits].
  intros (e' & He' & Ht & Hb)%bit_maskOf.
  apply list_elem_of_In, List.in_map_iff in He' as (e & <- & He).
  cbn [fst snd] in Ht, Hb. exists e.
  split; [by apply list_elem_of_In|]. split; [done|].
  by apply distinct3_nodupb.
Qed.

Lemma bit_rowMask (l : list (list nat)) (u : list nat) (cls : list (list nat))
    (i : mask) (s : list nat) :
  (i, s) ∈ indexed l →
  Uint63.bit (rowMask (tableOf u (indexed l)) cls) i = true →
  okc cls (minus3 u s) = true.
Proof.
  intros Hi.
  assert (∀ c, Uint63.bit (lookup3 (tableOf u (indexed l)) c) i = true →
    nodupb (map (λ p, nth p (minus3 u s) 0) c) = true) as Hc.
  { intros c ([i' s'] & He & Hbit & Hnd)%bit_lookup3. cbn [fst snd] in *.
    by rewrite (indexed_same l i i' s s' Hi He Hbit) in Hnd. }
  destruct cls as [|c0 [|c1 [|c2 [|]]]]; cbn [rowMask];
    try (by rewrite bit_noBits).
  rewrite !Uint63Axioms.land_spec, !andb_true_iff. intros (H0 & H1 & H2).
  unfold okc. cbn [forallb].
  by rewrite (Hc c0 H0), (Hc c1 H1), (Hc c2 H2).
Qed.

(** Every pair of the list is a pair of [fwd]. *)
Lemma fwdList_sound (v w x y a b : list nat) :
  isMap v → isMap w → isMap x → isMap y →
  (a, b) ∈ fwdList (endW w) (preX v x) (preY (endW w) y) →
  a ∈ Der v ∧ b ∈ Der w ∧ fwd v w x y a b.
Proof.
  intros Hv Hw Hx Hy. unfold fwdList, preX, preY, endW. cbv zeta.
  cbn [px_rows px_starts py_table py_signs ew_signs ew_table].
  intros H. apply list_elem_of_In, List.in_flat_map in H as (e & He & H).
  apply List.in_map_iff in He as (a0 & <- & Ha0). cbn [fst snd] in H.
  apply List.in_map_iff in H as (b0 & [= <- <-] & Hb).
  apply list_elem_of_In in Ha0.
  apply list_elem_of_In, elem_of_members in Hb as (k & Hk & Hb).
  apply bit_unionOf in Hb as ([i m1] & Hm1 & Ho1 & Hb). cbn [fst snd] in Ho1, Hb.
  apply list_elem_of_In, List.in_map_iff in Hm1 as ([i' cls1] & Heq & Hs1).
  cbn [fst snd] in Heq. injection Heq as -> <-.
  apply List.in_map_iff in Hs1 as ([i' s1] & Heq & Hs1).
  cbn [fst snd] in Heq. injection Heq as -> <-.
  apply bit_unionOf in Hb as ([j m2] & Hm2 & Ho2 & Ho3).
  cbn [fst snd] in Ho2, Ho3.
  apply list_elem_of_In, List.in_map_iff in Hm2 as ([j' s2] & Heq & Hs2).
  cbn [fst snd] in Heq. injection Heq as -> <-.
  apply list_elem_of_In in Hs1, Hs2.
  apply (bit_rowMask (Der x) x (classes (plus3 v a0)) i s1 Hs1) in Ho1.
  apply (bit_rowMask (Der y) y (classes (plus3 x s1)) j s2 Hs2) in Ho2.
  apply (bit_rowMask (Der w) w (classes (plus3 y s2)) k b0 Hk) in Ho3.
  apply indexed_elem_of in Hs1, Hs2, Hk.
  split; [done|]. split; [done|].
  apply elem_of_Der in Hs1 as [Hs1 _]. apply elem_of_Der in Hs2 as [Hs2 _].
  apply elem_of_Der in Ha0 as [Ha0 _]. apply elem_of_Der in Hk as [Hb0 _].
  exists s1, s2. split; [done|]. split; [done|].
  split; [|split]; apply okc_sound; try done;
    try apply Forall_plus3;
    try (apply length_plus3; by destruct Hv, Hw, Hx, Hy, Ha0, Hb0, Hs1, Hs2);
    try (apply length_minus3; by destruct Hv, Hw, Hx, Hy, Ha0, Hb0, Hs1, Hs2).
Qed.

(** ** More than half of the pairs are joined *)

Lemma NoDup_fwdList (v w x : list nat) (ey : PreY) :
  NoDup (fwdList (endW w) (preX v x) ey).
Proof.
  unfold fwdList, preX, endW. cbv zeta.
  cbn [px_rows px_starts ew_signs ew_table].
  apply NoDup_flat_map.
  - intros e _. apply NoDup_map_on.
    + apply (sublist_NoDup _ (Der w)); [apply NoDup_Der|apply members_sublist].
    + by intros b b' _ _ [= ->].
  - intros e e' s He He' Hs Hs'.
    apply list_elem_of_In, List.in_map_iff in He as (a & <- & _).
    apply list_elem_of_In, List.in_map_iff in He' as (a' & <- & _).
    cbn [fst snd] in Hs, Hs'.
    apply list_elem_of_In, List.in_map_iff in Hs as (b & <- & _).
    apply list_elem_of_In, List.in_map_iff in Hs' as (b' & [= <- _] & _).
    done.
  - apply NoDup_map_on; [apply NoDup_Der|]. by intros a a' _ _ [= ->].
Qed.

(** The count is above [half] for every representative and every canonical
    list of rows. *)
Lemma denseCheck_raw :
  (let ew := endW cols3 in
   let eys := map (preY ew) canonMaps in
   forallb (λ x, let ex := preX rows3 x in
       forallb (λ ey, half <=? length (fwdList ew ex ey)) eys) reps) = true.
Proof. vm_cast_no_check (eq_refl true). Qed.

Lemma denseCheck_true (x : list nat) (ey : PreY) :
  List.In x reps → List.In ey (map (preY (endW cols3)) canonMaps) →
  half ≤ length (fwdList (endW cols3) (preX rows3 x) ey).
Proof.
  intros Hx Hey. pose proof denseCheck_raw as H. cbv zeta in H.
  apply (proj1 (List.forallb_forall _ _)) with (x := x) in H; [|exact Hx].
  apply (proj1 (List.forallb_forall _ _)) with (x := ey) in H; [|exact Hey].
  apply Nat.leb_le in H. exact H.
Qed.

Lemma reps_isMap (r : list nat) : r ∈ reps → isMap r.
Proof.
  assert (forallb isMap9 reps = true) as H by (by vm_compute).
  rewrite List.forallb_forall in H. intros Hr.
  apply isMap9_spec, H. by apply list_elem_of_In.
Qed.

Lemma isMap_rows3 : isMap rows3.
Proof. split; [done|repeat constructor]. Qed.

Lemma isMap_cols3 : isMap cols3.
Proof. split; [done|repeat constructor]. Qed.

Lemma dense_reps (r c : list nat) : r ∈ reps → c ∈ canonMaps → dense r c.
Proof.
  intros Hr Hc.
  exists (fwdList (endW cols3) (preX rows3 r) (preY (endW cols3) c)).
  split; [apply NoDup_fwdList|]. split.
  { apply denseCheck_true; [by apply list_elem_of_In|].
    apply List.in_map. by apply list_elem_of_In. }
  intros a b. apply fwdList_sound.
  - apply isMap_rows3.
  - apply isMap_cols3.
  - by apply reps_isMap.
  - by apply elem_of_canonMaps in Hc as (_ & _ & Hc).
Qed.

Lemma dense_tr (g : Symmetry) (fx fy r c : list nat) :
  g ∈ symmetries → fx ∈ perms3 → fy ∈ perms3 → isMap r → isMap c →
  dense r c → dense (tr fx (sym_h g) r) (tr fy (sym_h g) c).
Proof.
  intros Hg Hfx Hfy Hr Hc (L & Hnd & Hlen & HL).
  pose proof (symmetries_ok g Hg) as Hchk. unfold symCheck in Hchk.
  rewrite !andb_true_iff in Hchk.
  destruct Hchk as [[[[[[Hperm Hfv] Hfw] Hrows] Hcols] Hmr] Hmc].
  apply isPerm9_spec in Hperm.
  apply memList_spec in Hfv, Hfw. apply eqList_spec in Hrows, Hcols.
  apply movesDer_spec in Hmr as [Hmr Hir], Hmc as [Hmc Hic].
  set (h := sym_h g) in *. set (fv := sym_fv g) in *. set (fw := sym_fw g) in *.
  exists (map (λ p, (ts fv h p.1, ts fw h p.2)) L).
  split; [|split].
  - apply NoDup_map_on; [exact Hnd|].
    intros [a b] [a' b'] Hp Hp' Heq.
    pose proof (f_equal fst Heq) as Ha. pose proof (f_equal snd Heq) as Hb.
    cbn [fst snd] in Ha, Hb.
    destruct (HL _ _ Hp) as (Hda & Hdb & _).
    destruct (HL _ _ Hp') as (Hda' & Hdb' & _).
    rewrite (Hir a a' Hda Hda' Ha), (Hic b b' Hdb Hdb' Hb). reflexivity.
  - rewrite length_map. exact Hlen.
  - intros a' b' Hp.
    apply list_elem_of_In, List.in_map_iff in Hp as ([a b] & Heq & Hp).
    cbn [fst snd] in Heq. injection Heq as <- <-.
    apply list_elem_of_In in Hp.
    destruct (HL _ _ Hp) as (Hda & Hdb & Hfwd).
    split; [exact (Hmr a Hda)|]. split; [exact (Hmc b Hdb)|].
    apply elem_of_Der in Hda as [Hsa _]. apply elem_of_Der in Hdb as [Hsb _].
    pose proof (fwd_tr fv fw fx fy h rows3 cols3 r c a b Hfv Hfw Hfx Hfy Hperm
      isMap_rows3 isMap_cols3 Hr Hc Hsa Hsb Hfwd) as Hres.
    rewrite Hrows, Hcols in Hres. exact Hres.
Qed.

Lemma dense_all (x y : list nat) : balanced x → balanced y → dense x y.
Proof.
  intros Hx Hy.
  destruct (to_rep x Hx) as (g & fx & r & Hg & Hfx & Hr & ->).
  destruct (to_canon g y Hg Hy) as (fy & c & Hfy & Hc & ->).
  pose proof (dense_reps r c Hr Hc) as Hd.
  apply elem_of_canonMaps in Hc as (_ & _ & Hc).
  exact (dense_tr g fx fy r c Hg Hfx Hfy (reps_isMap r Hr) Hc Hd).
Qed.

(** The same for the other half of the walk. *)
Lemma dense_bwd (x y : list nat) :
  balanced x → balanced y →
  ∃ L : list (list nat * list nat),
    NoDup L ∧ half ≤ length L ∧
    ∀ a b, (a, b) ∈ L → a ∈ Der rows3 ∧ b ∈ Der cols3 ∧ bwd x y a b.
Proof.
  intros Hx Hy. destruct (dense_all y x Hy Hx) as (L & Hnd & Hlen & HL).
  assert (movesDer neg3 rows3 rows3 = true) as Hmr by (vm_compute; reflexivity).
  assert (movesDer neg3 cols3 cols3 = true) as Hmc by (vm_compute; reflexivity).
  apply movesDer_spec in Hmr as [Hmr Hir], Hmc as [Hmc Hic].
  exists (map (λ p, (neg3 p.1, neg3 p.2)) L).
  split; [|split].
  - apply NoDup_map_on; [exact Hnd|].
    intros [a b] [a' b'] Hp Hp' Heq.
    pose proof (f_equal fst Heq) as Ha. pose proof (f_equal snd Heq) as Hb.
    cbn [fst snd] in Ha, Hb.
    destruct (HL _ _ Hp) as (Hda & Hdb & _).
    destruct (HL _ _ Hp') as (Hda' & Hdb' & _).
    rewrite (Hir a a' Hda Hda' Ha), (Hic b b' Hdb Hdb' Hb). reflexivity.
  - rewrite length_map. exact Hlen.
  - intros a' b' Hp.
    apply list_elem_of_In, List.in_map_iff in Hp as ([a b] & Heq & Hp).
    cbn [fst snd] in Heq. injection Heq as <- <-.
    apply list_elem_of_In in Hp.
    destruct (HL _ _ Hp) as (Hda & Hdb & Hfwd).
    split; [exact (Hmr a Hda)|]. split; [exact (Hmc b Hdb)|].
    apply elem_of_Der in Hda as [Hsa _]. apply elem_of_Der in Hdb as [Hsb _].
    apply fwd_bwd; [exact (balanced_isMap x Hx)|exact (balanced_isMap y Hy)
                   |exact Hsa|exact Hsb|exact Hfwd].
Qed.

(** ** The closed walk *)

Lemma pigeonhole {A} `{EqDecision A} (L1 L2 U : list A) :
  NoDup L1 → NoDup L2 →
  (∀ z, z ∈ L1 → z ∈ U) → (∀ z, z ∈ L2 → z ∈ U) →
  length U < length L1 + length L2 →
  ∃ z, z ∈ L1 ∧ z ∈ L2.
Proof.
  intros Hnd1 Hnd2 HU1 HU2 Hlen.
  destruct (decide (Exists (λ z, z ∈ L2) L1)) as [Hex|Hno].
  - apply Exists_exists in Hex. done.
  - exfalso. rewrite Exists_exists in Hno.
    assert (NoDup (L1 ++ L2)) as Hnd.
    { apply NoDup_app. split; [done|]. split; [|done].
      intros z Hz1 Hz2. apply Hno. by exists z. }
    assert (L1 ++ L2 ⊆+ U) as Hsub.
    { apply NoDup_submseteq; [done|].
      intros z [Hz|Hz]%elem_of_app; auto. }
    apply submseteq_length in Hsub. rewrite length_app in Hsub. lia.
Qed.

(** For every filling of the second and third diagonal boxes there are
    signs that put the digits of each of the six other boxes on nine
    different cells. *)
Lemma hexagon (u1 u2 u4 u5 : list nat) :
  balanced u1 → balanced u2 → balanced u4 → balanced u5 →
  ∃ s0 s1 s2 s3 s4 s5,
    isSign s0 ∧ isSign s1 ∧ isSign s2 ∧ isSign s3 ∧ isSign s4 ∧ isSign s5 ∧
    closedWalk u1 u2 u4 u5 s0 s1 s2 s3 s4 s5.
Proof.
  intros H1 H2 H4 H5.
  destruct (dense_all u1 u2 H1 H2) as (L1 & Hnd1 & Hlen1 & HL1).
  destruct (dense_bwd u4 u5 H4 H5) as (L2 & Hnd2 & Hlen2 & HL2).
  destruct (pigeonhole L1 L2 (list_prod (Der rows3) (Der cols3)))
    as ([s0 s3] & Hz1 & Hz2); [exact Hnd1|exact Hnd2|..].
  - intros [a b] Hz. destruct (HL1 _ _ Hz) as (Ha & Hb & _).
    apply list_elem_of_In, List.in_prod;
      [exact (proj1 (list_elem_of_In _ _) Ha)|exact (proj1 (list_elem_of_In _ _) Hb)].
  - intros [a b] Hz. destruct (HL2 _ _ Hz) as (Ha & Hb & _).
    apply list_elem_of_In, List.in_prod;
      [exact (proj1 (list_elem_of_In _ _) Ha)|exact (proj1 (list_elem_of_In _ _) Hb)].
  - rewrite List.length_prod.
    assert (length (Der rows3) = 56) as -> by (vm_compute; reflexivity).
    assert (length (Der cols3) = 56) as -> by (vm_compute; reflexivity).
    unfold half in Hlen1, Hlen2. lia.
  - destruct (HL1 _ _ Hz1) as (Ha & Hb & s1 & s2 & Hs1 & Hs2 & Ho1 & Ho2 & Ho3).
    destruct (HL2 _ _ Hz2) as (_ & _ & s4 & s5 & Hs4 & Hs5 & Ho4 & Ho5 & Ho6).
    apply elem_of_Der in Ha as [Ha _]. apply elem_of_Der in Hb as [Hb _].
    exists s0, s1, s2, s3, s4, s5. unfold closedWalk.
    exact (conj Ha (conj Hs1 (conj Hs2 (conj Hb (conj Hs4 (conj Hs5
      (conj Ho1 (conj Ho2 (conj Ho3 (conj Ho4 (conj Ho5 Ho6))))))))))).
Qed.

Open Scope Z_scope.

(** ** From rows and columns to a solved grid *)

Open Scope nat_scope.

(** [digitAt] finds a digit that sits on the cell. *)
Lemma digitAt_first (i j : nat) (P : list nat) :
  ∀ K p, p < length P → p < length K →
    nth p P 0 = i → nth p K 0 = j →
    digitAt P K i j ≤ p ∧
    nth (digitAt P K i j) P 0 = i ∧ nth (digitAt P K i j) K 0 = j.
Proof.
  induction P as [|a P IH]; intros [|b K] p HP HK Hi Hj; simpl in *; try lia.
  destruct (a =? i) eqn:Ha; destruct (b =? j) eqn:Hb; simpl.
  - apply Nat.eqb_eq in Ha, Hb. split; [lia|done].
  - destruct p as [|p]; [apply Nat.eqb_neq in Hb; done|].
    destruct (IH K p) as (Hle & H1 & H2); [lia|lia|done|done|].
    split; [lia|done].
  - destruct p as [|p]; [apply Nat.eqb_neq in Ha; done|].
    destruct (IH K p) as (Hle & H1 & H2); [lia|lia|done|done|].
    split; [lia|done].
  - destruct p as [|p]; [apply Nat.eqb_neq in Ha; done|].
    destruct (IH K p) as (Hle & H1 & H2); [lia|lia|done|done|].
    split; [lia|done].
Qed.

Lemma digitAt_spec (P K : list nat) (p : nat) :
  length P = 9 → length K = 9 → ok P K → p < 9 →
  digitAt P K (nth p P 0) (nth p K 0) = p.
Proof.
  intros HP HK Hok Hp.
  destruct (digitAt_first (nth p P 0) (nth p K 0) P K p) as (Hle & H1 & H2);
    [lia|lia|done|done|].
  apply (proj1 (ok_nth 9 P K HP HK) Hok); [lia|done..].
Qed.

(** Nine digits on nine different cells of a box cover the box. *)
Lemma ok_covers (P K : list nat) (i j : nat) :
  isMap P → isMap K → ok P K → i < 3 → j < 3 →
  ∃ p, p < 9 ∧ nth p P 0 = i ∧ nth p K 0 = j.
Proof.
  intros [HP HPlt] [HK HKlt] Hok Hi Hj.
  assert (Hlen : length (zip P K) = 9) by (rewrite length_zip_with; lia).
  assert (Hincl : List.incl (list_prod (seq 0 3) (seq 0 3)) (zip P K)).
  { apply List.NoDup_length_incl.
    - by apply NoDup_ListNoDup.
    - rewrite Hlen. by rewrite List.length_prod.
    - intros [a b] Hab.
      apply (List.In_nth _ _ (0, 0)) in Hab as (n & Hn & Hnth).
      rewrite Hlen in Hn.
      rewrite (nth_zip_with _ _ _ _ 0 0) in Hnth by lia.
      injection Hnth as <- <-.
      apply List.in_prod; apply List.in_seq; split; try lia.
      + pose proof (Forall_nth_lt _ P n 0 HPlt ltac:(lia)) as H. simpl in H. lia.
      + pose proof (Forall_nth_lt _ K n 0 HKlt ltac:(lia)) as H. simpl in H. lia. }
  assert (Hin : List.In (i, j) (zip P K)).
  { apply Hincl, List.in_prod; apply List.in_seq; lia. }
  apply (List.In_nth _ _ (0, 0)) in Hin as (n & Hn & Hnth).
  rewrite Hlen in Hn.
  rewrite (nth_zip_with _ _ _ _ 0 0) in Hnth by lia.
  injection Hnth as <- <-. by exists n.
Qed.

Lemma digitAt_covers (P K : list nat) (i j : nat) :
  isMap P → isMap K → ok P K → i < 3 → j < 3 →
  digitAt P K i j < 9 ∧
  nth (digitAt P K i j) P 0 = i ∧ nth (digitAt P K i j) K 0 = j.
Proof.
  intros HP HK Hok Hi Hj.
  destruct (ok_covers P K i j HP HK Hok Hi Hj) as (p & Hp & H1 & H2).
  destruct HP as [HP _], HK as [HK _].
  destruct (digitAt_first i j P K p) as (Hle & H3 & H4); [lia|lia|done|done|].
  split; [lia|done].
Qed.

(** *** The cells of [layoutBoard] *)

Lemma cell_layoutBoard (R C : nat → list nat) (n1 : list Z) (r c : nat) :
  r < 9 → c < 9 →
  cell (layoutBoard R C n1) r c
  = nth (digitAt (R (3 * (r / 3) + c / 3)) (C (3 * (r / 3) + c / 3))
           (r mod 3) (c mod 3)) n1 0%Z.
Proof.
  intros Hr Hc. unfold cell, layoutBoard.
  rewrite (nth_map_seq _ 9 r []) by done.
  by rewrite (nth_map_seq _ 9 c 0%Z) by done.
Qed.

Lemma wfBoard_layoutBoard (R C : nat → list nat) (n1 : list Z) :
  wfBoard (layoutBoard R C n1).
Proof.
  unfold layoutBoard. split; [by rewrite length_map, length_seq|].
  apply Forall_forall. intros row Hrow.
  apply list_elem_of_In, List.in_map_iff in Hrow as (r & <- & _).
  by rewrite length_map, length_seq.
Qed.

Lemma layoutBoard_solved (R C : nat → list nat) (n1 : list Z) :
  isLayout R C → n1 ≡ₚ digits → isSolved (layoutBoard R C n1).
Proof.
  intros (Hbox & Hband & Hstack) Hn1. apply isSolved_iff.
  split; [apply wfBoard_layoutBoard|].
  assert (Hat : ∀ r c, r < 9 → c < 9 →
    let k := 3 * (r / 3) + c / 3 in
    let d := digitAt (R k) (C k) (r mod 3) (c mod 3) in
    d < 9 ∧ nth d (R k) 0 = r mod 3 ∧ nth d (C k) 0 = c mod 3).
  { intros r c Hr Hc k d.
    destruct (Hbox k) as (HR & HC & Hok); [unfold k; lia|].
    apply digitAt_covers; try done; lia. }
  split.
  - intros r c Hr Hc. rewrite cell_layoutBoard by done.
    apply Permutation_digits_nth; [done|]. by apply Hat.
  - intros r c r' c' Hr Hc Hr' Hc' Hne Hunit _.
    rewrite !cell_layoutBoard by done. intros Heq.
    destruct (Hat r c Hr Hc) as (Hd & HdR & HdC).
    destruct (Hat r' c' Hr' Hc') as (Hd' & HdR' & HdC').
    apply Permutation_digits_inj in Heq; [|done..].
    set (k := 3 * (r / 3) + c / 3) in *.
    set (k' := 3 * (r' / 3) + c' / 3) in *.
    set (d := digitAt (R k) (C k) (r mod 3) (c mod 3)) in *.
    rewrite <- Heq in HdR', HdC'. clearbody d. clear Heq Hd'.
    destruct (decide (k = k')) as [Hk|Hk].
    + rewrite <- Hk in HdR', HdC'. apply Hne.
      assert (r mod 3 = r' mod 3) by congruence.
      assert (c mod 3 = c' mod 3) by congruence.
      unfold k, k' in Hk. f_equal; lia.
    + destruct Hunit as [Hrow|[Hcol|[Hb1 Hb2]]].
      * apply (Hband k k' d); [unfold k; lia|unfold k'; lia|done|done| |].
        -- unfold k, k'. lia.
        -- rewrite HdR, HdR'. by rewrite Hrow.
      * apply (Hstack k k' d); [unfold k; lia|unfold k'; lia|done|done| |].
        -- unfold k, k'. lia.
        -- rewrite HdC, HdC'. by rewrite Hcol.
      * apply Hk. unfold k, k'. lia.
Qed.

(** *** The rows and columns of a closed walk *)

Lemma nth_plus3 (u s : list nat) (p : nat) :
  length u = 9 → length s = 9 → p < 9 →
  nth p (plus3 u s) 0 = add3 (nth p u 0) (nth p s 0).
Proof.
  intros Hu Hs Hp. unfold plus3. apply nth_zip_with; lia.
Qed.

Lemma nth_minus3 (u s : list nat) (p : nat) :
  length u = 9 → length s = 9 → p < 9 →
  nth p (minus3 u s) 0 = sub3 (nth p u 0) (nth p s 0).
Proof.
  intros Hu Hs Hp. unfold minus3. apply nth_zip_with; lia.
Qed.

(** A digit moved by a sign leaves its row, and the two signs take it to
    different rows. *)
Lemma moved_apart (u s : list nat) (p : nat) :
  isMap u → isSign s → p < 9 →
  nth p (plus3 u s) 0 ≠ nth p u 0 ∧
  nth p (minus3 u s) 0 ≠ nth p u 0 ∧
  nth p (plus3 u s) 0 ≠ nth p (minus3 u s) 0.
Proof.
  intros [Hu Hlt] [Hs Hsign] Hp.
  rewrite nth_plus3, nth_minus3 by done.
  pose proof (Forall_nth_lt _ u p 0 Hlt ltac:(lia)) as Ha.
  pose proof (Forall_nth_lt _ s p 0 Hsign ltac:(lia)) as He.
  simpl in Ha, He. unfold add3, sub3.
  destruct He as [-> | ->]; lia.
Qed.

Lemma ok_rows3_cols3 : ok rows3 cols3.
Proof.
  apply (ok_nth 9); [done..|]. intros i j Hi Hj.
  do 9 (destruct i as [|i]; [do 9 (destruct j as [|j]; [simpl; lia|]); lia|]).
  lia.
Qed.

Lemma walk_isLayout (u1 u2 u4 u5 s0 s1 s2 s3 s4 s5 : list nat) :
  isMap u1 → isMap u2 → isMap u4 → isMap u5 →
  isSign s0 → isSign s1 → isSign s2 → isSign s3 → isSign s4 → isSign s5 →
  ok u4 u1 → ok u2 u5 →
  closedWalk u1 u2 u4 u5 s0 s1 s2 s3 s4 s5 →
  isLayout (walkRows u2 u4 s0 s2 s4) (walkCols u1 u5 s1 s3 s5).
Proof.
  intros H1 H2 H4 H5 Hs0 Hs1 Hs2 Hs3 Hs4 Hs5 HB HC
    (Ho1 & Ho2 & Ho3 & Ho4 & Ho5 & Ho6).
  pose proof isMap_rows3 as Hr. pose proof isMap_cols3 as Hc.
  pose proof (isMap_plus3 rows3 s0 Hr Hs0) as Hr0p.
  pose proof (isMap_minus3 rows3 s0 Hr Hs0) as Hr0m.
  pose proof (isMap_plus3 cols3 s3 Hc Hs3) as Hc3p.
  pose proof (isMap_minus3 cols3 s3 Hc Hs3) as Hc3m.
  pose proof (isMap_plus3 u1 s1 H1 Hs1) as H1p.
  pose proof (isMap_minus3 u1 s1 H1 Hs1) as H1m.
  pose proof (isMap_plus3 u2 s2 H2 Hs2) as H2p.
  pose proof (isMap_minus3 u2 s2 H2 Hs2) as H2m.
  pose proof (isMap_plus3 u4 s4 H4 Hs4) as H4p.
  pose proof (isMap_minus3 u4 s4 H4 Hs4) as H4m.
  pose proof (isMap_plus3 u5 s5 H5 Hs5) as H5p.
  pose proof (isMap_minus3 u5 s5 H5 Hs5) as H5m.
  split; [|split].
  - intros k Hk.
    do 9 (destruct k as [|k];
      [cbn [walkRows walkCols]; split; [assumption|]; split; [assumption|];
       first [assumption | apply ok_rows3_cols3
             | apply ok_sym; [apply H1p|apply H2m|assumption]
             | apply ok_sym; [apply Hc3p|apply H4m|assumption]
             | apply ok_sym; [apply H5p|apply Hr0m|assumption]]|]).
    lia.
  - intros k k' p Hk Hk' Hp Hne Hband.
    destruct (moved_apart rows3 s0 p Hr Hs0 Hp) as (A1 & A2 & A3).
    destruct (moved_apart u4 s4 p H4 Hs4 Hp) as (B1 & B2 & B3).
    destruct (moved_apart u2 s2 p H2 Hs2 Hp) as (C1 & C2 & C3).
    do 9 (destruct k as [|k];
      [do 9 (destruct k' as [|k'];
         [first [done | cbn [walkRows]; congruence]|]); lia|]).
    lia.
  - intros k k' p Hk Hk' Hp Hne Hstack.
    destruct (moved_apart cols3 s3 p Hc Hs3 Hp) as (A1 & A2 & A3).
    destruct (moved_apart u1 s1 p H1 Hs1 Hp) as (B1 & B2 & B3).
    destruct (moved_apart u5 s5 p H5 Hs5 Hp) as (C1 & C2 & C3).
    do 9 (destruct k as [|k];
      [do 9 (destruct k' as [|k'];
         [first [done | cbn [walkCols]; congruence]|]); lia|]).
    lia.
Qed.

(** *** The rows and columns of the digits in a diagonal box *)

Lemma indexZ_nth (nums : list Z) :
  ∀ q, NoDup nums → q < length nums → indexZ (nth q nums 0%Z) nums = q.
Proof.
  induction nums as [|x nums IH]; intros q Hnd Hq; simpl in *; [lia|].
  apply NoDup_cons in Hnd as [Hx Hnd].
  destruct q as [|q]; [by rewrite Z.eqb_refl|].
  destruct (x =? nth q nums 0%Z)%Z eqn:Heq.
  - apply Z.eqb_eq in Heq. exfalso. apply Hx. rewrite Heq.
    apply list_elem_of_In, nth_In. lia.
  - rewrite IH; [done..|lia].
Qed.

Lemma nth_indexZ (nums : list Z) (d : Z) :
  d ∈ nums → indexZ d nums < length nums ∧ nth (indexZ d nums) nums 0%Z = d.
Proof.
  induction nums as [|x nums IH]; intros Hd; [by apply elem_of_nil in Hd|].
  simpl. destruct (x =? d)%Z eqn:Heq.
  - apply Z.eqb_eq in Heq. split; [lia|done].
  - apply Z.eqb_neq in Heq. apply elem_of_cons in Hd as [->|Hd]; [done|].
    destruct (IH Hd) as [Hlt Hnth]. split; [lia|done].
Qed.

Lemma map_indexZ (nums : list Z) :
  NoDup nums → map (λ d, indexZ d nums) nums = seq 0 (length nums).
Proof.
  intros Hnd. apply (nth_ext _ _ 0 0).
  { by rewrite length_map, length_seq. }
  intros q Hq. rewrite length_map in Hq.
  rewrite seq_nth by done.
  rewrite (nth_indep _ 0 (indexZ 0%Z nums)) by (by rewrite length_map).
  rewrite (map_nth (λ d, indexZ d nums)). by apply indexZ_nth.
Qed.

Section diagonal.
Variables n1 nums : list Z.
Hypothesis Hn1 : n1 ≡ₚ digits.
Hypothesis Hnums : nums ≡ₚ digits.

Lemma digits_length : length n1 = 9 ∧ length nums = 9.
Proof. by rewrite (Permutation_length Hn1), (Permutation_length Hnums). Qed.

Lemma digits_NoDup : NoDup n1 ∧ NoDup nums.
Proof. rewrite Hn1, Hnums. split; apply NoDup_digits. Qed.

Lemma length_rowsIn :
  length (rowsIn n1 nums) = 9 ∧ length (colsIn n1 nums) = 9.
Proof.
  destruct digits_length as [Hl1 _]. unfold rowsIn, colsIn.
  by rewrite !length_map.
Qed.

Lemma nth_rowsIn (p : nat) :
  p < 9 →
  nth p (rowsIn n1 nums) 0 = indexZ (nth p n1 0%Z) nums / 3 ∧
  nth p (colsIn n1 nums) 0 = indexZ (nth p n1 0%Z) nums mod 3.
Proof.
  intros Hp. destruct digits_length as [Hl1 _]. unfold rowsIn, colsIn. split.
  - rewrite (nth_indep _ 0 (indexZ 0%Z nums / 3)) by (rewrite length_map; lia).
    by rewrite (map_nth (λ d, indexZ d nums / 3)).
  - rewrite (nth_indep _ 0 (indexZ 0%Z nums mod 3)) by (rewrite length_map; lia).
    by rewrite (map_nth (λ d, indexZ d nums mod 3)).
Qed.

Lemma balanced_rowsIn : balanced (rowsIn n1 nums) ∧ balanced (colsIn n1 nums).
Proof.
  destruct digits_length as [_ Hl]. destruct digits_NoDup as [_ Hnd].
  assert (Hperm : n1 ≡ₚ nums) by (by rewrite Hn1, Hnums).
  unfold balanced, rowsIn, colsIn. split.
  - rewrite Hperm.
    assert (map (λ d, indexZ d nums / 3) nums
            = map (λ q, q / 3) (map (λ d, indexZ d nums) nums)) as ->
      by (by rewrite List.map_map).
    rewrite map_indexZ, Hl by done. done.
  - rewrite Hperm.
    assert (map (λ d, indexZ d nums mod 3) nums
            = map (λ q, q mod 3) (map (λ d, indexZ d nums) nums)) as ->
      by (by rewrite List.map_map).
    rewrite map_indexZ, Hl by done.
    apply (bool_decide_unpack _). by vm_compute.
Qed.

Lemma ok_rowsIn : ok (rowsIn n1 nums) (colsIn n1 nums).
Proof.
  destruct digits_length as [Hl1 Hl]. destruct digits_NoDup as [Hnd1 Hnd].
  apply (ok_nth 9); [apply length_rowsIn..|].
  intros i j Hi Hj.
  destruct (nth_rowsIn i Hi) as [-> ->]. destruct (nth_rowsIn j Hj) as [-> ->].
  intros Hrow Hcol.
  assert (Hin : ∀ p, p < 9 → nth p n1 0%Z ∈ nums).
  { intros p Hp. rewrite Hnums, <- Hn1. apply list_elem_of_In, nth_In. lia. }
  destruct (nth_indexZ nums _ (Hin i Hi)) as [_ Hdi].
  destruct (nth_indexZ nums _ (Hin j Hj)) as [_ Hdj].
  assert (Heq : indexZ (nth i n1 0%Z) nums = indexZ (nth j n1 0%Z) nums) by lia.
  rewrite Heq in Hdi. rewrite Hdi in Hdj.
  by apply (Permutation_digits_inj n1).
Qed.

(** The digit of [n1] that [nums] holds in its cell [q]. *)
Lemma digitAt_rowsIn (q : nat) :
  q < 9 →
  nth (digitAt (rowsIn n1 nums) (colsIn n1 nums) (q / 3) (q mod 3)) n1 0%Z
  = nth q nums 0%Z.
Proof.
  intros Hq. destruct digits_length as [Hl1 Hl].
  destruct digits_NoDup as [Hnd1 Hnd].
  assert (Hin : nth q nums 0%Z ∈ n1).
  { rewrite Hn1, <- Hnums. apply list_elem_of_In, nth_In. lia. }
  destruct (nth_indexZ n1 _ Hin) as [Hp Hnth]. rewrite Hl1 in Hp.
  set (p := indexZ (nth q nums 0%Z) n1) in *.
  destruct (nth_rowsIn p Hp) as [Hrow Hcol].
  rewrite Hnth, indexZ_nth in Hrow, Hcol by (done || lia).
  rewrite <- Hrow, <- Hcol.
  rewrite digitAt_spec; [done|apply length_rowsIn..|apply ok_rowsIn|done].
Qed.
End diagonal.

(** *** Every seeding has a completion *)

Lemma nth_rows3 (q : nat) :
  q < 9 → nth q rows3 0 = q / 3 ∧ nth q cols3 0 = q mod 3.
Proof.
  intros Hq. do 9 (destruct q as [|q]; [done|]). lia.
Qed.

Lemma seeded_completion (n1 n2 n3 : list Z) :
  n1 ≡ₚ digits → n2 ≡ₚ digits → n3 ≡ₚ digits →
  ∃ s, completion (seeded n1 n2 n3) s.
Proof.
  intros Hn1 Hn2 Hn3.
  destruct (balanced_rowsIn n1 n2 Hn1 Hn2) as [Hb4 Hb1].
  destruct (balanced_rowsIn n1 n3 Hn1 Hn3) as [Hb2 Hb5].
  set (u1 := colsIn n1 n2) in *. set (u4 := rowsIn n1 n2) in *.
  set (u2 := rowsIn n1 n3) in *. set (u5 := colsIn n1 n3) in *.
  destruct (hexagon u1 u2 u4 u5 Hb1 Hb2 Hb4 Hb5)
    as (s0 & s1 & s2 & s3 & s4 & s5 & Hs0 & Hs1 & Hs2 & Hs3 & Hs4 & Hs5 & Hwalk).
  pose proof (walk_isLayout u1 u2 u4 u5 s0 s1 s2 s3 s4 s5
    (balanced_isMap _ Hb1) (balanced_isMap _ Hb2) (balanced_isMap _ Hb4)
    (balanced_isMap _ Hb5) Hs0 Hs1 Hs2 Hs3 Hs4 Hs5
    (ok_rowsIn n1 n2 Hn1 Hn2) (ok_rowsIn n1 n3 Hn1 Hn3) Hwalk) as Hlay.
  set (R := walkRows u2 u4 s0 s2 s4) in *.
  set (C := walkCols u1 u5 s1 s3 s5) in *.
  exists (layoutBoard R C n1). split; [by apply layoutBoard_solved|].
  intros r c Hr Hc. rewrite cell_seeded, cell_layoutBoard by done.
  destruct (bool_decide_reflect (r / 3 = c / 3)) as [Hdiag|Hdiag]; [|done].
  intros _. rewrite <- Hdiag.
  set (q := 3 * (r mod 3) + c mod 3).
  assert (Hq : q < 9) by (unfold q; lia).
  replace (r mod 3) with (q / 3) by (unfold q; lia).
  replace (c mod 3) with (q mod 3) by (unfold q; lia).
  assert (Hband : r / 3 = 0 ∨ r / 3 = 1 ∨ r / 3 = 2) by lia.
  unfold boxNums.
  destruct Hband as [-> | [-> | ->]]; cbn [Nat.mul Nat.add bool_decide decide_rel];
    simpl bool_decide; cbv iota.
  - change (R 0) with rows3. change (C 0) with cols3.
    destruct (nth_rows3 q Hq) as [<- <-].
    by rewrite digitAt_spec by (done || apply ok_rows3_cols3).
  - change (R 4) with u4. change (C 4) with u1.
    by apply digitAt_rowsIn.
  - change (R 8) with u2. change (C 8) with u5.
    by apply digitAt_rowsIn.
Qed.

(** *** [generateSolvedBoard] *)

Lemma generateSolvedBoard_spec (o : Oracle) :
  match generateSolvedBoard o with
  | Some (b, o') =>
      drawsOk seedBounds o = true ∧ o' = drop 24 o ∧ isSolved b ∧
      ∃ seed, fillDiagonalBoxes emptyBoard o = Some (seed, o') ∧ extends seed b
  | None => drawsOk seedBounds o = false
  end.
Proof.
  unfold generateSolvedBoard.
  pose proof (fillDiagonalBoxes_spec emptyBoard o) as H.
  destruct (fillDiagonalBoxes emptyBoard o) as [[seed o']|]; [|done].
  destruct H as (n1 & n2 & n3 & Hn1 & Hn2 & Hn3 & -> & Hok & ->).
  pose proof (wfBoard_seeded n1 n2 n3) as Hwf.
  pose proof (digitCells_seeded n1 n2 n3 Hn1 Hn2 Hn3) as Hdig.
  pose proof (consistent_seeded n1 n2 n3 Hn1 Hn2 Hn3) as Hcons.
  rewrite solveSudoku_colMajor, solveCells_sols by (done || apply inGrid_colMajor).
  destruct (seeded_completion n1 n2 n3 Hn1 Hn2 Hn3) as (s & Hs).
  apply sols_completions in Hs; [|done..].
  destruct (sols colMajor (seeded n1 n2 n3)) as [|b l] eqn:Hsols;
    [by apply elem_of_nil in Hs|].
  cbn [verdict].
  assert (Hb : completion (seeded n1 n2 n3) b).
  { apply sols_completions; [done..|]. rewrite Hsols. left. }
  destruct Hb as [Hsolved Hext].
  split; [done|]. split; [done|]. split; [done|].
  by exists (seeded n1 n2 n3).
Qed.

Open Scope Z_scope.

(** ** A new game *)

(** The game that [generateSudoku] sets up. *)
Lemma generateSudoku_puzzle (o : Oracle) (s s' : State) (d : Dirty) :
  generateSudoku o s = Some (s', d) →
  isSolved (solution (vars s')) ∧
  workingBoard s' = initialBoard (vars s') ∧
  carvedFrom (solution (vars s')) (initialBoard (vars s')) ∧
  (∀ b, completion (initialBoard (vars s')) b ↔ b = solution (vars s')) ∧
  countZeros (initialBoard (vars s')) = cellsToRemoveOf (difficulty (vars s)).
Proof.
  unfold generateSudoku.
  pose proof (generateSolvedBoard_spec o) as Hgen.
  destruct (generateSolvedBoard o) as [[solvedBoard o1]|]; [|done].
  destruct Hgen as (_ & _ & Hsolved & _).
  destruct (createPuzzle _ _ _) as [[puzzleBoard o2]|] eqn:Hcarve; [|done].
  apply createPuzzle_spec in Hcarve as (Hcarved & Huniq & Hzeros); [|done].
  pose proof (allocRows_read puzzleBoard (heap s)) as Hread.
  destruct (allocRows _ _) as [newBoard h'].
  intros [= <- <-]. cbn [fst snd] in Hread.
  unfold workingBoard, readBoard in *. cbn. rewrite !map_id_board. by rewrite Hread.
Qed.

(** * The claims about the engine *)

(** C6, as stated, fails: on the board seeded by [seedOracle] the search
    of the code does not end where a row-major backtracking search ends. *)
Lemma solveSudoku_not_rowMajor :
  fillDiagonalBoxes emptyBoard seedOracle = Some (seedBoard, []) ∧
  solveSudoku solveFuel seedBoard 0 0 ≠ Some (backtrack rowMajor seedBoard).
Proof.
  split; [by vm_compute|].
  intros H. apply (f_equal (option_map (λ r, cell r.2 0 4))) in H.
  vm_compute in H. discriminate H.
Qed.

(** C6 (amended): the search that completes the grid visits the cells in
    column-major order (each column from top to bottom, the columns from
    left to right), skips the filled cells, tries the digits 1..9 in
    ascending order at each empty cell, and resets the cell to 0 when all
    digits are exhausted before it reports the failure to the parent: it
    is the backtracking search [backtrack] over the order [colMajor], and
    [solveFuel] recursive calls are enough for it to return. *)
Theorem solveSudoku_colMajor_backtrack (board : SudokuBoard) :
  solveSudoku solveFuel board 0 0 = Some (backtrack colMajor board).
Proof.
  rewrite solveSudoku_colMajor. apply solveCells_backtrack.
Qed.

(** C7, as stated, fails: on the grid [allOnes], which has no Sudoku
    completion, [countSolutions] returns 1 and not 0. *)
Lemma countSolutions_allOnes :
  countSolutions allOnes = Some 1 ∧ ∀ s, ¬ completion allOnes s.
Proof.
  split; [by vm_compute|].
  intros s [Hsolved Hext].
  apply isSolved_iff in Hsolved as (_ & _ & Hcons).
  assert (H00 : cell s 0 0 = 1) by (apply (Hext 0 0)%nat; [lia..|by vm_compute]).
  assert (H01 : cell s 0 1 = 1) by (apply (Hext 0 1)%nat; [lia..|by vm_compute]).
  apply (Hcons 0 0 0 1)%nat; [lia|lia|lia|lia|done|by left|lia|congruence].
Qed.

(** C7 (amended): for every grid of the heap, [countSolutions] returns and
    leaves every row array that existed before the call as it was, so the
    grid of the caller reads the same afterwards: the search writes only
    the rows of its copy.  For every 9x9 grid whose cells are 0..9 and
    whose filled cells do not repeat in a row, a column or a box, the
    number returned is [min N 2], where [N] is the number of Sudoku
    completions of the grid: the length of a duplicate-free list of all of
    them. *)
Theorem countSolutions_frame_and_count (h : Heap) (board : BoardRef) :
  wfHeap h → (∀ l, l ∈ board → is_Some (h_rows h !! l)) →
  ∃ (n : Z) (h' : Heap),
    countSolutionsOn h board = Some (n, h') ∧
    countSolutions (readBoard h board) = Some n ∧
    (∀ loc, is_Some (h_rows h !! loc) → h_rows h' !! loc = h_rows h !! loc) ∧
    readBoard h' board = readBoard h board ∧
    (wfBoard (readBoard h board) → digitCells (readBoard h board) →
     consistent (readBoard h board) →
     ∃ l : list SudokuBoard,
       n = Z.min (Z.of_nat (length l)) 2 ∧ NoDup l ∧
       ∀ s, s ∈ l ↔ completion (readBoard h board) s).
Proof.
  intros Hheap Halloc.
  destruct (allocRows h (readBoard h board)) as [tempBoard h1] eqn:Hcopy.
  pose proof Hcopy as Hspec.
  apply allocRows_spec in Hspec as (Hheap1 & Hnext & Htemp & Hframe & Hread);
    [|exact Hheap].
  destruct (countCells_total colMajor (readBoard h board) 0)
    as [[n after] Hrun].
  exists n, (storeRows h1 tempBoard after).
  assert (Hkeep : ∀ loc, is_Some (h_rows h !! loc) →
            h_rows (storeRows h1 tempBoard after) !! loc = h_rows h !! loc).
  { intros loc Hloc. apply (wfHeap_lookup h loc Hheap) in Hloc.
    rewrite storeRows_frame, Hframe; [reflexivity|exact Hloc|].
    rewrite Htemp, elem_of_seq. lia. }
  split.
  { unfold countSolutionsOn, copyBoard.
    rewrite Hcopy, Hread, countSolutionsHelper_colMajor, Hrun. reflexivity. }
  split.
  { unfold countSolutions.
    rewrite map_id_board, countSolutionsHelper_colMajor, Hrun. reflexivity. }
  split; [exact Hkeep|]. split.
  { apply readBoard_frame. intros l Hl. apply Hkeep, Halloc, Hl. }
  intros Hwf Hdig Hcons. exists (sols colMajor (readBoard h board)).
  rewrite (countCells_sols colMajor (readBoard h board) 0 Hwf inGrid_colMajor)
    in Hrun by lia.
  apply (f_equal (option_map fst)) in Hrun. cbn [option_map fst] in Hrun.
  rewrite Z.add_0_l in Hrun.
  split; [congruence|].
  split; [exact (NoDup_sols colMajor _ Hwf NoDup_colMajor inGrid_colMajor)|].
  intros s. exact (sols_completions (readBoard h board) s Hwf Hdig Hcons).
Qed.

(** What every carving run keeps.  For a solved grid and a difficulty,
    with [N] the number of cells to remove (40 for "easy", 50 for
    "medium", 60 for "hard"): at the head of every iteration of the
    carving loop ([n] is any number of iterations run so far) the puzzle
    has [N] minus the remaining count empty cells, the solved grid is its
    one and only Sudoku completion, and each of its filled cells holds the
    digit of the solved grid; and when [createPuzzle] returns, the puzzle
    has exactly [N] empty cells, [countSolutions] counts one solution of
    it, the solved grid is its one and only completion, and its filled
    cells hold the digits of the solved grid. *)
Theorem createPuzzle_carves (solved : SudokuBoard) (difficulty : string)
    (o : Oracle) (n : nat) :
  isSolved solved →
  let N := cellsToRemoveOf difficulty in
  let st := carveLoop n {| cs_puzzle := map (λ row, row) solved;
                           cs_cellsToRemove := N; cs_oracle := o |} in
  (cellsToRemoveOf "easy" = 40 ∧ cellsToRemoveOf "medium" = 50
   ∧ cellsToRemoveOf "hard" = 60) ∧
  (countZeros (cs_puzzle st) = N - cs_cellsToRemove st
   ∧ 0 ≤ cs_cellsToRemove st ≤ N
   ∧ (∀ s, completion (cs_puzzle st) s ↔ s = solved)
   ∧ (∀ row col, (row < 9)%nat → (col < 9)%nat →
        cell (cs_puzzle st) row col ≠ 0 →
        cell (cs_puzzle st) row col = cell solved row col)) ∧
  (∀ puzzle o', createPuzzle solved difficulty o = Some (puzzle, o') →
     countZeros puzzle = N
     ∧ countSolutions puzzle = Some 1
     ∧ (∀ s, completion puzzle s ↔ s = solved)
     ∧ (∀ row col, (row < 9)%nat → (col < 9)%nat →
          cell puzzle row col ≠ 0 → cell puzzle row col = cell solved row col)).
Proof.
  intros Hsolved N st.
  assert (Hall : ∀ m, carveInv solved N
            (carveLoop m {| cs_puzzle := map (λ row, row) solved;
                            cs_cellsToRemove := N; cs_oracle := o |})).
  { intros m. apply carveLoop_inv; [done|]. by apply carveInv_init. }
  split; [by vm_compute|]. split.
  - destruct (Hall n) as (Hcarved & Huniq & Hzeros & Hpos). fold st in Hcarved, Huniq, Hzeros, Hpos.
    assert (0 ≤ countZeros (cs_puzzle st)) by (unfold countZeros, countDigit; lia).
    split; [done|]. split; [lia|]. split; [done|].
    intros row col Hrow Hcol Hnz.
    destruct Hcarved as [_ Hsub]. destruct (Hsub row col Hrow Hcol); done.
  - intros puzzle o'. unfold createPuzzle. subst N st.
    destruct (Hall (length o)) as (Hcarved & Huniq & Hzeros & Hpos).
    destruct (cs_cellsToRemove _ >? 0) eqn:Hgt; [done|].
    intros [= <- <-]. rewrite Z.gtb_ltb in Hgt. apply Z.ltb_ge in Hgt.
    pose proof Hcarved as [Hwf Hsub].
    split; [lia|]. split; [|split; [done|]].
    + rewrite countSolutions_sols by done. f_equal.
      assert (Hl : ∀ s, s ∈ sols colMajor (cs_puzzle (carveLoop (length o)
                 {| cs_puzzle := map (λ row, row) solved;
                    cs_cellsToRemove := cellsToRemoveOf difficulty;
                    cs_oracle := o |})) ↔ s = solved).
      { intros s. rewrite sols_completions;
          [apply Huniq|done|by eapply carvedFrom_digitCells
          |by eapply carvedFrom_consistent]. }
      pose proof (NoDup_sols colMajor _ Hwf NoDup_colMajor inGrid_colMajor) as Hnd.
      destruct (sols colMajor _) as [|t [|t' l]].
      * exfalso. eapply elem_of_nil. apply Hl. done.
      * done.
      * exfalso. apply NoDup_cons in Hnd as [Hnot _]. apply Hnot.
        assert (t = solved) as -> by (apply Hl; left).
        assert (t' = solved) as -> by (apply Hl; right; left).
        left.
    + intros row col Hrow Hcol Hnz. destruct (Hsub row col Hrow Hcol); done.
Qed.

(** C2: the carving loop of [createPuzzle] need not end.  On the solved
    grid [solvedExample] at "hard", after the draws [stuckOracle] the
    puzzle has 56 empty cells and one solution, and emptying any further
    cell gives a second solution: whatever is drawn next, four cells stay
    to be removed at the head of every iteration, and the call does not
    return. *)
Theorem createPuzzle_hard_never_returns :
  generateSolvedBoard seedOracle = Some (solvedExample, []) ∧
  cellsToRemoveOf "hard" = 60 ∧
  countZeros stuckPuzzle = 56 ∧ countSolutions stuckPuzzle = Some 1 ∧
  ∀ o : Oracle,
    (∀ n, 0 < cs_cellsToRemove
                (carveLoop n (carveStart solvedExample "hard" (stuckOracle ++ o)))) ∧
    (∀ n, (56 ≤ n)%nat →
       cs_puzzle (carveLoop n (carveStart solvedExample "hard" (stuckOracle ++ o)))
       = stuckPuzzle) ∧
    createPuzzle solvedExample "hard" (stuckOracle ++ o) = None.
Proof.
  split; [vm_compute; reflexivity|]. split; [reflexivity|].
  split; [vm_compute; reflexivity|]. split; [vm_compute; reflexivity|].
  intros o.
  assert (Hlate : ∀ n, (56 ≤ n)%nat →
    cs_puzzle (carveLoop n (carveStart solvedExample "hard" (stuckOracle ++ o)))
    = stuckPuzzle ∧
    cs_cellsToRemove (carveLoop n (carveStart solvedExample "hard" (stuckOracle ++ o)))
    = 4).
  { intros n Hn. replace n with (56 + (n - 56))%nat by lia.
    rewrite carveLoop_add, carveLoop_stuckOracle. apply carveLoop_stuckPuzzle. }
  assert (Hpos : ∀ n, 0 < cs_cellsToRemove
    (carveLoop n (carveStart solvedExample "hard" (stuckOracle ++ o)))).
  { intros n. destruct (Nat.le_gt_cases 56 n) as [Hn|Hn].
    - destruct (Hlate n Hn) as [_ ->]. lia.
    - pose proof (carveLoop_le (56 - n)
        (carveLoop n (carveStart solvedExample "hard" (stuckOracle ++ o)))) as Hle.
      rewrite <- carveLoop_add in Hle.
      replace (n + (56 - n))%nat with 56%nat in Hle by lia.
      rewrite carveLoop_stuckOracle in Hle. cbn [cs_cellsToRemove] in Hle. lia. }
  split; [exact Hpos|]. split; [intros n Hn; by apply Hlate|].
  unfold createPuzzle.
  specialize (Hpos (length (stuckOracle ++ o))). unfold carveStart in Hpos.
  apply Z.gtb_lt in Hpos. by rewrite Hpos.
Qed.

(** * The claim about the generator *)

(** C1: [generateSolvedBoard] returns on every run, whatever the seeding
    draws (a run gives each of the 24 calls of [Math.random] of the three
    shuffles a number in its range), and the grid it returns is fully
    solved: it is 9x9, every cell holds a digit 1..9, and every row, every
    column and every 3x3 box is a permutation of 1..9.  [solveFuel]
    recursive calls are enough for the search, which never fails on a
    seeded board. *)
Theorem generateSolvedBoard_returns_solved (o : Oracle) :
  drawsOk seedBounds o = true →
  ∃ b, generateSolvedBoard o = Some (b, drop 24 o) ∧
    wfBoard b ∧
    (∀ row col, (row < 9)%nat → (col < 9)%nat → 1 ≤ cell b row col ≤ 9) ∧
    ∀ k, (k < 9)%nat →
      rowOf b k ≡ₚ digits ∧ colOf b k ≡ₚ digits ∧ boxOf b k ≡ₚ digits.
Proof.
  intros Hdraws. pose proof (generateSolvedBoard_spec o) as H.
  destruct (generateSolvedBoard o) as [[b o']|]; [|congruence].
  destruct H as (_ & -> & Hsolved & _). exists b.
  split; [reflexivity|].
  pose proof (proj1 (isSolved_iff b) Hsolved) as (Hwf & Hfull & _).
  split; [exact Hwf|]. split; [exact Hfull|]. exact (proj2 Hsolved).
Qed.

(** * The claims about the play session *)

(** C4: in every state the page can reach, for every digit [d] in 1..9, the
    budget of [d] plus the number of cells of the working board that hold
    [d] is 9; and so it is again after every event the page receives in
    that state, among them every committed placement and every erase. *)
Theorem digit_budget_invariant (name : string)
    (stored : gmap (string * string) Z) (s : State) (d : Z) :
  reachable name stored s → 1 ≤ d ≤ 9 →
  numberUsage (vars s) !!! d + countDigit (workingBoard s) d = 9 ∧
  ∀ e s', step e s = Some s' →
    numberUsage (vars s') !!! d + countDigit (workingBoard s') d = 9.
Proof.
  intros Hreach Hd. split.
  - apply reachable_sessionInv in Hreach as (Hu & _). by apply Hu.
  - intros e s' Hstep.
    assert (Hreach' : reachable name stored s') by (by eapply reachable_step).
    apply reachable_sessionInv in Hreach' as (Hu & _). by apply Hu.
Qed.

(** C3 (code bug): the arrow keys move the selection onto a given cell
    without looking at the puzzle, and Backspace then erases it.  In the
    session [eraseGiven] the puzzle gives 4 at (0, 4), and after the three
    events the working board holds 0 there. *)
Theorem given_cell_erased :
  (λ s, (cell (initialBoard (vars s)) 0 4, selectedCell (vars s),
         cell (workingBoard s) 0 4))
    <$> run eraseGiven (initialState "ann" ∅)
  = Some (4, Some (0%nat, 4%nat), 0).
Proof. by vm_compute. Qed.

(** C5 (code bug): typed on the keyboard, a wrong digit is counted once
    per selection: the registered listener keeps the [handleNumberInput]
    of the render of the selection, which adds 1 to the count it captured.
    In the session [fourWrongKeys] four wrong digits leave the count at 1
    and the game running; the same digits on the number pad
    ([fourWrongPad]) bring the count to 3 and end the game at the third,
    so that the fourth changes nothing. *)
Theorem wrong_keys_counted_once :
  (λ s, (wrongAttempts (vars s), gameCompleted (vars s), toasts s))
    <$> run fourWrongKeys (initialState "ann" ∅)
  = Some (1, false, [ToastWrong 2; ToastWrong 2; ToastWrong 2; ToastWrong 2]) ∧
  (λ s, (wrongAttempts (vars s), gameCompleted (vars s), toasts s))
    <$> run fourWrongPad (initialState "ann" ∅)
  = Some (3, true, [ToastGameOver; ToastWrong 1; ToastWrong 2]).
Proof. split; by vm_compute. Qed.

(** C8 (code bug): [handleCellClick] and [handleNumberInput] do not look at
    [gameStarted].  Before any game ([playBeforeStart]) a click selects the
    cell (0, 0), and the digit 5 of the number pad is taken as a wrong
    attempt. *)
Theorem input_before_start :
  (λ s, (gameStarted (vars s), selectedCell (vars s), wrongAttempts (vars s),
         toasts s))
    <$> run playBeforeStart (initialState "ann" ∅)
  = Some (false, Some (0%nat, 0%nat), 1, [ToastWrong 2]).
Proof. by vm_compute. Qed.

(** C9 (code bug): [saveBestTime] compares and stores the [timer] that the
    memoized [handleNumberInput] captured, not the elapsed time.  In the
    session [slowFinish] the stored best time is 5, the board is
    completed at 7 seconds, and the record is overwritten with 3, the time
    at which the last cell was selected. *)
Theorem worse_time_overwrites_record :
  (λ s, (gameCompleted (vars s), timer (vars s), db s !! ("ann", "easy")))
    <$> run slowFinish (initialState "ann" storedFive)
  = Some (true, 7, Some 3).
Proof. by vm_compute. Qed.

(** C10 (code bug): typed on the keyboard twice in a row, the digit that
    completes a row is announced twice: the registered listener keeps the
    [checkForSmartMove] of the render of the selection, whose
    [lastSmartMove] is still empty.  In the session [sameRowTwice] the two
    key presses are both committed and both emit the signal "row". *)
Theorem same_row_announced_twice :
  (λ s, (cell (workingBoard s) 6 6, lastSmartMove (vars s), toasts s))
    <$> run sameRowTwice (initialState "ann" ∅)
  = Some (6, "row", [ToastSmartMove "row"; ToastSmartMove "row"]).
Proof. by vm_compute. Qed.

(** * Further properties of the engine *)

(** X1: for a cell of the grid, [isValid board row col num] is true exactly
    when no cell of the row, of the column or of the 3x3 box of
    [(row, col)] holds [num]; the cell [(row, col)] itself is among the
    cells compared. *)
Theorem isValid_no_conflict (board : SudokuBoard) (row col : nat) (num : Z) :
  (row < 9)%nat → (col < 9)%nat →
  isValid board row col num = true ↔
  ∀ row' col', (row' < 9)%nat → (col' < 9)%nat →
    sameUnit row col row' col' → cell board row' col' ≠ num.
Proof. apply isValid_spec. Qed.

(** X2: [shuffleArray] draws one number for each index from the last down
    to 1, the draw for index [i] below [i + 1]; it returns a permutation
    of its argument and leaves the draws it did not use.  An array of
    length 0 or 1 is returned as it is, without a draw. *)
Theorem shuffleArray_permutes (array : list Z) (o : Oracle) :
  match shuffleArray array o with
  | Some (r, o') =>
      r ≡ₚ array ∧ length r = length array ∧
      drawsOk (boundsFrom (length array - 1)) o = true ∧
      o' = drop (length array - 1) o
  | None => drawsOk (boundsFrom (length array - 1)) o = false
  end ∧
  ((length array ≤ 1)%nat → shuffleArray array o = Some (array, o)).
Proof.
  split.
  - pose proof (shuffleArray_spec array o) as H.
    destruct (shuffleArray array o) as [[r o']|]; [|done].
    destruct H as (Hperm & Hok & ->). by rewrite Hperm.
  - intros Hlen. unfold shuffleArray.
    by replace (length array - 1)%nat with 0%nat by lia.
Qed.

(** X3: [fillBox] on a 9x9 board, for a box that lies in the grid: the nine
    cells of the box, row by row, become a permutation of 1..9, every
    other cell keeps its value, the board stays 9x9, and eight draws are
    consumed. *)
Theorem fillBox_fills_box (board b : SudokuBoard) (row col : nat) (o o' : Oracle) :
  wfBoard board → (row + 3 ≤ 9)%nat → (col + 3 ≤ 9)%nat →
  fillBox board row col o = Some (b, o') →
  wfBoard b ∧ boxAt b row col ≡ₚ digits ∧
  (∀ r c, ¬ inBox row col r c → cell b r c = cell board r c) ∧
  o' = drop 8 o.
Proof.
  intros Hwf Hrow Hcol Hfill.
  pose proof (fillBox_spec board row col o) as H. rewrite Hfill in H.
  destruct H as (nums & Hperm & -> & _ & ->).
  split; [by apply wfBoard_writeBox|]. split; [|split; [|done]].
  - rewrite boxAt_writeBox; [done..|]. by rewrite (Permutation_length Hperm).
  - intros r c Hout. by apply cell_writeBox_out.
Qed.

(** X4: [fillDiagonalBoxes] on the empty board succeeds exactly when the
    24 draws are in range (eight per box, below 9, 8, ..., 2).  The
    seeded board is 9x9; its three diagonal boxes are permutations of
    1..9; every cell outside them is 0; and no filled cell repeats in its
    row, column or box. *)
Theorem fillDiagonalBoxes_seed (o : Oracle) :
  match fillDiagonalBoxes emptyBoard o with
  | Some (b, o') =>
      drawsOk seedBounds o = true ∧ o' = drop 24 o ∧
      wfBoard b ∧ digitCells b ∧ consistent b ∧
      boxOf b 0 ≡ₚ digits ∧ boxOf b 4 ≡ₚ digits ∧ boxOf b 8 ≡ₚ digits ∧
      ∀ r c, (r < 9)%nat → (c < 9)%nat → (r / 3 ≠ c / 3)%nat → cell b r c = 0
  | None => drawsOk seedBounds o = false
  end.
Proof.
  pose proof (fillDiagonalBoxes_spec emptyBoard o) as H.
  destruct (fillDiagonalBoxes emptyBoard o) as [[b o']|]; [|done].
  destruct H as (n1 & n2 & n3 & Hn1 & Hn2 & Hn3 & -> & Hok & ->).
  split; [done|]. split; [done|].
  split; [apply wfBoard_seeded|].
  split; [by apply digitCells_seeded|].
  split; [by apply consistent_seeded|].
  split; [|split; [|split]].
  - pose proof (boxOf_seeded n1 n2 n3 Hn1 Hn2 Hn3 0 ltac:(lia)) as E.
    change (4 * 0)%nat with 0%nat in E. by rewrite E.
  - pose proof (boxOf_seeded n1 n2 n3 Hn1 Hn2 Hn3 1 ltac:(lia)) as E.
    change (4 * 1)%nat with 4%nat in E. by rewrite E.
  - pose proof (boxOf_seeded n1 n2 n3 Hn1 Hn2 Hn3 2 ltac:(lia)) as E.
    change (4 * 2)%nat with 8%nat in E. by rewrite E.
  - apply seeded_off_diagonal.
Qed.

(** X5: on a 9x9 board with cells in 0..9 whose filled cells repeat no digit
    in a row, column or box, [solveSudoku] decides whether the board can
    be completed: it returns [true] with a Sudoku completion of the
    board, or it returns [false] with the board as it was, and then the
    board has no completion. *)
Theorem solveSudoku_decides (board : SudokuBoard) :
  wfBoard board → digitCells board → consistent board →
  (∃ s, solveSudoku solveFuel board 0 0 = Some (true, s) ∧ completion board s) ∨
  (solveSudoku solveFuel board 0 0 = Some (false, board) ∧
   ∀ s, ¬ completion board s).
Proof.
  intros Hwf Hdig Hcons.
  rewrite solveSudoku_colMajor, solveCells_sols by (done || apply inGrid_colMajor).
  destruct (sols colMajor board) as [|s l] eqn:Hsols; cbn [verdict].
  - right. split; [done|]. intros s Hs.
    apply sols_completions in Hs; [|done..]. rewrite Hsols in Hs.
    by apply elem_of_nil in Hs.
  - left. exists s. split; [done|].
    apply sols_completions; [done..|]. rewrite Hsols. left.
Qed.

(** * The generator never fails *)

(** X6: [generateSolvedBoard] returns for every run whose 24 draws are in
    range, and for no other: the search never fails on a seeded board.
    The grid it returns is solved (9x9, every row, column and box a
    permutation of 1..9), it keeps the digits that [fillDiagonalBoxes]
    wrote, and the draws left are those after the 24 of the seeding. *)
Theorem generateSolvedBoard_solved (o : Oracle) :
  match generateSolvedBoard o with
  | Some (b, o') =>
      drawsOk seedBounds o = true ∧ o' = drop 24 o ∧ isSolved b ∧
      ∃ seed, fillDiagonalBoxes emptyBoard o = Some (seed, o') ∧ extends seed b
  | None => drawsOk seedBounds o = false
  end.
Proof. apply generateSolvedBoard_spec. Qed.

(** X16: every new game presents a puzzle with one solution, the one the
    page keeps.  After the New Game event the stored solution is a solved
    grid; the working board is the puzzle; the puzzle is the solution
    with exactly 40, 50 or 60 cells emptied, as the difficulty says; the
    stored solution is its only Sudoku completion; the budget of every
    digit is 9 minus its count on the puzzle; and the clock, the wrong
    attempts, the hints and the flags are reset. *)
Theorem new_game_unique_puzzle (o : Oracle) (s s' : State) :
  step (NewGame o) s = Some s' →
  isSolved (solution (vars s')) ∧
  workingBoard s' = initialBoard (vars s') ∧
  carvedFrom (solution (vars s')) (initialBoard (vars s')) ∧
  countZeros (initialBoard (vars s')) = cellsToRemoveOf (difficulty (vars s)) ∧
  (∀ b, completion (initialBoard (vars s')) b ↔ b = solution (vars s')) ∧
  (∀ d, 1 ≤ d ≤ 9 →
     numberUsage (vars s') !!! d = 9 - countDigit (initialBoard (vars s')) d) ∧
  gameStarted (vars s') = true ∧ gameCompleted (vars s') = false ∧
  isPaused (vars s') = false ∧ timer (vars s') = 0 ∧
  wrongAttempts (vars s') = 0 ∧ hintsRemaining (vars s') = 3.
Proof.
  cbn [step]. destruct (generateSudoku o s) as [[s1 d]|] eqn:Hgen; [|done].
  intros [= <-].
  pose proof (generateSudoku_puzzle _ _ _ _ Hgen)
    as (Hsolved & Hwork & Hcarved & Huniq & Hzeros).
  apply generateSudoku_vars in Hgen
    as (-> & Hgs & Hg & Hp & Ht & Hw & Hh & _).
  destruct (settle_fields s s1
    {| d_board := true; d_numberUsage := false;
       d_selectedCell := false; d_solution := true |})
    as (-> & -> & -> & -> & _ & -> & -> & _).
  rewrite settle_solution, settle_workingBoard, settle_gameStarted,
    settle_numberUsage.
  cbn [d_board andb]. rewrite Hgs.
  repeat (split; [done|]). split; [|done].
  intros k Hk. rewrite usageEffect_spec by done. by rewrite Hwork.
Qed.

(** * Further properties of the play session *)

(** X7: [isBoardComplete] returns true exactly when every cell of the
    current board is filled and equals the cell of the solution; for 9x9
    boards this makes the current board equal to the solution. *)
Theorem isBoardComplete_iff (solution currentBoard : SudokuBoard) :
  (isBoardComplete solution currentBoard = true ↔
   ∀ row col, (row < 9)%nat → (col < 9)%nat →
     cell currentBoard row col ≠ 0 ∧
     cell currentBoard row col = cell solution row col) ∧
  (isBoardComplete solution currentBoard = true →
   wfBoard solution → wfBoard currentBoard → currentBoard = solution).
Proof.
  assert (Hiff : isBoardComplete solution currentBoard = true ↔
    ∀ row col, (row < 9)%nat → (col < 9)%nat →
      cell currentBoard row col ≠ 0 ∧
      cell currentBoard row col = cell solution row col).
  { unfold isBoardComplete. rewrite List.forallb_forall. split.
    - intros H row col Hrow Hcol.
      specialize (H (row, col)
        (proj1 (list_elem_of_In _ _) (elem_of_rowMajor row col Hrow Hcol))).
      cbn [fst snd] in H.
      rewrite negb_true_iff, orb_false_iff, negb_false_iff in H.
      destruct H as [H0 Heq]. apply Z.eqb_neq in H0. by apply Z.eqb_eq in Heq.
    - intros H [row col] Hin.
      apply list_elem_of_In, inGrid_rowMajor in Hin as [Hrow Hcol].
      cbn [fst snd] in *. destruct (H row col Hrow Hcol) as [H0 Heq].
      rewrite negb_true_iff, orb_false_iff, negb_false_iff.
      split; [by apply Z.eqb_neq|by apply Z.eqb_eq]. }
  split; [done|]. intros Hc Hwf Hwf'.
  apply board_ext; [done..|]. intros row col Hrow Hcol.
  by apply Hiff.
Qed.

(** X8: [saveBestTime] keeps, for the player and difficulty it captured, the
    smaller of the stored time and the time it captured, and stores the
    captured time when there is no record; every other record is left as
    it is, and nothing is written for an empty player name.  The
    [bestTimes] shown change only when the record does. *)
Theorem saveBestTime_record (c : Closure) (s : State) (key : string * string) :
  db (saveBestTime c s) !! key
  = (if decide (key = (c_playerName c, c_difficulty c) ∧ c_playerName c ≠ "")
     then match db s !! key with
          | Some existing => Some (Z.min existing (c_timer c))
          | None => Some (c_timer c)
          end
     else db s !! key) ∧
  (db (saveBestTime c s) = db s →
   bestTimes (vars (saveBestTime c s)) = bestTimes (vars s)).
Proof.
  unfold saveBestTime.
  destruct (String.eqb (c_playerName c) "") eqn:Hname; cbn [negb].
  { apply String.eqb_eq in Hname. split; [|done].
    rewrite decide_False; [done|]. intros [_ H]. done. }
  apply String.eqb_neq in Hname.
  destruct (db s !! (c_playerName c, c_difficulty c)) as [existing|] eqn:Hold.
  - destruct (c_timer c <? existing) eqn:Hlt.
    + apply Z.ltb_lt in Hlt. split.
      * cbn [db withVars withDb].
        destruct (decide (key = (c_playerName c, c_difficulty c) ∧ _)) as [[-> _]|Hne].
        -- rewrite lookup_insert_eq, Hold. f_equal. lia.
        -- apply lookup_insert_ne. intros <-. by apply Hne.
      * cbn [db withVars withDb]. intros Hsame.
        apply (f_equal (λ m, m !! (c_playerName c, c_difficulty c))) in Hsame.
        rewrite lookup_insert_eq, Hold in Hsame. injection Hsame as Hsame. lia.
    + apply Z.ltb_ge in Hlt. split; [|done].
      destruct (decide (key = (c_playerName c, c_difficulty c) ∧ _)) as [[-> _]|Hne];
        [|done].
      rewrite Hold. f_equal. lia.
  - split.
    + cbn [db withVars withDb].
      destruct (decide (key = (c_playerName c, c_difficulty c) ∧ _)) as [[-> _]|Hne].
      * by rewrite lookup_insert_eq, Hold.
      * apply lookup_insert_ne. intros <-. by apply Hne.
    + cbn [db withVars withDb]. intros Hsame.
      apply (f_equal (λ m, m !! (c_playerName c, c_difficulty c))) in Hsame.
      by rewrite lookup_insert_eq, Hold in Hsame.
Qed.

(** X9: in every state the page can reach, the count of wrong attempts is
    between 0 and 3, and it is below 3 while the game is not over: the
    third wrong attempt ends the game. *)
Theorem wrong_attempts_bounded (name : string)
    (stored : gmap (string * string) Z) (s : State) :
  reachable name stored s →
  0 ≤ wrongAttempts (vars s) ≤ 3 ∧
  (gameCompleted (vars s) = false → wrongAttempts (vars s) < 3).
Proof.
  intros Hreach. by apply reachable_playInv in Hreach as (_ & _ & Ha & _).
Qed.

(** X10: in every state the page can reach, the selected cell, if any, is a
    cell of the grid: clicks select cells of the grid and the arrow keys
    stop at its border. *)
Theorem selection_in_grid (name : string)
    (stored : gmap (string * string) Z) (s : State) (row col : nat) :
  reachable name stored s → selectedCell (vars s) = Some (row, col) →
  (row < 9)%nat ∧ (col < 9)%nat.
Proof.
  intros Hreach Hsel.
  apply reachable_playInv in Hreach as (_ & _ & _ & _ & _ & _ & H).
  by rewrite Hsel in H.
Qed.

(** X11: the elapsed time is never negative, and an event changes it only
    in two ways: a tick of the interval adds one second, and a new game
    resets it to 0. *)
Theorem timer_changes (name : string) (stored : gmap (string * string) Z)
    (s s' : State) (e : Event) :
  reachable name stored s → step e s = Some s' →
  0 ≤ timer (vars s) ∧
  timer (vars s') = match e with
                    | Tick => timer (vars s) + 1
                    | NewGame _ => 0
                    | _ => timer (vars s)
                    end.
Proof.
  intros Hreach Hstep.
  split; [by apply reachable_playInv in Hreach as (_ & _ & _ & _ & _ & Ht & _)|].
  destruct e as [o|row col|num|key| | | |level]; cbn [step] in Hstep.
  - destruct (generateSudoku o s) as [[s1 d]|] eqn:Hgen; [|done].
    injection Hstep as <-.
    apply generateSudoku_vars in Hgen as (_ & _ & _ & _ & Ht & _).
    by destruct (settle_fields s s1 d) as (_ & _ & _ & -> & _).
  - destruct (_ && _); [|done]. unfold handleCellClick in Hstep.
    destruct (_ && _ && _); injection Hstep as <-;
      by match goal with |- context [settle ?a ?b ?c] =>
           destruct (settle_fields a b c) as (_ & _ & _ & -> & _) end.
  - destruct (_ || _); [|done].
    destruct (handleNumberInput (inputClosure s) num s) as [s1 d] eqn:Hh.
    injection Hstep as <-.
    apply handleNumberInput_honest in Hh as (_ & _ & _ & _ & _ & _ & Ht & _).
    by destruct (settle_fields s s1 d) as (_ & _ & _ & -> & _).
  - destruct (match key with KeyDigit n => _ | _ => true end); [|done].
    destruct (handleKeyDown (keyListener s) key s) as [s1 d] eqn:Hh.
    injection Hstep as <-.
    apply handleKeyDown_fields in Hh as (Ht & _).
    by destruct (settle_fields s s1 d) as (_ & _ & _ & -> & _).
  - destruct (_ && _); [|done].
    destruct (provideHint s) as [s1 d] eqn:Hh. injection Hstep as <-.
    destruct (settle_fields s s1 d) as (_ & _ & _ & -> & _).
    revert Hh. unfold provideHint.
    destruct (selectedCell (vars s)) as [[row col]|]; [|by intros [= <- <-]].
    destruct (_ || _ || _); [by intros [= <- <-]|].
    by destruct (negb _); intros [= <- <-].
  - destruct (gameStarted (vars s)); [|done]. unfold togglePause in Hstep.
    destruct (_ || _); injection Hstep as <-;
      by match goal with |- context [settle ?a ?b ?c] =>
           destruct (settle_fields a b c) as (_ & _ & _ & -> & _) end.
  - destruct (_ && _ && _); [|done]. injection Hstep as <-.
    by match goal with |- context [settle ?a ?b ?c] =>
         destruct (settle_fields a b c) as (_ & _ & _ & -> & _) end.
  - destruct (bool_decide _); [|done]. injection Hstep as <-.
    by match goal with |- context [settle ?a ?b ?c] =>
         destruct (settle_fields a b c) as (_ & _ & _ & -> & _) end.
Qed.

(** X12: on the number pad, in every state the page can reach, a digit that
    differs from the solution at the selected cell of a running game is
    counted exactly once: the count of wrong attempts grows by 1, the game
    is over exactly when the count reaches 3, and the working board and
    the digit budget are left as they were. *)
Theorem pad_wrong_digit_counted (name : string)
    (stored : gmap (string * string) Z) (s s' : State) (row col : nat) (num : Z) :
  reachable name stored s →
  selectedCell (vars s) = Some (row, col) →
  gameCompleted (vars s) = false → isPaused (vars s) = false →
  num ≠ 0 → num ≠ cell (solution (vars s)) row col →
  step (PadInput num) s = Some s' →
  wrongAttempts (vars s') = wrongAttempts (vars s) + 1 ∧
  gameCompleted (vars s') = (wrongAttempts (vars s) + 1 >=? 3) ∧
  workingBoard s' = workingBoard s ∧
  numberUsage (vars s') = numberUsage (vars s) ∧
  toasts s' = (if wrongAttempts (vars s) + 1 >=? 3 then ToastGameOver
               else ToastWrong (3 - (wrongAttempts (vars s) + 1))) :: toasts s.
Proof.
  intros Hreach Hsel Hg Hp Hnum Hwrong Hstep.
  apply reachable_playInv in Hreach as ((_ & Hcg & Hcp & _ & Hcs & Hcsol & Hcw) & _).
  cbn [step] in Hstep. destruct (_ || _); [|done].
  unfold handleNumberInput in Hstep.
  rewrite Hcs, Hsel, Hcg, Hg, Hcp, Hp, Hcsol, Hcw in Hstep. cbn [negb andb] in Hstep.
  apply Z.eqb_neq in Hnum, Hwrong. rewrite Hnum, Hwrong in Hstep.
  cbn [negb andb] in Hstep.
  destruct (wrongAttempts (vars s) + 1 >=? 3) eqn:Hthird;
    injection Hstep as <-;
    match goal with |- context [settle ?a ?b ?c] =>
      destruct (settle_fields a b c) as (-> & -> & _);
      destruct (settle_toasts a b c) as (-> & _);
      rewrite (settle_workingBoard a b c), (settle_numberUsage a b c)
    end; cbn; by rewrite ?Hg.
Qed.

(** X13: in every state the page can reach, once the game is over (solved,
    or lost by three wrong attempts) clicks on cells, the number pad, the
    keyboard, the hint button and the pause button change nothing at all;
    while the game is paused the same holds for all of these but the
    pause button.  Only a new game or a change of difficulty is taken. *)
Theorem ignored_when_over_or_paused (name : string)
    (stored : gmap (string * string) Z) (s s' : State) (e : Event) :
  reachable name stored s → step e s = Some s' →
  match e with
  | NewGame _ | DifficultyClick _ => True
  | PauseClick => gameCompleted (vars s) = true → s' = s
  | _ => gameCompleted (vars s) = true ∨ isPaused (vars s) = true → s' = s
  end.
Proof.
  intros Hreach Hstep.
  apply reachable_playInv in Hreach
    as ((_ & Hcg & Hcp & _) & (_ & Hkg & Hkp & _) & _).
  destruct e as [o|row col|num|key| | | |level]; cbn [step] in Hstep; try done.
  - intros Hover. destruct (_ && _); [|done].
    unfold handleCellClick in Hstep.
    replace (negb (gameCompleted (vars s)) && negb (isPaused (vars s)))
      with false in Hstep by (destruct Hover as [-> | ->]; by rewrite ?andb_false_r).
    rewrite <- andb_assoc in Hstep.
    replace (negb (gameCompleted (vars s)) && negb (isPaused (vars s)))
      with false in Hstep by (destruct Hover as [-> | ->]; by rewrite ?andb_false_r).
    rewrite andb_false_r in Hstep. injection Hstep as <-. apply settle_same.
  - intros Hover. destruct (_ || _); [|done].
    rewrite handleNumberInput_ignored in Hstep
      by (right; rewrite Hcg, Hcp; tauto).
    injection Hstep as <-. apply settle_same.
  - intros Hover.
    destruct (match key with KeyDigit n => _ | _ => true end); [|done].
    unfold handleKeyDown in Hstep. rewrite Hkg, Hkp in Hstep.
    replace (negb (k_gameStarted (keyListener s)) || gameCompleted (vars s)
             || isPaused (vars s)) with true in Hstep
      by (destruct Hover as [-> | ->]; by rewrite ?orb_true_r).
    injection Hstep as <-. apply settle_same.
  - intros Hover. destruct (_ && _); [|done].
    unfold provideHint in Hstep.
    destruct (selectedCell (vars s)) as [[row col]|];
      [|injection Hstep as <-; apply settle_same].
    replace ((hintsRemaining (vars s) <=? 0) || gameCompleted (vars s)
             || isPaused (vars s)) with true in Hstep
      by (destruct Hover as [-> | ->]; by rewrite ?orb_true_r).
    injection Hstep as <-. apply settle_same.
  - intros Hover. destruct (gameStarted (vars s)); [|done].
    unfold togglePause in Hstep. rewrite Hover, orb_true_r in Hstep.
    injection Hstep as <-. apply settle_same.
  - intros Hover.
    replace (gameStarted (vars s) && negb (gameCompleted (vars s))
             && negb (isPaused (vars s))) with false in Hstep; [done|].
    destruct Hover as [-> | ->]; by rewrite ?andb_false_r.
Qed.

(** X14: a hint never writes the board, the budget, the selection or the
    count of wrong attempts.  With an empty cell selected in a running
    game that is not paused, it shows the digit of the solution for that
    cell and takes one of the hints; on a filled cell it only says so; and
    the hints that remain stay between 0 and 3. *)
Theorem hint_shows_solution (name : string)
    (stored : gmap (string * string) Z) (s s' : State) :
  reachable name stored s → step HintClick s = Some s' →
  workingBoard s' = workingBoard s ∧
  numberUsage (vars s') = numberUsage (vars s) ∧
  selectedCell (vars s') = selectedCell (vars s) ∧
  wrongAttempts (vars s') = wrongAttempts (vars s) ∧
  0 ≤ hintsRemaining (vars s') ≤ 3 ∧
  match selectedCell (vars s) with
  | Some (row, col) =>
      if gameCompleted (vars s) || isPaused (vars s) then s' = s
      else if cell (workingBoard s) row col =? 0
      then hintsRemaining (vars s') = hintsRemaining (vars s) - 1 ∧
           toasts s' = ToastHint (cell (solution (vars s)) row col) :: toasts s
      else hintsRemaining (vars s') = hintsRemaining (vars s) ∧
           toasts s' = ToastHasNumber :: toasts s
  | None => s' = s
  end.
Proof.
  intros Hreach Hstep.
  assert (Hreach' : reachable name stored s') by (by eapply reachable_step).
  apply reachable_playInv in Hreach' as (_ & _ & _ & _ & Hh' & _).
  cbn [step] in Hstep.
  destruct (gameStarted (vars s)); [|done].
  destruct (hintsRemaining (vars s) <=? 0) eqn:Hleft; [done|].
  cbn [negb andb] in Hstep. unfold provideHint in Hstep. rewrite Hleft in Hstep.
  cbn [orb] in Hstep.
  destruct (selectedCell (vars s)) as [[row col]|] eqn:Hsel;
    [|injection Hstep as <-; rewrite settle_same; by rewrite Hsel].
  destruct (gameCompleted (vars s) || isPaused (vars s));
    [injection Hstep as <-; rewrite settle_same; by rewrite Hsel|].
  destruct (cell (workingBoard s) row col =? 0); cbn [negb] in Hstep;
    injection Hstep as <-;
    match goal with |- context [settle ?a ?b ?c] =>
      revert Hh';
      destruct (settle_fields a b c) as (-> & _ & -> & _ & -> & _);
      destruct (settle_toasts a b c) as (-> & _);
      rewrite (settle_workingBoard a b c), (settle_numberUsage a b c)
    end; cbn; intros Hh'; by rewrite ?Hsel.
Qed.

(** X15: pausing and resuming a game that is not over brings every state
    variable back to its value; the heap and the stored best times are
    not touched, and the two notices are shown. *)
Theorem pause_resume_round_trip (s s1 s2 : State) :
  gameCompleted (vars s) = false →
  step PauseClick s = Some s1 → step PauseClick s1 = Some s2 →
  vars s2 = vars s ∧ heap s2 = heap s ∧ db s2 = db s ∧
  isPaused (vars s1) = negb (isPaused (vars s)) ∧
  toasts s2 = ToastPause (negb (isPaused (vars s)))
                :: ToastPause (isPaused (vars s)) :: toasts s.
Proof.
  intros Hg Hs1 Hs2.
  apply step_PauseClick in Hs1 as (Hv1 & Hh1 & Hd1 & Ht1); [|done].
  apply step_PauseClick in Hs2 as (Hv2 & Hh2 & Hd2 & Ht2); [|by rewrite Hv1].
  rewrite Hv2, Hh2, Hd2, Ht2, Hv1, Hh1, Hd1, Ht1. cbn.
  rewrite negb_involutive. split; [by destruct (vars s)|done].
Qed.

(** X17: on the number pad, in every state the page can reach, the digit
    of the solution for the selected cell of a running game, or the erase
    button, writes that cell of the working board and no other; the count
    of wrong attempts, the solution and the puzzle stay as they are; and
    the game is over afterwards exactly when the board then equals the
    solution cell by cell. *)
Theorem pad_right_digit_written (name : string)
    (stored : gmap (string * string) Z) (s s' : State) (row col : nat) (num : Z) :
  reachable name stored s →
  selectedCell (vars s) = Some (row, col) →
  gameCompleted (vars s) = false → isPaused (vars s) = false →
  num = 0 ∨ num = cell (solution (vars s)) row col →
  step (PadInput num) s = Some s' →
  workingBoard s' = setCell (workingBoard s) row col num ∧
  wrongAttempts (vars s') = wrongAttempts (vars s) ∧
  solution (vars s') = solution (vars s) ∧
  initialBoard (vars s') = initialBoard (vars s) ∧
  gameCompleted (vars s')
  = isBoardComplete (solution (vars s)) (setCell (workingBoard s) row col num).
Proof.
  intros Hreach Hsel Hg Hp Hnum Hstep.
  pose proof (reachable_boardsInv _ _ _ Hreach) as (Hnd & _).
  apply reachable_playInv in Hreach
    as ((Hcb & Hcg & Hcp & Hcu & Hcs & Hcsol & Hcw) & _).
  cbn [step] in Hstep.
  destruct (handleNumberInput_commit (inputClosure s) num s row col)
    as (s1 & d & Hh & Hd & Hb1 & Hh1 & Hw1 & Hs1 & Hi1 & Hg1).
  - by rewrite Hcs.
  - by rewrite Hcg.
  - by rewrite Hcp.
  - by rewrite Hcsol.
  - intros Hnz. rewrite Hcu. apply Z.eqb_neq in Hnz.
    rewrite Hnz in Hstep. cbn [orb] in Hstep.
    destruct (usageExhausted (numberUsage (vars s)) num); [|done].
    by rewrite andb_false_r in Hstep.
  - rewrite Hh in Hstep. destruct (_ || _); [|done]. injection Hstep as <-.
    destruct (settle_fields s s1 d) as (-> & -> & _ & _ & _ & _ & -> & _).
    rewrite settle_workingBoard, settle_solution.
    rewrite Hcb, Hcsol in *.
    assert (Hwork : workingBoard s1 = setCell (workingBoard s) row col num).
    { unfold workingBoard. rewrite Hb1, Hh1. by apply readBoard_writeCell. }
    rewrite readBoard_writeCell in Hg1 by done.
    rewrite Hg, orb_false_r in Hg1. done.
Qed.

(** X18: for a time from 0 to [Number.MAX_SAFE_INTEGER], where the
    arithmetic of JS numbers is that of the integers, [formatTime] writes
    the minutes in decimal, a colon, and the seconds of the minute with
    exactly two digits; two different times of that range are never
    written the same. *)
Theorem formatTime_text (seconds : Z) :
  0 ≤ seconds ≤ maxSafeInteger →
  formatTime seconds =
    showZ (seconds / 60) +:+ ":" +:+
    String (digitChar (seconds mod 60 / 10))
      (String (digitChar (seconds mod 60 mod 10)) "") ∧
  ∀ other, 0 ≤ other ≤ maxSafeInteger →
    formatTime other = formatTime seconds → other = seconds.
Proof.
  intros [Ha _]. split.
  - unfold formatTime. cbv zeta. rewrite Z.rem_mod_nonneg by lia.
    f_equal. f_equal. apply (secsText_two (seconds mod 60)). lia.
  - intros b [Hb _] H. unfold formatTime in H. cbv zeta in H.
    apply colon_split in H as [Hm Hs];
      [|apply allDigits_showZ; lia|apply allDigits_showZ; lia].
    apply showZ_inj in Hm.
    apply (secsText_inj (Z.rem b 60) (Z.rem seconds 60)) in Hs.
    + rewrite !Z.rem_mod_nonneg in Hs by lia. lia.
    + rewrite Z.rem_mod_nonneg by lia. lia.
    + rewrite Z.rem_mod_nonneg by lia. lia.
Qed.

(** * The theorems at concrete inputs *)

(** A carving run that returns: at [solvedExample], difficulty "easy" and
    the draws [carveOracle], [createPuzzle] returns [puzzleExample], with
    40 empty cells and one solution. *)
Lemma createPuzzle_carves_example :
  isSolved solvedExample ∧
  createPuzzle solvedExample "easy" carveOracle = Some (puzzleExample, []) ∧
  countZeros puzzleExample = 40 ∧
  countSolutions puzzleExample = Some 1 ∧
  (∀ s, completion puzzleExample s ↔ s = solvedExample).
Proof.
  assert (Hsolved : isSolved solvedExample) by (apply isSolvedb_spec; by vm_compute).
  assert (Hrun : createPuzzle solvedExample "easy" carveOracle
                 = Some (puzzleExample, [])) by (by vm_compute).
  destruct (createPuzzle_carves solvedExample "easy" carveOracle 44 Hsolved)
    as (_ & _ & Hreturn).
  destruct (Hreturn puzzleExample [] Hrun) as (Hzeros & Hcount & Huniq & _).
  split; [done|]. split; [done|]. split; [done|]. split; done.
Defined.

(** C4 in the state at the end of the session [sameRowTwice], for the
    digit 6. *)
Lemma digit_budget_invariant_example :
  reachable "ann" ∅ (stateAfter sameRowTwice "ann" ∅) ∧
  numberUsage (vars (stateAfter sameRowTwice "ann" ∅)) !!! 6
  + countDigit (workingBoard (stateAfter sameRowTwice "ann" ∅)) 6 = 9.
Proof.
  split; [apply stateAfter_reachable|].
  apply (digit_budget_invariant "ann" ∅ (stateAfter sameRowTwice "ann" ∅) 6).
  - apply stateAfter_reachable.
  - lia.
Defined.

(** C7 at [puzzleExample], held in the heap. *)
Lemma countSolutions_frame_and_count_example :
  readBoard puzzleHeap puzzleRef = puzzleExample ∧
  ∃ (n : Z) (h' : Heap),
    countSolutionsOn puzzleHeap puzzleRef = Some (n, h') ∧
    countSolutions (readBoard puzzleHeap puzzleRef) = Some n ∧
    (∀ loc, is_Some (h_rows puzzleHeap !! loc) →
       h_rows h' !! loc = h_rows puzzleHeap !! loc) ∧
    readBoard h' puzzleRef = readBoard puzzleHeap puzzleRef ∧
    ∃ l : list SudokuBoard,
      n = Z.min (Z.of_nat (length l)) 2 ∧ NoDup l ∧
      ∀ s, s ∈ l ↔ completion (readBoard puzzleHeap puzzleRef) s.
Proof.
  split; [by vm_compute|].
  destruct (countSolutions_frame_and_count puzzleHeap puzzleRef)
    as (n & h' & Hrun & Hcount & Hkeep & Hread & Hn).
  - apply (bool_decide_unpack (wfHeap puzzleHeap)). by vm_compute.
  - apply Forall_forall.
    apply (bool_decide_unpack
             (Forall (λ l, is_Some (h_rows puzzleHeap !! l)) puzzleRef)).
    by vm_compute.
  - exists n, h'. split; [exact Hrun|]. split; [exact Hcount|].
    split; [exact Hkeep|]. split; [exact Hread|].
    apply Hn.
    + apply wfBoardb_spec. by vm_compute.
    + apply digitCellsb_spec. by vm_compute.
    + apply consistentb_spec. by vm_compute.
Defined.

(** C1 at the draws [seedOracle]: the grid returned is [solvedExample]. *)
Lemma generateSolvedBoard_returns_solved_example :
  drawsOk seedBounds seedOracle = true ∧
  ∃ b, generateSolvedBoard seedOracle = Some (b, drop 24 seedOracle) ∧
    b = solvedExample ∧ wfBoard b ∧
    (∀ row col, (row < 9)%nat → (col < 9)%nat → 1 ≤ cell b row col ≤ 9) ∧
    ∀ k, (k < 9)%nat →
      rowOf b k ≡ₚ digits ∧ colOf b k ≡ₚ digits ∧ boxOf b k ≡ₚ digits.
Proof.
  assert (drawsOk seedBounds seedOracle = true) as Hdraws
    by (vm_compute; reflexivity).
  split; [exact Hdraws|].
  destruct (generateSolvedBoard_returns_solved seedOracle Hdraws)
    as (b & Hrun & Hwf & Hfull & Hperm).
  exists b. split; [exact Hrun|]. split; [|exact (conj Hwf (conj Hfull Hperm))].
  assert (generateSolvedBoard seedOracle = Some (solvedExample, []))
    as Hgen by (vm_compute; reflexivity).
  rewrite Hgen in Hrun. congruence.
Defined.

(** * The further properties at concrete inputs *)

(** X1 at [puzzleExample], cell (0, 0) and digit 6. *)
Lemma isValid_no_conflict_example :
  isValid puzzleExample 0 0 6 = true ↔
  ∀ row' col', (row' < 9)%nat → (col' < 9)%nat →
    sameUnit 0 0 row' col' → cell puzzleExample row' col' ≠ 6.
Proof. apply (isValid_no_conflict puzzleExample 0 0 6); lia. Defined.

(** X3 for the first box of the empty board and the draws [boxOracle]. *)
Lemma fillBox_fills_box_example :
  ∃ b, fillBox emptyBoard 0 0 boxOracle = Some (b, []) ∧
    wfBoard b ∧ boxAt b 0 0 ≡ₚ digits ∧
    (∀ r c, ¬ inBox 0 0 r c → cell b r c = cell emptyBoard r c) ∧
    [] = drop 8 boxOracle.
Proof.
  eexists. split; [by vm_compute|].
  apply (fillBox_fills_box emptyBoard _ 0 0 boxOracle []).
  - apply wfBoardb_spec. by vm_compute.
  - lia.
  - lia.
  - by vm_compute.
Defined.

(** X5 at [puzzleExample]. *)
Lemma solveSudoku_decides_example :
  wfBoard puzzleExample ∧ digitCells puzzleExample ∧ consistent puzzleExample ∧
  ((∃ s, solveSudoku solveFuel puzzleExample 0 0 = Some (true, s)
         ∧ completion puzzleExample s) ∨
   (solveSudoku solveFuel puzzleExample 0 0 = Some (false, puzzleExample) ∧
    ∀ s, ¬ completion puzzleExample s)).
Proof.
  assert (Hwf : wfBoard puzzleExample) by (apply wfBoardb_spec; by vm_compute).
  assert (Hdig : digitCells puzzleExample) by (apply digitCellsb_spec; by vm_compute).
  assert (Hcons : consistent puzzleExample) by (apply consistentb_spec; by vm_compute).
  split; [done|]. split; [done|]. split; [done|].
  by apply (solveSudoku_decides puzzleExample).
Defined.

(** X9 after three wrong digits on the number pad. *)
Lemma wrong_attempts_bounded_example :
  reachable "ann" ∅ (stateAfter threeWrongPad "ann" ∅) ∧
  0 ≤ wrongAttempts (vars (stateAfter threeWrongPad "ann" ∅)) ≤ 3 ∧
  (gameCompleted (vars (stateAfter threeWrongPad "ann" ∅)) = false →
   wrongAttempts (vars (stateAfter threeWrongPad "ann" ∅)) < 3).
Proof.
  split; [apply stateAfter_reachable|].
  apply (wrong_attempts_bounded "ann" ∅). apply stateAfter_reachable.
Defined.

(** X10 at the end of the session [eraseGiven], where (0, 4) is selected. *)
Lemma selection_in_grid_example :
  reachable "ann" ∅ (stateAfter eraseGiven "ann" ∅) ∧
  selectedCell (vars (stateAfter eraseGiven "ann" ∅)) = Some (0, 4)%nat ∧
  (0 < 9)%nat ∧ (4 < 9)%nat.
Proof.
  split; [apply stateAfter_reachable|]. split; [vm_compute; reflexivity|].
  apply (selection_in_grid "ann" ∅ (stateAfter eraseGiven "ann" ∅) 0 4).
  - apply stateAfter_reachable.
  - vm_compute; reflexivity.
Defined.

(** X11 for a tick of the clock in a game just started. *)
Lemma timer_changes_example :
  reachable "ann" ∅ (stateAfter startEasy "ann" ∅) ∧
  ∃ s', step Tick (stateAfter startEasy "ann" ∅) = Some s' ∧
    0 ≤ timer (vars (stateAfter startEasy "ann" ∅)) ∧
    timer (vars s') = timer (vars (stateAfter startEasy "ann" ∅)) + 1.
Proof.
  split; [apply stateAfter_reachable|].
  destruct (step Tick (stateAfter startEasy "ann" ∅)) as [s'|] eqn:Hstep.
  - exists s'. split; [reflexivity|].
    exact (timer_changes "ann" ∅ _ s' Tick (stateAfter_reachable _ _ _) Hstep).
  - vm_compute in Hstep. discriminate Hstep.
Defined.

(** X12 for the wrong digit 1 on the cell (0, 0), whose digit is 6. *)
Lemma pad_wrong_digit_counted_example :
  reachable "ann" ∅ (stateAfter firstCellSelected "ann" ∅) ∧
  selectedCell (vars (stateAfter firstCellSelected "ann" ∅)) = Some (0, 0)%nat ∧
  cell (solution (vars (stateAfter firstCellSelected "ann" ∅))) 0 0 = 6 ∧
  ∃ s', step (PadInput 1) (stateAfter firstCellSelected "ann" ∅) = Some s' ∧
    wrongAttempts (vars s')
    = wrongAttempts (vars (stateAfter firstCellSelected "ann" ∅)) + 1 ∧
    workingBoard s' = workingBoard (stateAfter firstCellSelected "ann" ∅).
Proof.
  split; [apply stateAfter_reachable|].
  split; [vm_compute; reflexivity|]. split; [vm_compute; reflexivity|].
  destruct (step (PadInput 1) (stateAfter firstCellSelected "ann" ∅))
    as [s'|] eqn:Hstep; [|vm_compute in Hstep; discriminate Hstep].
  exists s'. split; [reflexivity|].
  destruct (pad_wrong_digit_counted "ann" ∅
    (stateAfter firstCellSelected "ann" ∅) s' 0 0 1)
    as (Hw & _ & Hb & _).
  - apply stateAfter_reachable.
  - vm_compute; reflexivity.
  - vm_compute; reflexivity.
  - vm_compute; reflexivity.
  - discriminate.
  - vm_compute. discriminate.
  - exact Hstep.
  - split; [exact Hw|exact Hb].
Defined.

(** X13 for a digit of the number pad after the game is lost. *)
Lemma ignored_when_over_or_paused_example :
  reachable "ann" ∅ (stateAfter threeWrongPad "ann" ∅) ∧
  gameCompleted (vars (stateAfter threeWrongPad "ann" ∅)) = true ∧
  ∃ s', step (PadInput 1) (stateAfter threeWrongPad "ann" ∅) = Some s' ∧
    s' = stateAfter threeWrongPad "ann" ∅.
Proof.
  split; [apply stateAfter_reachable|]. split; [vm_compute; reflexivity|].
  destruct (step (PadInput 1) (stateAfter threeWrongPad "ann" ∅))
    as [s'|] eqn:Hstep; [|vm_compute in Hstep; discriminate Hstep].
  exists s'. split; [reflexivity|].
  apply (ignored_when_over_or_paused "ann" ∅ _ s' (PadInput 1)
           (stateAfter_reachable _ _ _) Hstep).
  left. vm_compute; reflexivity.
Defined.

(** X14 for a hint on the empty cell (0, 0). *)
Lemma hint_shows_solution_example :
  reachable "ann" ∅ (stateAfter firstCellSelected "ann" ∅) ∧
  ∃ s', step HintClick (stateAfter firstCellSelected "ann" ∅) = Some s' ∧
    workingBoard s' = workingBoard (stateAfter firstCellSelected "ann" ∅) ∧
    0 ≤ hintsRemaining (vars s') ≤ 3.
Proof.
  split; [apply stateAfter_reachable|].
  destruct (step HintClick (stateAfter firstCellSelected "ann" ∅))
    as [s'|] eqn:Hstep; [|vm_compute in Hstep; discriminate Hstep].
  exists s'. split; [reflexivity|].
  destruct (hint_shows_solution "ann" ∅ _ s' (stateAfter_reachable _ _ _) Hstep)
    as (Hb & _ & _ & _ & Hh & _).
  split; [exact Hb|exact Hh].
Defined.

(** X15 in a game just started. *)
Lemma pause_resume_round_trip_example :
  gameCompleted (vars (stateAfter startEasy "ann" ∅)) = false ∧
  ∃ s1 s2, step PauseClick (stateAfter startEasy "ann" ∅) = Some s1 ∧
    step PauseClick s1 = Some s2 ∧
    vars s2 = vars (stateAfter startEasy "ann" ∅).
Proof.
  split; [vm_compute; reflexivity|].
  destruct (step PauseClick (stateAfter startEasy "ann" ∅))
    as [s1|] eqn:Hs1; [|vm_compute in Hs1; discriminate Hs1].
  destruct (step PauseClick s1) as [s2|] eqn:Hs2.
  - exists s1, s2. split; [reflexivity|]. split; [exact Hs2|].
    apply (pause_resume_round_trip (stateAfter startEasy "ann" ∅) s1 s2);
      [vm_compute; reflexivity|exact Hs1|exact Hs2].
  - exfalso. revert Hs2. vm_compute in Hs1. injection Hs1 as <-.
    vm_compute. discriminate.
Defined.

(** X17 for the digit 6 on the cell (0, 0). *)
Lemma pad_right_digit_written_example :
  reachable "ann" ∅ (stateAfter firstCellSelected "ann" ∅) ∧
  selectedCell (vars (stateAfter firstCellSelected "ann" ∅)) = Some (0, 0)%nat ∧
  cell (solution (vars (stateAfter firstCellSelected "ann" ∅))) 0 0 = 6 ∧
  ∃ s', step (PadInput 6) (stateAfter firstCellSelected "ann" ∅) = Some s' ∧
    workingBoard s'
    = setCell (workingBoard (stateAfter firstCellSelected "ann" ∅)) 0 0 6 ∧
    wrongAttempts (vars s')
    = wrongAttempts (vars (stateAfter firstCellSelected "ann" ∅)).
Proof.
  split; [apply stateAfter_reachable|].
  split; [vm_compute; reflexivity|]. split; [vm_compute; reflexivity|].
  destruct (step (PadInput 6) (stateAfter firstCellSelected "ann" ∅))
    as [s'|] eqn:Hstep; [|vm_compute in Hstep; discriminate Hstep].
  exists s'. split; [reflexivity|].
  destruct (pad_right_digit_written "ann" ∅
    (stateAfter firstCellSelected "ann" ∅) s' 0 0 6)
    as (Hb & Hw & _).
  - apply stateAfter_reachable.
  - vm_compute; reflexivity.
  - vm_compute; reflexivity.
  - vm_compute; reflexivity.
  - right. vm_compute; reflexivity.
  - exact Hstep.
  - split; [exact Hb|exact Hw].
Defined.

(** X18 at 65 seconds. *)
Lemma formatTime_text_example :
  0 ≤ 65 ≤ maxSafeInteger ∧ formatTime 65 = "1:05" ∧
  ∀ other, 0 ≤ other ≤ maxSafeInteger →
    formatTime other = formatTime 65 → other = 65.
Proof.
  assert (0 ≤ 65 ≤ maxSafeInteger) as Hin by (by vm_compute).
  split; [exact Hin|].
  destruct (formatTime_text 65 Hin) as [H1 H2].
  split; [exact H1|exact H2].
Defined.

(** X16 for the game of the session [startEasy]. *)
Lemma new_game_unique_puzzle_example :
  ∃ s', step (NewGame gameOracle) (stateAfter [DifficultyClick "easy"] "ann" ∅) = Some s' ∧
    isSolved (solution (vars s')) ∧
    workingBoard s' = initialBoard (vars s') ∧
    (∀ b, completion (initialBoard (vars s')) b ↔ b = solution (vars s')).
Proof.
  destruct (step (NewGame gameOracle) (stateAfter [DifficultyClick "easy"] "ann" ∅))
    as [s'|] eqn:Hstep; [|vm_compute in Hstep; discriminate Hstep].
  exists s'. split; [reflexivity|].
  destruct (new_game_unique_puzzle gameOracle (stateAfter [DifficultyClick "easy"] "ann" ∅) s' Hstep)
    as (Hs & Hw & _ & _ & Hu & _).
  split; [exact Hs|]. split; [exact Hw|exact Hu].
Defined.
